(** * GraphLabs: the graph model and its analyses

    A shallow embedding of [graphlabs.core.graph] and of the analyses under
    [graphlabs.algorithms] (BFS, DFS, connected components, Dijkstra, cycle
    enumeration, Eulerian analysis), with the properties the design document
    states about them.

    Conventions of the embedding:
    - Python [int] is [Z]; node positions are carried as [Z] as well, since
      no analysis ever inspects them;
    - a Python [dict] is an insertion-ordered association list ([PyDict]):
      iteration order is observable in the source ([next(iter(nodes))],
      [degrees.items()], [components.items()]);
    - a Python [set] is a [gset Z];
    - [float('inf')] in a distance table is the constructor [Inf] of [Dist];
    - a [while] loop takes a [fuel : nat]; running dry is the outcome
      [OutOfFuel], which a run with enough fuel never has;
    - a recursive closure takes the number [limit : nat] of nested calls
      that the interpreter's recursion limit leaves room for (by default
      1000 frames, less those on the stack when [run] is called); a call
      nested deeper is the outcome [Raise RecursionError];
    - a failed [d[k]] is the outcome [Raise (KeyError k)], an integer too
      large for a float the outcome [Raise OverflowError];
    - the canvas (highlighting) is write-only for the analyses and is left
      out; the textual report of each analysis is kept as a structured value
      holding exactly the data the text is printed from. *)

From Stdlib Require Import ZArith Lia Ascii.
From stdpp Require Import base decidable option list sets gmap sorting strings relations.

Local Open Scope Z_scope.

(** ** Outcomes of a run *)

Inductive exn : Type :=
| KeyError (k : Z)      (* [d[k]] on a key that is not in [d] *)
| IndexError            (* [l[i]] out of range *)
| RecursionError        (* a call nested deeper than the recursion limit *)
| OverflowError.        (* an integer too large to convert to a float *)

Inductive outcome (A : Type) : Type :=
| Ok (a : A)
| Raise (e : exn)
| OutOfFuel.

Arguments Ok {A} a.
Arguments Raise {A} e.
Arguments OutOfFuel {A}.

Definition obind {A B : Type} (m : outcome A) (f : A → outcome B) : outcome B :=
  match m with
  | Ok a => f a
  | Raise e => Raise e
  | OutOfFuel => OutOfFuel
  end.

Notation "'let!' x ':=' m 'in' k" := (obind m (fun x => k))
  (at level 10, x pattern, m at level 100, k at level 200).

(** [d[k]] of a dict read as an outcome. *)
Definition lookup_or_raise {V : Type} (o : option V) (k : Z) : outcome V :=
  match o with
  | Some v => Ok v
  | None => Raise (KeyError k)
  end.

(** ** Insertion-ordered dictionaries with integer keys *)

Module PyDict.
Section dict.
Context {V : Type}.

(** [d.get(k)] *)
Fixpoint get (d : list (Z * V)) (k : Z) : option V :=
  match d with
  | [] => None
  | (k', v) :: rest => if decide (k' = k) then Some v else get rest k
  end.

(** [k in d] *)
Definition mem (d : list (Z * V)) (k : Z) : bool :=
  match get d k with Some _ => true | None => false end.

(** [d[k] = v]: an existing key keeps its position, a new one goes last. *)
Fixpoint set (d : list (Z * V)) (k : Z) (v : V) : list (Z * V) :=
  match d with
  | [] => [(k, v)]
  | (k', v') :: rest =>
      if decide (k' = k) then (k, v) :: rest else (k', v') :: set rest k v
  end.

(** [del d[k]] (the callers test [k in d] first) *)
Fixpoint del (d : list (Z * V)) (k : Z) : list (Z * V) :=
  match d with
  | [] => []
  | (k', v') :: rest =>
      if decide (k' = k) then rest else (k', v') :: del rest k
  end.

(** [list(d)], [iter(d)] *)
Definition keys (d : list (Z * V)) : list Z := d.*1.

(** [next(iter(d))] on a non-empty dict *)
Definition first_key (d : list (Z * V)) : option Z := head (keys d).
End dict.
End PyDict.

(** ** The data model: [graphlabs/core/graph.py] *)

Module Node.
Record t : Type := mk {
  id : Z;
  x : Z;
  y : Z;
  label : string;
  color : string
}.

(** [Node._int_to_letter]: 0 -> A, 1 -> B, ..., 26 -> AA.  The [while n > 0]
    loop divides [n] by 26 in each round. *)
Fixpoint int_to_letter_loop (fuel : nat) (n : Z) (result : string) : string :=
  match fuel with
  | O => result
  | S fuel' =>
      if decide (n > 0) then
        let n1 := n - 1 in
        int_to_letter_loop fuel' (n1 `div` 26)
          (String (ascii_of_nat (Z.to_nat (65 + n1 `mod` 26))) result)
      else result
  end.

Definition _int_to_letter (n : Z) : string :=
  int_to_letter_loop (Z.to_nat (n + 1)) (n + 1) "".

(** The dataclass constructor followed by [__post_init__]. *)
Definition new (id x y : Z) (label : string) (color : string) : t :=
  mk id x y (if decide (label = "") then _int_to_letter id else label) color.

Definition default_color : string := "#4A90E2".

Definition set_color (n : t) (c : string) : t :=
  mk (id n) (x n) (y n) (label n) c.

Definition set_label (n : t) (l : string) : t :=
  mk (id n) (x n) (y n) l (color n).
End Node.

Module Edge.
Record t : Type := mk {
  source : Z;
  target : Z;
  weight : Z;
  directed : bool;
  color : string
}.

Definition default_color : string := "#333333".

Definition set_weight (e : t) (w : Z) : t :=
  mk (source e) (target e) w (directed e) (color e).
End Edge.

Record Graph : Type := mkGraph {
  nodes : list (Z * Node.t);
  edges : list Edge.t;
  directed : bool;
  next_id : Z
}.

(** [Graph(directed)] *)
Definition Graph_init (d : bool) : Graph := mkGraph [] [] d 0.

Definition node_ids (g : Graph) : list Z := PyDict.keys (nodes g).

Definition has_node (g : Graph) (v : Z) : bool := PyDict.mem (nodes g) v.

(** [Graph.add_node]: returns the graph after the call and the new id. *)
Definition add_node (g : Graph) (x y : Z) (label : string) : Graph * Z :=
  let node_id := next_id g in
  let node := Node.new node_id x y label Node.default_color in
  (mkGraph (PyDict.set (nodes g) node_id node) (edges g) (directed g)
           (next_id g + 1),
   node_id).

(** [Graph.add_edge] *)
Definition add_edge (g : Graph) (source target weight : Z) : Graph :=
  if has_node g source && has_node g target then
    mkGraph (nodes g)
            (edges g ++ [Edge.mk source target weight (directed g) Edge.default_color])
            (directed g) (next_id g)
  else g.

(** [Graph.update_node_label] *)
Definition update_node_label (g : Graph) (node_id : Z) (label : string) : Graph :=
  match PyDict.get (nodes g) node_id with
  | Some n =>
      mkGraph (PyDict.set (nodes g) node_id (Node.set_label n label))
              (edges g) (directed g) (next_id g)
  | None => g
  end.

(** The test of [Graph.get_edge] on one edge. *)
Definition edge_matches (directed : bool) (source target : Z) (e : Edge.t) : bool :=
  (bool_decide (Edge.source e = source) && bool_decide (Edge.target e = target))
  || (negb directed
      && bool_decide (Edge.source e = target) && bool_decide (Edge.target e = source)).

(** [Graph.get_edge]: the first edge that matches. *)
Definition get_edge (g : Graph) (source target : Z) : option Edge.t :=
  find (edge_matches (directed g) source target) (edges g).

(** [Graph.update_edge_weight]: the edge found by [get_edge] is updated in
    place, that is, the first matching element of the edge list. *)
Fixpoint update_first (p : Edge.t → bool) (w : Z) (es : list Edge.t) : list Edge.t :=
  match es with
  | [] => []
  | e :: rest => if p e then Edge.set_weight e w :: rest else e :: update_first p w rest
  end.

Definition update_edge_weight (g : Graph) (source target weight : Z) : Graph :=
  mkGraph (nodes g)
          (update_first (edge_matches (directed g) source target) weight (edges g))
          (directed g) (next_id g).

(** [Graph.remove_node] *)
Definition remove_node (g : Graph) (node_id : Z) : Graph :=
  if has_node g node_id then
    mkGraph (PyDict.del (nodes g) node_id)
            (filter (λ e, Edge.source e ≠ node_id ∧ Edge.target e ≠ node_id) (edges g))
            (directed g) (next_id g)
  else g.

(** [Graph.remove_edge] *)
Definition remove_edge (g : Graph) (source target : Z) : Graph :=
  mkGraph (nodes g)
          (filter (λ e, ¬ (Edge.source e = source ∧ Edge.target e = target)) (edges g))
          (directed g) (next_id g).

(** [Graph.get_neighbors] *)
Fixpoint neighbors_of (directed : bool) (node_id : Z) (es : list Edge.t) : list Z :=
  match es with
  | [] => []
  | e :: rest =>
      if decide (Edge.source e = node_id) then
        Edge.target e :: neighbors_of directed node_id rest
      else if negb directed && bool_decide (Edge.target e = node_id) then
        Edge.source e :: neighbors_of directed node_id rest
      else neighbors_of directed node_id rest
  end.

Definition get_neighbors (g : Graph) (node_id : Z) : list Z :=
  neighbors_of (directed g) node_id (edges g).

(** [Graph.clear] *)
Definition clear (g : Graph) : Graph := mkGraph [] [] (directed g) 0.

(** A read-only analysis leaves the graph it was given; an analysis is run
    on a graph and yields the graph after the call together with what the
    call returned (or how it failed). *)
Definition analysis (R : Type) : Type := Graph → Graph * outcome R.

Definition reading {R : Type} (f : Graph → outcome R) : analysis R :=
  λ g, (g, f g).

(** The start vertex of an analysis on a non-empty graph: [start_node], or
    [next(iter(self.graph.nodes))] when it is [None]. *)
Definition pick_start (first : Z) (start_node : option Z) : Z :=
  match start_node with
  | Some s => s
  | None => first
  end.

(** ** Traversals: [algorithms/traversal/bfs.py], [algorithms/traversal/dfs.py] *)

Inductive TraversalReport : Type :=
| TEmpty                                  (* "Graphe vide" *)
| TNoStart (start : Z)                    (* "Erreur : Le sommet ... n'existe pas" *)
| TVisit (start : Z) (order : list Z) (visited : nat) (total : nat).

(** The body of BFS's inner [for neighbor in ...] loop. *)
Definition bfs_visit (acc : gset Z * list Z) (neighbor : Z) : gset Z * list Z :=
  if decide (neighbor ∈ acc.1) then acc
  else ({[neighbor]} ∪ acc.1, acc.2 ++ [neighbor]).

(** [while queue: ...] *)
Fixpoint bfs_loop (fuel : nat) (g : Graph) (visited : gset Z) (queue order : list Z)
  : outcome (gset Z * list Z) :=
  match queue with
  | [] => Ok (visited, order)
  | node :: rest =>
      match fuel with
      | O => OutOfFuel
      | S fuel' =>
          let acc := foldl bfs_visit (visited, rest) (get_neighbors g node) in
          bfs_loop fuel' g acc.1 acc.2 (order ++ [node])
      end
  end.

Definition BFS_body (fuel : nat) (start_node : option Z) (g : Graph)
  : outcome TraversalReport :=
  match nodes g with
  | [] => Ok TEmpty
  | (first, _) :: _ =>
      let start := pick_start first start_node in
      if has_node g start then
        let! (visited, order) := bfs_loop fuel g {[start]} [start] [] in
        Ok (TVisit start order (size visited) (length (nodes g)))
      else Ok (TNoStart start)
  end.

Definition BFS_run (fuel : nat) (start_node : option Z) : analysis TraversalReport :=
  reading (BFS_body fuel start_node).

(** The nested function [dfs] of [DFSModule.run]; the state is the pair of
    the closure variables [visited] and [order]. The function calls itself
    once per vertex on the way down a branch; [limit] nested calls are
    possible, the next one raises [RecursionError], which nothing in [run]
    catches. *)
Fixpoint dfs (limit : nat) (g : Graph) (node : Z) (st : gset Z * list Z)
  : outcome (gset Z * list Z) :=
  match limit with
  | O => Raise RecursionError
  | S limit' =>
      foldl (λ acc neighbor,
               let! st' := acc in
               if decide (neighbor ∈ st'.1) then Ok st' else dfs limit' g neighbor st')
            (Ok ({[node]} ∪ st.1, st.2 ++ [node]))
            (get_neighbors g node)
  end.

Definition DFS_body (limit : nat) (start_node : option Z) (g : Graph)
  : outcome TraversalReport :=
  match nodes g with
  | [] => Ok TEmpty
  | (first, _) :: _ =>
      let start := pick_start first start_node in
      if has_node g start then
        let! (visited, order) := dfs limit g start (∅, []) in
        Ok (TVisit start order (size visited) (length (nodes g)))
      else Ok (TNoStart start)
  end.

Definition DFS_run (limit : nat) (start_node : option Z) : analysis TraversalReport :=
  reading (DFS_body limit start_node).

(** ** Connected components: [algorithms/connectivity/connected_components.py] *)

Inductive ComponentsReport : Type :=
| CEmpty                                  (* "Graphe vide" *)
| CGroups (components : list (Z * Z)) (comp_groups : list (Z * list Z)).

(** The palette [colors] of the source, hexadecimal code and name. *)
Definition colors : list (string * string) :=
  [("#FF6B6B", "Rouge"); ("#4ECDC4", "Turquoise"); ("#45B7D1", "Bleu ciel");
   ("#FFA07A", "Saumon"); ("#98D8C8", "Vert d'eau"); ("#F7DC6F", "Jaune");
   ("#BB8FCE", "Violet"); ("#85C1E2", "Bleu clair"); ("#F8B739", "Orange");
   ("#52B788", "Vert")].

(** [colors[comp_id % len(colors)]]; the index is always in range. *)
Definition palette (comp_id : Z) : string * string :=
  default ("", "") (colors !! Z.to_nat (comp_id `mod` Z.of_nat (length colors))).

(** The nested function [dfs(node, comp_id)]; the state is the closure
    variable [components]. It nests like [dfs] above, within the same
    [limit]. *)
Fixpoint cc_dfs (limit : nat) (g : Graph) (node comp_id : Z) (components : list (Z * Z))
  : outcome (list (Z * Z)) :=
  match limit with
  | O => Raise RecursionError
  | S limit' =>
      foldl (λ acc neighbor,
               let! comps := acc in
               if PyDict.mem comps neighbor then Ok comps
               else cc_dfs limit' g neighbor comp_id comps)
            (Ok (PyDict.set components node comp_id))
            (get_neighbors g node)
  end.

(** [for node_id in self.graph.nodes: ...], on the pair of [components] and
    [component_num]. *)
Definition cc_outer (limit : nat) (g : Graph) : outcome (list (Z * Z) * Z) :=
  foldl (λ acc node_id,
           let! (comps, component_num) := acc in
           if PyDict.mem comps node_id then Ok (comps, component_num)
           else
             let! comps' := cc_dfs limit g node_id component_num comps in
             Ok (comps', component_num + 1))
        (Ok ([], 0)) (node_ids g).

(** [comp_groups], filled in the order of [components.items()]. *)
Definition group_components (components : list (Z * Z)) : list (Z * list Z) :=
  foldl (λ groups item,
           let '(node_id, comp_id) := item in
           PyDict.set groups comp_id (default [] (PyDict.get groups comp_id) ++ [node_id]))
        [] components.

(** [self.graph.nodes[node_id].color = color_hex] *)
Definition paint (ns : list (Z * Node.t)) (color_hex : string) (node_id : Z)
  : list (Z * Node.t) :=
  match PyDict.get ns node_id with
  | Some n => PyDict.set ns node_id (Node.set_color n color_hex)
  | None => ns
  end.

(** The colouring loop over [comp_groups.items()]. *)
Definition colorize (ns : list (Z * Node.t)) (comp_groups : list (Z * list Z))
  : list (Z * Node.t) :=
  foldl (λ ns0 group,
           let '(comp_id, members) := group in
           foldl (λ ns1 node_id, paint ns1 (palette comp_id).1 node_id) ns0 members)
        ns comp_groups.

(** [ConnectedComponentsModule.run]; [start_node] is accepted and ignored.
    The vertices are painted after the search: a search that fails leaves
    the graph as it was. *)
Definition ConnectedComponents_run (limit : nat) (start_node : option Z)
  : analysis ComponentsReport :=
  λ g,
    match nodes g with
    | [] => (g, Ok CEmpty)
    | _ :: _ =>
        match cc_outer limit g with
        | Ok (components, _) =>
            let comp_groups := group_components components in
            (mkGraph (colorize (nodes g) comp_groups) (edges g) (directed g) (next_id g),
             Ok (CGroups components comp_groups))
        | Raise e => (g, Raise e)
        | OutOfFuel => (g, OutOfFuel)
        end
    end.


(** ** Sorting and list helpers

    [sorted] is stable; on a given input every stable sort returns the same
    list, so insertion is as good as the interpreter's own algorithm. *)

Fixpoint insert_by {A : Type} (le : A → A → bool) (a : A) (l : list A) : list A :=
  match l with
  | [] => [a]
  | b :: rest => if le a b then a :: l else b :: insert_by le a rest
  end.

Definition sorted_by {A : Type} (le : A → A → bool) (l : list A) : list A :=
  foldr (insert_by le) [] l.

(** [sorted(l)] on a list of integers *)
Definition sorted (l : list Z) : list Z := sorted_by Z.leb l.

(** [l.remove(a)] when [a] is in [l]: the first occurrence goes. *)
Fixpoint remove_first {A : Type} `{EqDecision A} (a : A) (l : list A) : list A :=
  match l with
  | [] => []
  | b :: rest => if decide (b = a) then rest else b :: remove_first a rest
  end.

(** [l.pop()] on a non-empty list: the last element and what is left. *)
Fixpoint pop_last {A : Type} (l : list A) : option (A * list A) :=
  match l with
  | [] => None
  | [a] => Some (a, [])
  | a :: rest =>
      match pop_last rest with
      | Some (b, init) => Some (b, a :: init)
      | None => None
      end
  end.

(** ** Shortest paths: [algorithms/shortest_path/dijkstra.py] *)

(** A value of the table [distances]: an integer or [float('inf')]. *)
Inductive Dist : Type :=
| Fin (d : Z)
| Inf.

#[global] Instance Dist_eq_dec : EqDecision Dist.
Proof. solve_decision. Defined.

(** [distance < distances[neighbor]] *)
Definition lt_dist (distance : Z) (d : Dist) : bool :=
  match d with
  | Fin x => bool_decide (distance < x)
  | Inf => true
  end.

(** [curr_dist > distances[curr]] *)
Definition gt_dist (curr_dist : Z) (d : Dist) : bool :=
  match d with
  | Fin x => bool_decide (curr_dist > x)
  | Inf => false
  end.

(** The priority queue. [heapq] keeps a binary heap in a list; the only
    thing the algorithm observes is that [heappop] returns (and removes) a
    least entry, and entries are pairs of integers under the lexicographic
    order, where two entries that compare equal are the same pair. The queue
    is therefore kept as the list of its entries. *)
Definition entry_le (a b : Z * Z) : bool :=
  bool_decide (a.1 < b.1) || (bool_decide (a.1 = b.1) && bool_decide (a.2 ≤ b.2)).

Definition heap_min (a : Z * Z) (rest : list (Z * Z)) : Z * Z :=
  foldl (λ m b, if entry_le m b then m else b) a rest.

Definition heappush (pq : list (Z * Z)) (a : Z * Z) : list (Z * Z) := pq ++ [a].

Definition heappop (pq : list (Z * Z)) : option (Z * Z * list (Z * Z)) :=
  match pq with
  | [] => None
  | a :: rest => let m := heap_min a rest in Some (m, remove_first m pq)
  end.

Record DState : Type := mkDState {
  distances : list (Z * Dist);
  previous : list (Z * Z);
  pq : list (Z * Z)
}.

(** The generator expression that looks the weight up: the first edge of
    the edge list that joins [curr] and [neighbor], 1 when there is none. *)
Definition weight_matches (directed : bool) (curr neighbor : Z) (e : Edge.t) : bool :=
  (bool_decide (Edge.source e = curr) && bool_decide (Edge.target e = neighbor))
  || (negb directed
      && bool_decide (Edge.target e = curr) && bool_decide (Edge.source e = neighbor)).

Definition edge_weight (g : Graph) (curr neighbor : Z) : Z :=
  match find (weight_matches (directed g) curr neighbor) (edges g) with
  | Some e => Edge.weight e
  | None => 1
  end.

(** The body of [for neighbor in self.graph.get_neighbors(curr)]. *)
Definition relax (g : Graph) (curr_dist curr : Z) (st : DState) (neighbor : Z)
  : outcome DState :=
  let distance := curr_dist + edge_weight g curr neighbor in
  let! dn := lookup_or_raise (PyDict.get (distances st) neighbor) neighbor in
  if lt_dist distance dn then
    Ok (mkDState (PyDict.set (distances st) neighbor (Fin distance))
                 (PyDict.set (previous st) neighbor curr)
                 (heappush (pq st) (distance, neighbor)))
  else Ok st.

Definition relax_all (g : Graph) (curr_dist curr : Z) (st : DState) : outcome DState :=
  foldl (λ acc neighbor, let! st' := acc in relax g curr_dist curr st' neighbor)
        (Ok st) (get_neighbors g curr).

(** [while pq: ...] *)
Fixpoint dijkstra_loop (fuel : nat) (g : Graph) (st : DState) : outcome DState :=
  match heappop (pq st) with
  | None => Ok st
  | Some ((curr_dist, curr), pq') =>
      match fuel with
      | O => OutOfFuel
      | S fuel' =>
          let! dc := lookup_or_raise (PyDict.get (distances st) curr) curr in
          let st1 := mkDState (distances st) (previous st) pq' in
          if gt_dist curr_dist dc then dijkstra_loop fuel' g st1
          else
            let! st2 := relax_all g curr_dist curr st1 in
            dijkstra_loop fuel' g st2
      end
  end.

(** The path reconstruction loop
    [while curr in previous or curr == start: ...]; [path] is returned before
    [path.reverse()]. *)
Fixpoint rebuild_path (fuel : nat) (previous : list (Z * Z)) (start curr : Z)
    (path : list Z) : outcome (list Z) :=
  if PyDict.mem previous curr || bool_decide (curr = start) then
    match fuel with
    | O => OutOfFuel
    | S fuel' =>
        let path' := path ++ [curr] in
        if decide (curr = start) then Ok path'
        else
          match PyDict.get previous curr with
          | Some prev => rebuild_path fuel' previous start prev path'
          | None => Ok path'
          end
    end
  else Ok path.

(** [float(n)] of an integer [n], as the integer that the double is: the
    nearest double, a tie going to the even significand of 53 bits, and
    [OverflowError] ("int too large to convert to float") when that is
    2^1024 or more. An integer of at most 53 bits is its own double. *)
Definition float_of_int (n : Z) : outcome Z :=
  let a := Z.abs n in
  let extra := Z.log2 a + 1 - 53 in
  if decide (extra ≤ 0) then Ok n
  else
    let q := a `div` 2 ^ extra in
    let rest := a `mod` 2 ^ extra in
    let half := 2 ^ (extra - 1) in
    let q' := if decide (rest < half) then q
              else if decide (half < rest) then q + 1
              else if Z.even q then q else q + 1 in
    let rounded := q' * 2 ^ extra in
    if decide (2 ^ 1024 ≤ rounded) then Raise OverflowError
    else Ok (Z.sgn n * rounded).

(** [f"{d:.0f}"] for an integer [d]: the format converts [d] to a float,
    and a float that is an integer is printed with all its digits. The
    result is the number that is printed. *)
Definition format_0f (d : Z) : outcome Z := float_of_int d.

(** [f"{dist:.0f}" if dist != float('inf') else "∞"] *)
Definition format_dist (dist : Dist) : outcome Dist :=
  match dist with
  | Fin d => let! printed := format_0f d in Ok (Fin printed)
  | Inf => Ok Inf
  end.

(** The reports; [total] and the distances of [rows] are the numbers as
    they are printed. *)
Inductive DijkstraReport : Type :=
| DEmpty                                   (* "Graphe vide" *)
| DNoStart (start : Z)                     (* "Erreur : Le sommet de départ ..." *)
| DNoPath (start end_node : Z)             (* "Aucun chemin trouvé entre ..." *)
| DPath (start end_node : Z) (path : list Z) (total : Z)
| DAll (start : Z) (rows : list (Z * Dist * option (list Z))).

(** The sort key [(x[1], x[0])] of the all-distances report. *)
Definition row_le (a b : Z * Dist) : bool :=
  match a.2, b.2 with
  | Fin x, Fin y => bool_decide (x < y) || (bool_decide (x = y) && bool_decide (a.1 ≤ b.1))
  | Fin _, Inf => true
  | Inf, Fin _ => false
  | Inf, Inf => bool_decide (a.1 ≤ b.1)
  end.

(** One line of the all-distances report: [dist_str] is formatted first,
    then the path is rebuilt. *)
Definition all_row (fuel : nat) (previous : list (Z * Z)) (start : Z) (item : Z * Dist)
  : outcome (Z * Dist * option (list Z)) :=
  let '(node_id, dist) := item in
  let! dist_str := format_dist dist in
  if bool_decide (dist ≠ Inf) && bool_decide (node_id ≠ start) then
    let! path := rebuild_path fuel previous start node_id [] in
    Ok (node_id, dist_str, Some (reverse path))
  else Ok (node_id, dist_str, None).

Fixpoint all_rows (fuel : nat) (previous : list (Z * Z)) (start : Z)
    (items : list (Z * Dist)) : outcome (list (Z * Dist * option (list Z))) :=
  match items with
  | [] => Ok []
  | item :: rest =>
      let! row := all_row fuel previous start item in
      let! rows := all_rows fuel previous start rest in
      Ok (row :: rows)
  end.

(** The table [distances] before the main loop. *)
Definition initial_distances (g : Graph) (start : Z) : list (Z * Dist) :=
  PyDict.set (foldl (λ d node, PyDict.set d node Inf) [] (node_ids g)) start (Fin 0).

Definition Dijkstra_body (fuel : nat) (start_node end_node : option Z) (g : Graph)
  : outcome DijkstraReport :=
  match nodes g with
  | [] => Ok DEmpty
  | (first, _) :: _ =>
      let start := pick_start first start_node in
      if has_node g start then
        let! st := dijkstra_loop fuel g
                     (mkDState (initial_distances g start) [] [(0, start)]) in
        let all_distances :=
          let! rows := all_rows fuel (previous st) start
                         (sorted_by row_le (distances st)) in
          Ok (DAll start rows) in
        match end_node with
        | Some e =>
            if has_node g e then
              let! de := lookup_or_raise (PyDict.get (distances st) e) e in
              match de with
              | Inf => Ok (DNoPath start e)
              | Fin total =>
                  let! path := rebuild_path fuel (previous st) start e [] in
                  if bool_decide (path = []) || bool_decide (last path ≠ Some start)
                  then Ok (DNoPath start e)
                  else
                    let! total_str := format_0f total in
                    Ok (DPath start e (reverse path) total_str)
              end
            else all_distances
        | None => all_distances
        end
      else Ok (DNoStart start)
  end.

Definition Dijkstra_run (fuel : nat) (start_node end_node : option Z)
  : analysis DijkstraReport :=
  reading (Dijkstra_body fuel start_node end_node).

(** ** Cycle enumeration: [algorithms/cycles/cycle_detection.py] *)

(** [min(cycle)] of a non-empty list, given its head and tail. *)
Definition list_min (a : Z) (rest : list Z) : Z := foldl Z.min a rest.

(** [cycle.index(min_val)] *)
Fixpoint index_of (v : Z) (l : list Z) : nat :=
  match l with
  | [] => O
  | a :: rest => if decide (a = v) then O else S (index_of v rest)
  end.

(** [_normalize_cycle]: rotate the list to begin at its least element. *)
Definition _normalize_cycle (cycle : list Z) : list Z :=
  match cycle with
  | [] => []
  | a :: rest =>
      let min_val := list_min a rest in
      let min_idx := index_of min_val cycle in
      drop min_idx cycle ++ take min_idx cycle
  end.

(** The nested function [dfs(current, path, parent)] of
    [_find_cycles_undirected_from_node]; the state is the closure variable
    [cycles]. There is one nested call per vertex of [path], within
    [limit]. *)
Fixpoint ucycle_dfs (limit : nat) (g : Graph) (start current : Z) (path : list Z)
    (parent : option Z) (cycles : list (list Z)) : outcome (list (list Z)) :=
  match limit with
  | O => Raise RecursionError
  | S limit' =>
      foldl (λ acc neighbor,
               let! cs := acc in
               if decide (parent = Some neighbor) then Ok cs
               else if bool_decide (neighbor = start) && bool_decide (3 ≤ length path)%nat then
                 match path !! 1%nat with
                 | Some second => if decide (second < current) then Ok (cs ++ [path]) else Ok cs
                 | None => Raise IndexError
                 end
               else if bool_decide (neighbor ∉ path) && bool_decide (neighbor > start) then
                 ucycle_dfs limit' g start neighbor (path ++ [neighbor]) (Some current) cs
               else Ok cs)
            (Ok cycles)
            (sorted (get_neighbors g current))
  end.

Definition _find_cycles_undirected_from_node (limit : nat) (g : Graph) (start : Z)
  : outcome (list (list Z)) :=
  ucycle_dfs limit g start start [start] None [].

(** The loop [for cycle in cycles_from_start] shared by [_detect_undirected]
    and [_detect_directed]: a cycle is appended, closed by its first vertex,
    unless the test on the normalised forms finds it already. *)
Definition record_cycle (acc : outcome (list (list Z))) (cycle : list Z)
  : outcome (list (list Z)) :=
  let! all_cycles := acc in
  let normalized := _normalize_cycle cycle in
  if existsb (λ existing, bool_decide (_normalize_cycle existing = normalized)) all_cycles
  then Ok all_cycles
  else
    match cycle with
    | first :: _ => Ok (all_cycles ++ [cycle ++ [first]])
    | [] => Raise IndexError
    end.

(** The loop [for start in sorted(self.graph.nodes.keys())], over a search
    [find] for the cycles of one start vertex. *)
Definition detect_with (find : Z → outcome (list (list Z))) (g : Graph)
  : outcome (list (list Z)) :=
  foldl (λ acc start,
           let! all_cycles := acc in
           let! cycles_from_start := find start in
           foldl record_cycle (Ok all_cycles) cycles_from_start)
        (Ok []) (sorted (node_ids g)).

Definition _detect_undirected (limit : nat) (g : Graph) : outcome (list (list Z)) :=
  detect_with (_find_cycles_undirected_from_node limit g) g.

(** The state of [_find_cycles_from_node]: the closure variables [cycles],
    [blocked] and [block_map]. *)
Record JState : Type := mkJState {
  cycles : list (list Z);
  blocked : gset Z;
  block_map : list (Z * gset Z)
}.

(** The nested function [unblock]. The snapshot [list(block_map[node])] is
    walked in the order of [elements]; Python leaves the iteration order of
    a set unspecified. The function calls itself, within [limit]. *)
Fixpoint unblock (limit : nat) (node : Z) (st : JState) : outcome JState :=
  match limit with
  | O => Raise RecursionError
  | S limit' =>
      let st0 := mkJState (cycles st) (blocked st ∖ {[node]}) (block_map st) in
      let! snapshot := lookup_or_raise (PyDict.get (block_map st0) node) node in
      foldl (λ acc w,
               let! s := acc in
               let! ws := lookup_or_raise (PyDict.get (block_map s) node) node in
               let s' := mkJState (cycles s) (blocked s)
                                  (PyDict.set (block_map s) node (ws ∖ {[w]})) in
               if decide (w ∈ blocked s') then unblock limit' w s' else Ok s')
            (Ok st0) (elements snapshot)
  end.

(** [block_map[neighbor].add(current)] for every neighbor of [current]. *)
Definition block_on (g : Graph) (current : Z) (st : JState) : outcome JState :=
  foldl (λ acc neighbor,
           let! s := acc in
           let! ws := lookup_or_raise (PyDict.get (block_map s) neighbor) neighbor in
           Ok (mkJState (cycles s) (blocked s)
                        (PyDict.set (block_map s) neighbor ({[current]} ∪ ws))))
        (Ok st) (get_neighbors g current).

(** The nested function [dfs(current, path)] of [_find_cycles_from_node]; it
    returns [found_cycle] together with the state. Its own calls and those
    of [unblock] nest within [limit]. *)
Fixpoint dcycle_dfs (limit : nat) (g : Graph) (start current : Z) (path : list Z)
    (st : JState) : outcome (bool * JState) :=
  match limit with
  | O => Raise RecursionError
  | S limit' =>
      let st0 := mkJState (cycles st) ({[current]} ∪ blocked st) (block_map st) in
      let! (found_cycle, st1) :=
        foldl (λ acc neighbor,
                 let! (found, s) := acc in
                 if decide (neighbor = start) then
                   Ok (true, mkJState (cycles s ++ [path]) (blocked s) (block_map s))
                 else if bool_decide (neighbor ∉ blocked s) && bool_decide (neighbor > start) then
                   let! (sub, s') := dcycle_dfs limit' g start neighbor (path ++ [neighbor]) s in
                   Ok (if sub then true else found, s')
                 else Ok (found, s))
              (Ok (false, st0)) (get_neighbors g current) in
      if found_cycle then
        let! st2 := unblock limit' current st1 in Ok (true, st2)
      else
        let! st2 := block_on g current st1 in Ok (false, st2)
  end.

Definition _find_cycles_from_node (limit : nat) (g : Graph) (start : Z)
  : outcome (list (list Z)) :=
  let block_map0 := foldl (λ d node, PyDict.set d node (∅ : gset Z)) [] (node_ids g) in
  let! (_, st) := dcycle_dfs limit g start start [start] (mkJState [] ∅ block_map0) in
  Ok (cycles st).

Definition _detect_directed (limit : nat) (g : Graph) : outcome (list (list Z)) :=
  detect_with (_find_cycles_from_node limit g) g.

Inductive CyclesReport : Type :=
| CyEmpty                                  (* "Graphe vide" *)
| CyFound (all_cycles : list (list Z))     (* "... CYCLE(S) DÉTECTÉ(S)" and the list *)
| CyDAG                                    (* acyclic, directed *)
| CyTree                                   (* acyclic, undirected, E = V - 1 *)
| CyForest                                 (* acyclic, undirected, E < V - 1 *)
| CyAcyclic.                               (* acyclic, undirected, neither *)

(** [_format_cycles_result] *)
Definition _format_cycles_result (g : Graph) (all_cycles : list (list Z))
    (is_directed : bool) : CyclesReport :=
  match all_cycles with
  | _ :: _ => CyFound all_cycles
  | [] =>
      let num_nodes := Z.of_nat (length (nodes g)) in
      let num_edges := Z.of_nat (length (edges g)) in
      if is_directed then CyDAG
      else if decide (num_edges = num_nodes - 1) then CyTree
      else if decide (num_edges < num_nodes - 1) then CyForest
      else CyAcyclic
  end.

Definition CycleDetection_body (limit : nat) (start_node : option Z) (g : Graph)
  : outcome CyclesReport :=
  match nodes g with
  | [] => Ok CyEmpty
  | _ :: _ =>
      if directed g then
        let! all_cycles := _detect_directed limit g in
        Ok (_format_cycles_result g all_cycles true)
      else
        let! all_cycles := _detect_undirected limit g in
        Ok (_format_cycles_result g all_cycles false)
  end.

Definition CycleDetection_run (limit : nat) (start_node : option Z)
  : analysis CyclesReport :=
  reading (CycleDetection_body limit start_node).

(** ** Eulerian analysis: [algorithms/cycles/eulerian.py] *)

(** [d[k] += 1] on a [defaultdict(int)] *)
Definition incr (d : list (Z * Z)) (k : Z) : list (Z * Z) :=
  PyDict.set d k (default 0 (PyDict.get d k) + 1).

(** [_compute_degrees], undirected branch. *)
Definition compute_degrees_undirected (g : Graph) : list (Z * Z) :=
  foldl (λ degrees e, incr (incr degrees (Edge.source e)) (Edge.target e)) [] (edges g).

(** [_compute_degrees], directed branch: the pairs [(in_deg, out_deg)]. The
    source walks [set(self.graph.nodes.keys())]; every later use goes through
    [sorted(degrees.keys())] or a lookup, so the keys are taken in dict order. *)
Definition compute_degrees_directed (g : Graph) : list (Z * (Z * Z)) :=
  let out_deg := foldl (λ d e, incr d (Edge.source e)) [] (edges g) in
  let in_deg := foldl (λ d e, incr d (Edge.target e)) [] (edges g) in
  foldl (λ degrees node,
           PyDict.set degrees node
             (default 0 (PyDict.get in_deg node), default 0 (PyDict.get out_deg node)))
        [] (node_ids g).

(** [edges_left[k].append(v)] on a [defaultdict(list)] *)
Definition push_left (d : list (Z * list Z)) (k v : Z) : list (Z * list Z) :=
  PyDict.set d k (default [] (PyDict.get d k) ++ [v]).

(** The copy [edges_left] of the adjacency that the walk consumes. *)
Definition initial_edges_left (g : Graph) : list (Z * list Z) :=
  foldl (λ d e,
           let d1 := push_left d (Edge.source e) (Edge.target e) in
           if directed g then d1 else push_left d1 (Edge.target e) (Edge.source e))
        [] (edges g).

(** [while stack: ...] of [_find_eulerian_circuit]; [stack] and [circuit]
    grow and shrink at their right end as Python lists do. *)
Fixpoint hierholzer (fuel : nat) (is_directed : bool) (edges_left : list (Z * list Z))
    (stack : list Z) (current : Z) (circuit : list Z) : outcome (list Z) :=
  match stack with
  | [] => Ok circuit
  | _ :: _ =>
      match fuel with
      | O => OutOfFuel
      | S fuel' =>
          match pop_last (default [] (PyDict.get edges_left current)) with
          | Some (next_node, remaining) =>
              let left1 := PyDict.set edges_left current remaining in
              let back := default [] (PyDict.get left1 next_node) in
              let left2 :=
                if negb is_directed && bool_decide (current ∈ back)
                then PyDict.set left1 next_node (remove_first current back)
                else left1 in
              hierholzer fuel' is_directed left2 (stack ++ [next_node]) next_node circuit
          | None =>
              match pop_last stack with
              | Some (top, stack') =>
                  hierholzer fuel' is_directed edges_left stack' top (circuit ++ [current])
              | None => Raise IndexError
              end
          end
      end
  end.

(** [_find_eulerian_circuit] *)
Definition _find_eulerian_circuit (fuel : nat) (g : Graph) (start : Z) : outcome (list Z) :=
  let! circuit := hierholzer fuel (directed g) (initial_edges_left g) [start] start [] in
  let circuit := reverse circuit in
  Ok (if decide (1 < length circuit)%nat then circuit else []).

(** [_find_eulerian_path] *)
Definition _find_eulerian_path (fuel : nat) (g : Graph) (start end_ : Z)
  : outcome (list Z) :=
  _find_eulerian_circuit fuel g start.

Inductive EulerReport : Type :=
| EEmpty                                   (* "Graphe vide" *)
| ENoEdges                                 (* "Aucune arête dans le graphe" *)
| ECircuit (circuit : list Z)              (* "CIRCUIT EULÉRIEN EXISTE", the walk if found *)
| EPath (ends : list Z) (path : list Z)    (* "CHEMIN EULÉRIEN EXISTE" *)
| ENeither (unbalanced : list Z).          (* "NI CIRCUIT NI CHEMIN EULÉRIEN" *)

(** [odd_degree_nodes] *)
Definition odd_degree_nodes (degrees : list (Z * Z)) : list Z :=
  (filter (λ item : Z * Z, item.2 `mod` 2 = 1) degrees).*1.

(** [_analyze_undirected]; [first] is [next(iter(self.graph.nodes))]. *)
Definition _analyze_undirected (fuel : nat) (g : Graph) (first : Z)
    (degrees : list (Z * Z)) : outcome EulerReport :=
  let odd := odd_degree_nodes degrees in
  match odd with
  | [] =>
      let! circuit := _find_eulerian_circuit fuel g first in
      Ok (ECircuit circuit)
  | [a; b] =>
      let! path := _find_eulerian_path fuel g a b in
      Ok (EPath odd path)
  | _ => Ok (ENeither odd)
  end.

(** [_analyze_directed] *)
Definition _analyze_directed (fuel : nat) (g : Graph) (first : Z)
    (degrees : list (Z * (Z * Z))) : outcome EulerReport :=
  let diffs :=
    (λ node_id, (node_id,
                 match PyDict.get degrees node_id with
                 | Some (in_deg, out_deg) => out_deg - in_deg
                 | None => 0
                 end)) <$> sorted (PyDict.keys degrees) in
  let start_candidates := (filter (λ item : Z * Z, item.2 = 1) diffs).*1 in
  let end_candidates := (filter (λ item : Z * Z, item.2 = -1) diffs).*1 in
  let other_unbalanced :=
    (filter (λ item : Z * Z, item.2 ≠ 0 ∧ item.2 ≠ 1 ∧ item.2 ≠ -1) diffs).*1 in
  match start_candidates, end_candidates, other_unbalanced with
  | [], [], [] =>
      let! circuit := _find_eulerian_circuit fuel g first in
      Ok (ECircuit circuit)
  | [start], [end_], [] =>
      let! path := _find_eulerian_circuit fuel g start in
      Ok (EPath [start; end_] path)
  | _, _, _ => Ok (ENeither (start_candidates ++ end_candidates ++ other_unbalanced))
  end.

(** [EulerianModule.run] on a graph that has a vertex; [first] is the
    vertex that [next(iter(self.graph.nodes))] yields, the start of the
    circuit construction. *)
Definition Eulerian_from (fuel : nat) (g : Graph) (first : Z) : outcome EulerReport :=
  match edges g with
  | [] => Ok ENoEdges
  | _ :: _ =>
      if directed g then _analyze_directed fuel g first (compute_degrees_directed g)
      else _analyze_undirected fuel g first (compute_degrees_undirected g)
  end.

(** [EulerianModule.run]; [start_node] is accepted and ignored. *)
Definition Eulerian_body (fuel : nat) (start_node : option Z) (g : Graph)
  : outcome EulerReport :=
  match nodes g with
  | [] => Ok EEmpty
  | (first, _) :: _ => Eulerian_from fuel g first
  end.

Definition Eulerian_run (fuel : nat) (start_node : option Z) : analysis EulerReport :=
  reading (Eulerian_body fuel start_node).

(** ** Graphs that the model's own operations can build *)

Inductive constructed : Graph → Prop :=
| constructed_init d : constructed (Graph_init d)
| constructed_add_node g x y label :
    constructed g → constructed (add_node g x y label).1
| constructed_add_edge g source target weight :
    constructed g → constructed (add_edge g source target weight)
| constructed_remove_node g node_id :
    constructed g → constructed (remove_node g node_id)
| constructed_remove_edge g source target :
    constructed g → constructed (remove_edge g source target)
| constructed_clear g :
    constructed g → constructed (clear g).

(** The graph with the vertices [0 .. n-1] and the edges
    [(source, target, weight)] of [es], added in this order. *)
Definition sample_graph (d : bool) (n : nat) (es : list (Z * Z * Z)) : Graph :=
  foldl (λ g e, add_edge g e.1.1 e.1.2 e.2)
        (Nat.iter n (λ g, (add_node g 0 0 "").1) (Graph_init d)) es.

(** [v] is reached from [u] by following neighbor lookups. *)
Definition reachable (g : Graph) : relation Z :=
  rtc (λ u v, v ∈ get_neighbors g u).

(** The endpoints of the stored edges: all that a search can meet besides
    its start vertex. *)
Definition endpoints (g : Graph) : list Z :=
  flat_map (λ e, [Edge.source e; Edge.target e]) (edges g).

(** Fuel that is enough for the loop of a breadth-first traversal of [g]. *)
Definition traversal_fuel (g : Graph) : nat := S (length (endpoints g)).

(** The number of distinct vertex ids of [g]: the keys of the vertex map
    and the ids that occur as edge endpoints. A depth-first search never
    nests deeper than this. *)
Definition vertex_count (g : Graph) : nat :=
  length (remove_dups (node_ids g ++ endpoints g)).

(** The run [a] under some recursion limit against the run [b] of the same
    call under a limit that is large enough: [a] is [b], unless it failed
    on its limit. *)
Definition within_limit {A : Type} (a b : outcome A) : Prop :=
  a = Raise RecursionError ∨ a = b.

(** A traversal report that lists every vertex reachable from [start]
    exactly once and counts as many visited vertices. *)
Definition visits_reachable_once (g : Graph) (start : Z) (r : outcome TraversalReport)
  : Prop :=
  ∃ order,
    r = Ok (TVisit start order (length order) (length (nodes g)))
    ∧ NoDup order
    ∧ (∀ v, v ∈ order ↔ reachable g start v)
    ∧ (∀ l, NoDup l → (∀ v, v ∈ l ↔ reachable g start v) → length order = length l).


(** Two vertex maps that differ at most in the colors of their vertices. *)
Definition same_but_color (a b : Z * Node.t) : Prop :=
  a.1 = b.1 ∧ Node.id a.2 = Node.id b.2 ∧ Node.x a.2 = Node.x b.2
  ∧ Node.y a.2 = Node.y b.2 ∧ Node.label a.2 = Node.label b.2.

(** Two graphs that differ at most in the colors of their vertices. *)
Definition same_but_colors (g g' : Graph) : Prop :=
  Forall2 same_but_color (nodes g) (nodes g')
  ∧ edges g' = edges g ∧ directed g' = directed g ∧ next_id g' = next_id g.

(** The degree of a vertex in an undirected graph: the number of edge ends
    at the vertex, so that parallel edges count each and a loop counts twice. *)
Definition degree (g : Graph) (v : Z) : nat :=
  length (filter (λ e, Edge.source e = v) (edges g))
  + length (filter (λ e, Edge.target e = v) (edges g)).

(** The vertices of odd degree. *)
Definition odd_vertices (g : Graph) : list Z :=
  filter (λ v, Nat.odd (degree g v)) (node_ids g).

(** Fuel that is enough for the Eulerian analysis of [g]. *)
Definition eulerian_fuel (g : Graph) : nat := S (4 * length (edges g)).

(** No stored edge has a negative weight. *)
Definition weights_nonnegative (g : Graph) : Prop :=
  Forall (λ e, 0 ≤ Edge.weight e) (edges g).

(** The parts of the data-model invariant that the theorems rely on. *)
Definition ids_ascending (g : Graph) : Prop := StronglySorted Z.lt (node_ids g).

Definition ids_below_counter (g : Graph) : Prop :=
  Forall (λ k, k < next_id g) (node_ids g).

Definition edges_closed (g : Graph) : Prop :=
  Forall (λ e, Edge.source e ∈ node_ids g ∧ Edge.target e ∈ node_ids g) (edges g).

(** The least vertex id of the graph, [None] when it has no vertex. *)
Definition lowest_node (g : Graph) : option Z :=
  match node_ids g with
  | [] => None
  | a :: rest => Some (list_min a rest)
  end.

(** What a caller can observe of a graph through neighbor lookup and the
    number of edges. *)
Definition behaviorally_equivalent (g1 g2 : Graph) : Prop :=
  (∀ v, get_neighbors g1 v = get_neighbors g2 v)
  ∧ length (edges g1) = length (edges g2).

(** ** Notions used in the proofs *)

(** The universe of a search from [start]: all it can ever meet. *)
Definition search_universe (g : Graph) (start : Z) : list Z := start :: endpoints g.

(** The loop invariant of BFS. *)
Record bfs_inv (g : Graph) (start : Z) (visited : gset Z) (queue order : list Z)
  : Prop := {
  bfs_nodup : NoDup (order ++ queue);
  bfs_visited : ∀ v, v ∈ visited ↔ v ∈ order ++ queue;
  bfs_start : start ∈ order ++ queue;
  bfs_reach : ∀ v, v ∈ order ++ queue → reachable g start v;
  bfs_closed : ∀ u v, u ∈ order → v ∈ get_neighbors g u → v ∈ visited;
  bfs_universe : ∀ v, v ∈ order ++ queue → v ∈ search_universe g start
}.

(** The body of the [for neighbor in ...] loop of [dfs]. *)
Definition dfs_step (g : Graph) (limit : nat) (acc : outcome (gset Z * list Z))
    (neighbor : Z) : outcome (gset Z * list Z) :=
  let! st' := acc in
  if decide (neighbor ∈ st'.1) then Ok st' else dfs limit g neighbor st'.

(** What a search from the vertices [roots], started with [visited] and
    [order], has added when it returns [res]. *)
Definition dfs_post (g : Graph) (roots : list Z) (visited : gset Z) (order : list Z)
    (res : gset Z * list Z) : Prop :=
  ∃ new,
    res = (visited ∪ list_to_set new, order ++ new)
    ∧ NoDup new
    ∧ (∀ v, v ∈ new → v ∉ visited)
    ∧ (∀ v, v ∈ new → ∃ r, r ∈ roots ∧ reachable g r v)
    ∧ (∀ u v, u ∈ new → v ∈ get_neighbors g u → v ∈ visited ∪ list_to_set new)
    ∧ (∀ r, r ∈ roots → r ∈ visited ∪ list_to_set new).

(** The vertices of the universe that are not yet visited bound the depth
    of the recursion of [dfs]. *)
Definition unvisited (g : Graph) (start : Z) (visited : gset Z) : nat :=
  size ((list_to_set (search_universe g start) : gset Z) ∖ visited).

(** The number of ends that the edges [es] have at [v]. *)
Definition ends_at (es : list Edge.t) (v : Z) : nat :=
  length (filter (λ e, Edge.source e = v) es)
  + length (filter (λ e, Edge.target e = v) es).

(** [d[v]] of a [defaultdict(int)] *)
Definition count_of (d : list (Z * Z)) (v : Z) : Z := default 0 (PyDict.get d v).

(** The number of adjacency entries that are left to consume. *)
Fixpoint total_left (left : list (Z * list Z)) : nat :=
  match left with
  | [] => 0
  | (_, l) :: rest => length l + total_left rest
  end.


(** The sum of the finite distances. *)
Fixpoint total_dist (d : list (Z * Dist)) : nat :=
  match d with
  | [] => 0
  | (_, Inf) :: rest => total_dist rest
  | (_, Fin x) :: rest => Z.to_nat x + total_dist rest
  end.

(** [distances[v]] is the integer [x]. *)
Definition fin_dist (d : list (Z * Dist)) (v x : Z) : Prop :=
  PyDict.get d v = Some (Fin x).






(** [components'] is [components] followed by new vertices, all in [comp_id]. *)
Definition cc_extends (comp_id : Z) (components components' : list (Z * Z)) : Prop :=
  ∃ new, components' = components ++ ((λ v, (v, comp_id)) <$> new).


(** The edge [e] can be followed from [u] to [v]. *)
Definition joins (g : Graph) (e : Edge.t) (u v : Z) : Prop :=
  (Edge.source e = u ∧ Edge.target e = v)
  ∨ (directed g = false ∧ Edge.source e = v ∧ Edge.target e = u).

(** [walk g start v w]: a path of stored edges leads from [start] to [v] and
    has the total weight [w]. *)
Inductive walk (g : Graph) (start : Z) : Z → Z → Prop :=
| walk_here : walk g start start 0
| walk_edge u v e w :
    walk g start u w → e ∈ edges g → joins g e u v →
    walk g start v (w + Edge.weight e).

(** [d] is the least total weight of a path from [start] to [v]. *)
Definition shortest_distance (g : Graph) (start v d : Z) : Prop :=
  walk g start v d ∧ ∀ d', walk g start v d' → d ≤ d'.





(** ** Notions used for the default labels *)

(** The value of a label read as a bijective base-26 numeral, most
    significant letter first, on top of [acc]. *)
Fixpoint letters_value (s : string) (acc : Z) : Z :=
  match s with
  | EmptyString => acc
  | String c rest => letters_value rest (acc * 26 + (Z.of_nat (nat_of_ascii c) - 64))
  end.

(** Every character of [s] is one of the capital letters A to Z. *)
Fixpoint capital_letters (s : string) : Prop :=
  match s with
  | EmptyString => True
  | String c rest => (65 ≤ nat_of_ascii c ≤ 90)%nat ∧ capital_letters rest
  end.

(** ** The adjacency matrix: [Graph.get_adjacency_matrix] *)

(** The position that the index [i] denotes in a Python list of length
    [n]; a negative index counts from the end, and [None] stands for
    [IndexError]. *)
Definition py_index (n : nat) (i : Z) : option nat :=
  if decide (0 ≤ i < Z.of_nat n) then Some (Z.to_nat i)
  else if decide (- Z.of_nat n ≤ i < 0) then Some (Z.to_nat (Z.of_nat n + i))
  else None.

(** [matrix[i][j] = v] *)
Definition matrix_set (matrix : list (list Dist)) (i j : Z) (v : Dist)
  : outcome (list (list Dist)) :=
  match py_index (length matrix) i with
  | Some r =>
      match matrix !! r with
      | Some row =>
          match py_index (length row) j with
          | Some c => Ok (<[r := <[c := v]> row]> matrix)
          | None => Raise IndexError
          end
      | None => Raise IndexError
      end
  | None => Raise IndexError
  end.

(** The body of [for edge in self.edges] in [get_adjacency_matrix]. *)
Definition adjacency_step (directed : bool) (acc : outcome (list (list Dist)))
    (edge : Edge.t) : outcome (list (list Dist)) :=
  let! matrix := acc in
  let! matrix1 := matrix_set matrix (Edge.source edge) (Edge.target edge)
                    (Fin (Edge.weight edge)) in
  if directed then Ok matrix1
  else matrix_set matrix1 (Edge.target edge) (Edge.source edge) (Fin (Edge.weight edge)).

(** [Graph.get_adjacency_matrix]: rows and columns are addressed by vertex
    id, in a matrix that has as many rows as the graph has vertices. *)
Definition get_adjacency_matrix (g : Graph) : outcome (list (list Dist)) :=
  let n := length (nodes g) in
  let matrix := replicate n (replicate n Inf) in
  let! matrix := foldl (λ acc i, let! m := acc in matrix_set m i i (Fin 0))
                       (Ok matrix) (seqZ 0 (Z.of_nat n)) in
  foldl (adjacency_step (directed g)) (Ok matrix) (edges g).

(** The entry of the adjacency matrix for the vertex pair [(i, j)]: the
    weight of the last stored edge that joins the two, and without such an
    edge 0 on the diagonal and infinity elsewhere. *)
Definition matrix_entry (g : Graph) (i j : Z) : Dist :=
  match last (filter (λ e, edge_matches (directed g) i j e = true) (edges g)) with
  | Some e => Fin (Edge.weight e)
  | None => if decide (i = j) then Fin 0 else Inf
  end.

(** [matrix[a][b]] read at positions. *)
Definition cell (matrix : list (list Dist)) (a b : nat) : option Dist :=
  matrix !! a ≫= (.!! b).

(** A matrix of [n] rows and [n] columns. *)
Definition square (n : nat) (matrix : list (list Dist)) : Prop :=
  length matrix = n ∧ Forall (λ row, length row = n) matrix.

(** ** Notions used for the reported shortest path *)

(** The lines of the all-distances report printed from the lines [rows]
    that hold the distances of the table: every distance goes through
    [format_dist], and the first that is too large for a float fails the
    report. *)
Fixpoint print_rows (rows : list (Z * Dist * option (list Z)))
  : outcome (list (Z * Dist * option (list Z))) :=
  match rows with
  | [] => Ok []
  | (node_id, dist, path) :: rest =>
      let! dist_str := format_dist dist in
      let! printed := print_rows rest in
      Ok ((node_id, dist_str, path) :: printed)
  end.





(** [u] comes before [v] on the way back to the start vertex. *)
Definition below (t : Z → nat) (d : list (Z * Dist)) (u v : Z) : Prop :=
  ∃ x y, fin_dist d v x ∧ fin_dist d u y ∧ (y < x ∨ (y = x ∧ (t u < t v)%nat)).

(** ** Notions used for cycles *)

(** [l] reads the cyclic sequence [c] from another starting point. *)
Definition rotation_of (l c : list Z) : Prop :=
  ∃ a b, c = a ++ b ∧ l = b ++ a.

(** ** Saving and loading: [graphlabs/utils/file_handler.py]

    [save_graph] builds a dictionary [data] and hands it to [json.dump];
    [load_graph] rebuilds a graph from what [json.load] returns. The
    document is kept here as the typed content of that dictionary: a key
    that [load_graph] reads with [.get(key, default)] or with [[key]] is a
    field that may be absent. Writing the document to a file and reading it
    back is taken to give the same document. *)

Module FileHandler.
Record NodeData : Type := mkNodeData {
  nd_id : option Z;
  nd_x : option Z;
  nd_y : option Z;
  nd_label : option string;
  nd_color : option string
}.

Record EdgeData : Type := mkEdgeData {
  ed_source : option Z;
  ed_target : option Z;
  ed_weight : option Z;
  ed_directed : option bool;
  ed_color : option string
}.

Record GraphData : Type := mkGraphData {
  gd_directed : option bool;
  gd_next_id : option Z;
  gd_nodes : option (list NodeData);
  gd_edges : option (list EdgeData)
}.

(** The dictionary that [save_graph] writes for one vertex, and for one
    edge. *)
Definition node_data (node : Node.t) : NodeData :=
  mkNodeData (Some (Node.id node)) (Some (Node.x node)) (Some (Node.y node))
             (Some (Node.label node)) (Some (Node.color node)).

Definition edge_data (edge : Edge.t) : EdgeData :=
  mkEdgeData (Some (Edge.source edge)) (Some (Edge.target edge))
             (Some (Edge.weight edge)) (Some (Edge.directed edge))
             (Some (Edge.color edge)).

(** The dictionary [data] of [save_graph]; the vertices are those of
    [graph.nodes.values()]. *)
Definition graph_data (graph : Graph) : GraphData :=
  mkGraphData
    (Some (directed graph))
    (Some (next_id graph))
    (Some (node_data <$> (nodes graph).*2))
    (Some (edge_data <$> edges graph)).

(** [Node(id=node_data["id"], ...)]; [None] when a key is missing, which
    raises [KeyError]. *)
Definition load_node (node_data : NodeData) : option Node.t :=
  id ← nd_id node_data;
  x ← nd_x node_data;
  y ← nd_y node_data;
  label ← nd_label node_data;
  Some (Node.new id x y label (default Node.default_color (nd_color node_data))).

(** [Edge(source=edge_data["source"], ...)] *)
Definition load_edge (directed : bool) (edge_data : EdgeData) : option Edge.t :=
  source ← ed_source edge_data;
  target ← ed_target edge_data;
  Some (Edge.mk source target
          (default 1 (ed_weight edge_data))
          (default directed (ed_directed edge_data))
          (default Edge.default_color (ed_color edge_data))).

(** The body of [load_graph] after [json.load]; [None] is the result of
    the [except] clause. *)
Definition graph_of_data (data : GraphData) : option Graph :=
  let directed := default false (gd_directed data) in
  let next_id := default 0 (gd_next_id data) in
  nodes ← foldl (λ acc node_data,
                   nodes ← acc;
                   node ← load_node node_data;
                   Some (PyDict.set nodes (Node.id node) node))
                (Some []) (default [] (gd_nodes data));
  edges ← foldl (λ acc edge_data,
                   edges ← acc;
                   edge ← load_edge directed edge_data;
                   Some (edges ++ [edge]))
                (Some []) (default [] (gd_edges data));
  Some (mkGraph nodes edges directed next_id).
End FileHandler.

(** Every vertex is stored under its own id and has a label. *)
Definition nodes_labelled (g : Graph) : Prop :=
  ∀ k n, (k, n) ∈ nodes g → Node.id n = k ∧ Node.label n ≠ "".

(** ** Generated graphs: [graphlabs/utils/graph_library.py]

    The generators whose positions are integers. [range(n)] is
    [seqZ 0 n], which is empty for [n <= 0]. *)

Module GraphLibrary.
(** [GraphLibrary.create_chain] *)
Definition create_chain (n : Z) : Graph :=
  let graph := Graph_init false in
  let graph :=
    foldl (λ graph i,
             let x := 100 + i * 100 in
             let y := 200 in
             (add_node graph x y "").1)
          graph (seqZ 0 n) in
  foldl (λ graph i, add_edge graph i (i + 1) 1) graph (seqZ 0 (n - 1)).

(** The local function [add_tree_nodes] of [create_binary_tree]; it works
    on the graph of the enclosing call, which is passed along here, and
    returns the id that it expects the next vertex to get. [fuel] bounds
    the depth of the recursion. *)
Fixpoint add_tree_nodes (fuel : nat) (graph : Graph)
    (node_id level pos_x width max_depth : Z) : outcome (Graph * Z) :=
  match fuel with
  | O => OutOfFuel
  | S fuel' =>
      if decide (level > max_depth) then Ok (graph, node_id)
      else
        let y := 80 + level * 80 in
        let x := pos_x in
        let current_id := node_id in
        let graph := (add_node graph x y "").1 in
        if decide (level < max_depth) then
          let! (graph, left_id) :=
            add_tree_nodes fuel' graph (node_id + 1) (level + 1)
              (pos_x - width `div` 2) (width `div` 2) max_depth in
          let graph := add_edge graph current_id (node_id + 1) 1 in
          let! (graph, right_id) :=
            add_tree_nodes fuel' graph left_id (level + 1)
              (pos_x + width `div` 2) (width `div` 2) max_depth in
          let graph := add_edge graph current_id left_id 1 in
          Ok (graph, right_id)
        else Ok (graph, node_id + 1)
  end.

(** [GraphLibrary.create_binary_tree] *)
Definition create_binary_tree (fuel : nat) (depth : Z) : outcome Graph :=
  let graph := Graph_init false in
  let! (graph, _) := add_tree_nodes fuel graph 0 0 300 200 depth in
  Ok graph.

(** The body of the first pair of loops of [create_grid]: the vertex of
    row [i] and column [j]. The state is [graph], [node_map] and
    [node_id]; [spacing = 80], [offset_x = 150] and [offset_y = 150]. *)
Definition place_cell (i : Z) (state : Graph * gmap (Z * Z) Z * Z) (j : Z)
  : Graph * gmap (Z * Z) Z * Z :=
  let '(graph, node_map, node_id) := state in
  let spacing := 80 in
  let offset_x := 150 in
  let offset_y := 150 in
  let x := offset_x + j * spacing in
  let y := offset_y + i * spacing in
  ((add_node graph x y "").1, <[(i, j) := node_id]> node_map, node_id + 1).

(** The body of the second pair of loops: the edges to the right and
    downwards. [None] is the [KeyError] of a [node_map] lookup. *)
Definition connect_cell (rows cols : Z) (node_map : gmap (Z * Z) Z) (i : Z)
    (state : option Graph) (j : Z) : option Graph :=
  graph ← state;
  current ← node_map !! (i, j);
  graph ← (if decide (j < cols - 1) then
             right ← node_map !! (i, j + 1);
             Some (add_edge graph current right 1)
           else Some graph);
  if decide (i < rows - 1) then
    below ← node_map !! (i + 1, j);
    Some (add_edge graph current below 1)
  else Some graph.

(** [GraphLibrary.create_grid] *)
Definition create_grid (rows cols : Z) : option Graph :=
  let graph := Graph_init false in
  let '(graph, node_map, _) :=
    foldl (λ state i, foldl (place_cell i) state (seqZ 0 cols))
          (graph, ∅, 0) (seqZ 0 rows) in
  foldl (λ state i, foldl (connect_cell rows cols node_map i) state (seqZ 0 cols))
        (Some graph) (seqZ 0 rows).
End GraphLibrary.

(** The vertex that [add_node(x, y)] stores when the id counter is [k],
    and the edge that [add_edge(u, v, 1)] stores in an undirected graph. *)
Definition default_node (k x y : Z) : Node.t :=
  Node.mk k x y (Node._int_to_letter k) Node.default_color.

Definition unit_edge (u v : Z) : Edge.t :=
  Edge.mk u v 1 false Edge.default_color.

(** No vertex was removed: the ids are [0 .. next_id - 1], in this order. *)
Definition ids_in_sequence (g : Graph) : Prop :=
  0 ≤ next_id g ∧ node_ids g = seqZ 0 (next_id g).

(** The edges that leave the cell of row [i] and column [j] of a grid,
    and the edges of the whole grid, row by row. *)
Definition cell_edges (rows cols i j : Z) : list Edge.t :=
  (if decide (j < cols - 1)
   then [unit_edge (i * cols + j) (i * cols + (j + 1))] else [])
  ++ (if decide (i < rows - 1)
      then [unit_edge (i * cols + j) ((i + 1) * cols + j)] else []).

Definition grid_edges (rows cols : Z) : list Edge.t :=
  seqZ 0 rows ≫= λ i, seqZ 0 cols ≫= cell_edges rows cols i.

(** The state of [create_grid] after the vertices of the rows before [r]
    and of the first [c] columns of row [r]. *)
Definition grid_placed (cols r c : Z) (state : Graph * gmap (Z * Z) Z * Z) : Prop :=
  let '(graph, node_map, node_id) := state in
  node_id = r * cols + c
  ∧ ids_in_sequence graph ∧ next_id graph = node_id
  ∧ edges graph = [] ∧ directed graph = false
  ∧ ∀ i j, 0 ≤ j < cols → 0 ≤ i < r ∨ (i = r ∧ j < c) →
           node_map !! (i, j) = Some (i * cols + j)
           ∧ PyDict.get (nodes graph) (i * cols + j)
             = Some (default_node (i * cols + j) (150 + j * 80) (150 + i * 80)).

(** ** Notions used for the component report *)





(** The body of the [for neighbor in ...] loop of the undirected cycle
    search. *)
Definition ucycle_step (g : Graph) (limit : nat) (start current : Z) (path : list Z)
    (parent : option Z) (acc : outcome (list (list Z))) (neighbor : Z)
  : outcome (list (list Z)) :=
  let! cs := acc in
  if decide (parent = Some neighbor) then Ok cs
  else if bool_decide (neighbor = start) && bool_decide (3 ≤ length path)%nat then
    match path !! 1%nat with
    | Some second => if decide (second < current) then Ok (cs ++ [path]) else Ok cs
    | None => Raise IndexError
    end
  else if bool_decide (neighbor ∉ path) && bool_decide (neighbor > start) then
    ucycle_dfs limit g start neighbor (path ++ [neighbor]) (Some current) cs
  else Ok cs.


(** ** Notions used for the directed Eulerian analysis *)

(** The number of stored edges that leave [v], and that enter [v]. *)
Definition out_degree (g : Graph) (v : Z) : nat :=
  length (filter (λ e, Edge.source e = v) (edges g)).

Definition in_degree (g : Graph) (v : Z) : nat :=
  length (filter (λ e, Edge.target e = v) (edges g)).

(** Out-degree minus in-degree. *)
Definition balance (g : Graph) (v : Z) : Z :=
  Z.of_nat (out_degree g v) - Z.of_nat (in_degree g v).

(** The vertices of the graph with the balance [b]. *)
Definition vertices_with_balance (g : Graph) (b : Z) : list Z :=
  filter (λ v, balance g v = b) (node_ids g).

(** The vertices of the graph whose balance is none of 0, 1 and -1. *)
Definition far_from_balance (g : Graph) : list Z :=
  filter (λ v, balance g v ≠ 0 ∧ balance g v ≠ 1 ∧ balance g v ≠ -1) (node_ids g).

(** ** Notions used for the order of the breadth-first traversal *)

(** [hops g start n v]: following neighbor lists, [n] steps lead from
    [start] to [v]. *)
Inductive hops (g : Graph) (start : Z) : nat → Z → Prop :=
| hops_here : hops g start 0 start
| hops_step n u v : hops g start n u → v ∈ get_neighbors g u → hops g start (S n) v.

(** [n] is the least number of steps that lead from [start] to [v]. *)
Definition distance (g : Graph) (start v : Z) (n : nat) : Prop :=
  hops g start n v ∧ ∀ m, hops g start m v → (n ≤ m)%nat.

(** The invariant of BFS that orders the vertices by level. The ghost
    function [lvl] gives every vertex met so far its distance from the
    start vertex; the vertices are met in the order of their levels, the
    queue spans at most two levels, and every vertex of a level below the
    one of the head of the queue has been expanded. *)
Record bfs_levels (g : Graph) (start : Z) (lvl : Z → nat)
    (visited : gset Z) (queue order : list Z) : Prop := {
  lv_visited : ∀ v, v ∈ visited ↔ v ∈ order ++ queue;
  lv_head : head (order ++ queue) = Some start;
  lv_distance : ∀ v, v ∈ order ++ queue → distance g start v (lvl v);
  lv_sorted : StronglySorted (λ u v, (lvl u ≤ lvl v)%nat) (order ++ queue);
  lv_gap : ∀ q rest, queue = q :: rest →
           ∀ v, v ∈ order ++ queue → (lvl v ≤ S (lvl q))%nat;
  lv_complete : ∀ q rest, queue = q :: rest →
                ∀ w m, hops g start m w →
                       ((m < lvl q)%nat → w ∈ order)
                       ∧ ((m ≤ lvl q)%nat → w ∈ order ++ queue);
  lv_closed : ∀ u v, u ∈ order → v ∈ get_neighbors g u → v ∈ order ++ queue
}.

(** * Properties *)

(** ** Dictionaries *)

Section dict_facts.
Context {V : Type}.
Implicit Types (d : list (Z * V)) (k : Z) (v : V).

Lemma get_None d k : PyDict.get d k = None ↔ k ∉ PyDict.keys d.
Proof.
  unfold PyDict.keys. induction d as [|[k' v'] d IH]; simpl.
  - split; [intros _; apply not_elem_of_nil | done].
  - rewrite not_elem_of_cons. case_decide; [|rewrite IH]; intuition congruence.
Qed.

Lemma get_Some_elem d k v : PyDict.get d k = Some v → (k, v) ∈ d.
Proof.
  induction d as [|[k' v'] d IH]; simpl; [done|].
  case_decide; subst.
  - intros [= ->]. left.
  - intros. right. auto.
Qed.

Lemma get_is_Some d k : is_Some (PyDict.get d k) ↔ k ∈ PyDict.keys d.
Proof.
  rewrite <- not_eq_None_Some, get_None.
  split; [apply dec_stable | auto].
Qed.

Lemma mem_true d k : PyDict.mem d k = true ↔ k ∈ PyDict.keys d.
Proof.
  unfold PyDict.mem. destruct (PyDict.get d k) eqn:E.
  - split; [intros _; apply get_is_Some; rewrite E; eauto | done].
  - split; [done | intros [? H]%get_is_Some; congruence].
Qed.

Lemma mem_false d k : PyDict.mem d k = false ↔ k ∉ PyDict.keys d.
Proof. rewrite <- mem_true. destruct (PyDict.mem d k); naive_solver. Qed.

Lemma get_set_eq d k v : PyDict.get (PyDict.set d k v) k = Some v.
Proof.
  induction d as [|[k' v'] d IH]; simpl.
  - by rewrite decide_True.
  - case_decide; simpl; [by rewrite decide_True | by rewrite decide_False].
Qed.

Lemma get_set_ne d k k' v : k ≠ k' → PyDict.get (PyDict.set d k v) k' = PyDict.get d k'.
Proof.
  intros Hne. induction d as [|[k0 v0] d IH]; simpl.
  - by rewrite decide_False.
  - case_decide; simpl; subst.
    + by rewrite !decide_False.
    + by rewrite IH.
Qed.

Lemma keys_set_in d k v : k ∈ PyDict.keys d → PyDict.keys (PyDict.set d k v) = PyDict.keys d.
Proof.
  unfold PyDict.keys. induction d as [|[k' v'] d IH]; simpl.
  - by intros ?%elem_of_nil.
  - case_decide; subst; csimpl; [done|].
    intros [?|?]%elem_of_cons; [done|]. f_equal. by apply IH.
Qed.

Lemma keys_set_notin d k v :
  k ∉ PyDict.keys d → PyDict.set d k v = d ++ [(k, v)].
Proof.
  unfold PyDict.keys. induction d as [|[k' v'] d IH]; simpl; [done|].
  rewrite not_elem_of_cons. intros [? ?].
  rewrite decide_False by done. by rewrite IH.
Qed.

Lemma keys_set d k v :
  PyDict.keys (PyDict.set d k v)
  = if decide (k ∈ PyDict.keys d) then PyDict.keys d else PyDict.keys d ++ [k].
Proof.
  case_decide.
  - by apply keys_set_in.
  - rewrite keys_set_notin by done. unfold PyDict.keys. by rewrite fmap_app.
Qed.

Lemma elem_of_keys_set d k k' v :
  k' ∈ PyDict.keys (PyDict.set d k v) ↔ k' = k ∨ k' ∈ PyDict.keys d.
Proof.
  rewrite keys_set. case_decide.
  - naive_solver.
  - rewrite elem_of_app, list_elem_of_singleton. naive_solver.
Qed.

Lemma NoDup_keys_set d k v :
  NoDup (PyDict.keys d) → NoDup (PyDict.keys (PyDict.set d k v)).
Proof.
  intros Hnd. rewrite keys_set. case_decide; [done|].
  apply NoDup_app. split_and!; [done| |apply NoDup_singleton].
  intros x Hx ->%list_elem_of_singleton. done.
Qed.

Lemma del_app_fresh d k v : k ∉ PyDict.keys d → PyDict.del (d ++ [(k, v)]) k = d.
Proof.
  unfold PyDict.keys. induction d as [|[k' v'] d IH]; simpl.
  - by rewrite decide_True.
  - rewrite not_elem_of_cons. intros [? ?].
    rewrite decide_False by done. by rewrite IH.
Qed.

Lemma keys_del_sublist d k : PyDict.keys (PyDict.del d k) `sublist_of` PyDict.keys d.
Proof.
  unfold PyDict.keys. induction d as [|[k' v'] d IH]; simpl; [done|].
  case_decide; simpl.
  - by apply sublist_cons.
  - by apply sublist_skip.
Qed.
End dict_facts.

(** ** The graph model *)

Section graph_facts.
Implicit Types (g : Graph) (e : Edge.t).

Lemma has_node_true g v : has_node g v = true ↔ v ∈ node_ids g.
Proof. apply mem_true. Qed.

Lemma neighbors_of_app d v es1 es2 :
  neighbors_of d v (es1 ++ es2) = neighbors_of d v es1 ++ neighbors_of d v es2.
Proof.
  induction es1 as [|e es1 IH]; simpl; [done|].
  repeat case_match; simpl; by rewrite ?IH.
Qed.

(** A neighbor is the other endpoint of some edge. *)
Lemma elem_of_neighbors_of d v u es :
  u ∈ neighbors_of d v es ↔
  ∃ e, e ∈ es ∧ ((Edge.source e = v ∧ Edge.target e = u)
                 ∨ (d = false ∧ Edge.source e ≠ v ∧ Edge.target e = v ∧ Edge.source e = u)).
Proof.
  induction es as [|e es IH]; simpl.
  - split; [by intros ?%elem_of_nil | by intros (? & ?%elem_of_nil & _)].
  - pose (Q := λ e', (Edge.source e' = v ∧ Edge.target e' = u)
                 ∨ (d = false ∧ Edge.source e' ≠ v ∧ Edge.target e' = v
                    ∧ Edge.source e' = u)).
    match goal with |- _ ↔ ?R =>
      assert (R ↔ Q e ∨ ∃ e', e' ∈ es ∧ Q e') as -> end.
    { unfold Q. split.
      - intros (e' & [->|Hin]%elem_of_cons & HQ); eauto.
      - intros [HQ|(e' & Hin & HQ)]; [exists e | exists e']; rewrite elem_of_cons; eauto. }
    subst Q; cbv beta. rewrite <- IH. clear.
    case_decide; [|destruct d; simpl; [|case_bool_decide]];
      rewrite ?elem_of_cons; intuition (try congruence).
Qed.

Lemma filter_all {A} (P : A → Prop) `{∀ a, Decision (P a)} (l : list A) :
  Forall P l → filter P l = l.
Proof.
  induction 1 as [|a l Ha _ IH]; [done|].
  rewrite filter_cons, decide_True by done. by rewrite IH.
Qed.

(** What [remove_edge] keeps. *)
Lemma elem_of_edges_remove_edge g s t e :
  e ∈ edges (remove_edge g s t) ↔ e ∈ edges g ∧ ¬ (Edge.source e = s ∧ Edge.target e = t).
Proof. unfold remove_edge; simpl. rewrite list_elem_of_filter. tauto. Qed.

Lemma remove_add_edge g u v w :
  Forall (λ e, ¬ (Edge.source e = u ∧ Edge.target e = v)) (edges g) →
  remove_edge (add_edge g u v w) u v = g.
Proof.
  intros Hfresh. unfold add_edge, remove_edge.
  destruct (has_node g u && has_node g v); simpl.
  - rewrite filter_app, filter_all by done.
    rewrite filter_cons, decide_False by (simpl; tauto).
    rewrite filter_nil, app_nil_r. by destruct g.
  - rewrite filter_all by done. by destruct g.
Qed.

Lemma remove_add_node g x y label :
  ids_below_counter g → edges_closed g →
  remove_node (add_node g x y label).1 (add_node g x y label).2
  = mkGraph (nodes g) (edges g) (directed g) (next_id g + 1).
Proof.
  intros Hlt Hclosed.
  assert (next_id g ∉ node_ids g) as Hfresh.
  { intros Hin. unfold ids_below_counter in Hlt.
    rewrite Forall_forall in Hlt. apply Hlt in Hin. lia. }
  unfold add_node. cbn [fst snd]. unfold remove_node.
  rewrite (proj2 (has_node_true _ _)).
  2:{ unfold node_ids. cbn [nodes]. apply elem_of_keys_set. by left. }
  cbn [nodes edges directed next_id].
  rewrite keys_set_notin, del_app_fresh by done.
  f_equal. apply filter_all.
  eapply Forall_impl; [exact Hclosed|]. intros e [Hs Ht]; simpl.
  split; intros Heq; rewrite Heq in *; done.
Qed.

(** Every graph obtained from [Graph()] through the model's mutations
    satisfies the data-model invariant. *)
Lemma constructed_inv g :
  constructed g → ids_ascending g ∧ ids_below_counter g ∧ edges_closed g.
Proof.
  unfold ids_ascending, ids_below_counter, edges_closed, node_ids.
  induction 1 as [d|g x y l _ (Hs & Hlt & Hc)|g s t w _ (Hs & Hlt & Hc)
                 |g v _ (Hs & Hlt & Hc)|g s t _ (Hs & Hlt & Hc)|g _ _]; simpl.
  - split_and!; constructor.
  - assert (next_id g ∉ PyDict.keys (nodes g)) as Hfresh.
    { intros Hin. rewrite Forall_forall in Hlt. apply Hlt in Hin. lia. }
    rewrite keys_set, decide_False by done. split_and!.
    + apply StronglySorted_app_2; [|done|repeat constructor].
      intros a b Ha ->%list_elem_of_singleton.
      rewrite Forall_forall in Hlt. by apply Hlt.
    + apply Forall_app. split; [|repeat constructor; lia].
      eapply Forall_impl; [exact Hlt|]. simpl; intros; lia.
    + eapply Forall_impl; [exact Hc|]. simpl. intros e [? ?].
      rewrite !elem_of_app. auto.
  - unfold add_edge.
    destruct (has_node g s) eqn:Es, (has_node g t) eqn:Et; simpl; try done.
    split_and!; try done.
    apply Forall_app. split; [done|]. repeat constructor; simpl; by apply has_node_true.
  - unfold remove_node. destruct (has_node g v) eqn:Ev; simpl; [|done].
    pose proof (keys_del_sublist (nodes g) v) as Hsub. split_and!.
    + clear -Hs Hsub. revert Hs. induction Hsub as [|a l1 l2 Hsub IH|a l1 l2 Hsub IH];
        intros Hs; [done| |].
      * apply StronglySorted_inv in Hs as [? Hall]. constructor; [auto|].
        rewrite Forall_forall in Hall |- *. intros b Hb. apply Hall.
        eapply elem_of_sublist; eauto.
      * apply StronglySorted_inv in Hs as [? _]. auto.
    + rewrite Forall_forall in Hlt |- *. intros a Ha. apply Hlt.
      eapply elem_of_sublist; eauto.
    + rewrite Forall_forall in Hc |- *. intros e [[Hes Het] He]%list_elem_of_filter.
      destruct (Hc e He) as [Hse Hte].
      assert (∀ a, a ≠ v → a ∈ PyDict.keys (nodes g) → a ∈ PyDict.keys (PyDict.del (nodes g) v))
        as Hkeep; [|split; apply Hkeep; done].
      clear. unfold PyDict.keys. intros a Hne. induction (nodes g) as [|[k n] d IH]; simpl; [done|].
      rewrite elem_of_cons. intros [->|Hin].
      * rewrite decide_False by done. left.
      * case_decide; [done|]. right. auto.
  - split_and!; try done.
    rewrite Forall_forall in Hc |- *. intros e [_ He]%list_elem_of_filter. auto.
  - split_and!; constructor.
Qed.

Lemma list_min_le a rest : list_min a rest ≤ a ∧ Forall (λ b, list_min a rest ≤ b) rest.
Proof.
  unfold list_min. revert a. induction rest as [|b rest IH]; intros a; simpl.
  - split; [lia | constructor].
  - destruct (IH (a `min` b)) as [H1 H2]. split; [lia|].
    constructor; [lia | done].
Qed.

Lemma list_min_sorted a rest : Forall (Z.lt a) rest → list_min a rest = a.
Proof.
  unfold list_min. revert a. induction rest as [|b rest IH]; intros a Hall; simpl; [done|].
  apply Forall_cons in Hall as [Hb Hrest].
  replace (a `min` b) with a by lia. by apply IH.
Qed.

(** On a graph whose ids are kept in ascending order, the first key of
    the node dict is the least id. *)
Lemma first_is_lowest g :
  ids_ascending g → PyDict.first_key (nodes g) = lowest_node g.
Proof.
  unfold ids_ascending, lowest_node, PyDict.first_key.
  destruct (node_ids g) as [|a rest] eqn:E; unfold node_ids in E; rewrite E; [done|].
  intros [_ Hall]%StronglySorted_inv. simpl. by rewrite list_min_sorted.
Qed.
End graph_facts.

(** ** Mutations of the graph model *)

Lemma sample_graph_constructed d n es : constructed (sample_graph d n es).
Proof.
  unfold sample_graph.
  assert (constructed (Nat.iter n (λ g, (add_node g 0 0 "").1) (Graph_init d))) as H.
  { induction n as [|n IH]; simpl; [constructor|]. by constructor. }
  revert H. generalize (Nat.iter n (λ g, (add_node g 0 0 "").1) (Graph_init d)).
  induction es as [|e es IH]; intros g Hg; simpl; [done|].
  apply IH. by constructor.
Qed.

(** C7, at the input where the code departs from it: in the undirected
    graph with the vertices 0 and 1 and one edge stored as (1, 0),
    [remove_edge(0, 1)] removes nothing: the edge is still found by
    [get_edge(0, 1)] and 1 is still a neighbor of 0. *)
Theorem remove_edge_misses_reverse_orientation :
  let g := sample_graph false 2 [(1, 0, 1)] in
  directed g = false
  ∧ edges (remove_edge g 0 1) = edges g
  ∧ get_edge (remove_edge g 0 1) 0 1 = Some (Edge.mk 1 0 1 false Edge.default_color)
  ∧ get_neighbors (remove_edge g 0 1) 0 = [1].
Proof. vm_compute. done. Qed.

(** C8 as stated fails: when an edge from 0 to 1 is already stored, adding
    a second one and removing "it" removes both. *)
Lemma add_remove_edge_drops_parallel :
  let g := sample_graph false 2 [(0, 1, 1)] in
  has_node g 0 = true ∧ has_node g 1 = true
  ∧ ¬ behaviorally_equivalent (remove_edge (add_edge g 0 1 1) 0 1) g.
Proof.
  split_and!; [done..|]. intros [_ Hlen]. vm_compute in Hlen. done.
Qed.

(** C8, amended: on a graph that satisfies the data-model invariant (ids
    below the counter, edges between existing vertices),
    - for existing vertices [u], [v] with no edge stored from [u] to [v],
      [add_edge(u, v)] followed by [remove_edge(u, v)] gives back the same
      neighbor lists and the same number of edges;
    - [add_node] followed by [remove_node] of the new vertex gives back the
      same neighbor lists and number of edges (indeed the same vertex map
      and edge list); only the id counter has moved. *)
Theorem add_remove_roundtrip g :
  ids_below_counter g → edges_closed g →
  (∀ u v w,
     has_node g u = true → has_node g v = true →
     Forall (λ e, ¬ (Edge.source e = u ∧ Edge.target e = v)) (edges g) →
     behaviorally_equivalent (remove_edge (add_edge g u v w) u v) g)
  ∧ (∀ x y label,
       let g' := remove_node (add_node g x y label).1 (add_node g x y label).2 in
       behaviorally_equivalent g' g
       ∧ nodes g' = nodes g ∧ edges g' = edges g ∧ directed g' = directed g
       ∧ next_id g' = next_id g + 1).
Proof.
  intros Hlt Hclosed. split.
  - intros u v w _ _ Hfresh. rewrite remove_add_edge by done. by split.
  - intros x y label g'. subst g'. rewrite remove_add_node by done.
    unfold behaviorally_equivalent, get_neighbors. simpl. done.
Qed.

Lemma add_remove_roundtrip_witness :
  let g := sample_graph false 2 [(1, 0, 1)] in
  behaviorally_equivalent (remove_edge (add_edge g 0 1 7) 0 1) g
  ∧ behaviorally_equivalent
      (remove_node (add_node g 3 4 "").1 (add_node g 3 4 "").2) g.
Proof.
  intros g.
  assert (ids_below_counter g) as H1.
  { repeat constructor; vm_compute; done. }
  assert (edges_closed g) as H2.
  { repeat constructor; vm_compute; set_solver. }
  destruct (add_remove_roundtrip g H1 H2) as [Hedge Hnode].
  split.
  - apply Hedge; [done | done |].
    repeat constructor. vm_compute. intros [? ?]. done.
  - apply (Hnode 3 4 "").
Defined.

(** C9: in every graph built from [Graph()] by [add_node], [add_edge],
    [remove_node], [remove_edge] and [clear], the vertex map iterates in
    strictly ascending id order; hence its first key is the lowest id, and
    that is the start vertex BFS, DFS and Dijkstra take when none is given
    and the vertex the Eulerian analysis starts its circuit from. *)
Theorem vertex_ids_ascending g :
  constructed g →
  StronglySorted Z.lt (node_ids g)
  ∧ PyDict.first_key (nodes g) = lowest_node g
  ∧ ∀ fuel end_node start_node,
      BFS_run fuel None g = BFS_run fuel (lowest_node g) g
      ∧ DFS_run fuel None g = DFS_run fuel (lowest_node g) g
      ∧ Dijkstra_run fuel None end_node g = Dijkstra_run fuel (lowest_node g) end_node g
      ∧ ∀ m, lowest_node g = Some m →
             Eulerian_run fuel start_node g = reading (λ g, Eulerian_from fuel g m) g.
Proof.
  intros Hc. destruct (constructed_inv g Hc) as (Hs & _ & _).
  pose proof (first_is_lowest g Hs) as Hfirst.
  split_and!; [done..|].
  intros fuel end_node start_node.
  unfold BFS_run, DFS_run, Dijkstra_run, Eulerian_run, reading,
    BFS_body, DFS_body, Dijkstra_body, Eulerian_body.
  rewrite <- Hfirst. unfold PyDict.first_key, PyDict.keys.
  destruct (nodes g) as [|[first n] rest]; simpl; [by split_and!; [..|intros ? [=]]|].
  split_and!; try done. by intros m [= <-].
Qed.

Lemma vertex_ids_ascending_witness :
  let g := remove_node (sample_graph true 3 [(2, 1, 1)]) 0 in
  node_ids g = [1; 2] ∧ lowest_node g = Some 1
  ∧ BFS_run 5 None g = BFS_run 5 (Some 1) g.
Proof.
  intros g.
  assert (constructed g) as Hc.
  { apply constructed_remove_node, sample_graph_constructed. }
  destruct (vertex_ids_ascending g Hc) as (_ & _ & Hruns).
  split_and!; [done..|].
  apply (Hruns 5%nat None None).
Defined.
(** ** Runs under a recursion limit *)

Section limit_facts.
Context {A : Type}.
Implicit Types (a b c : outcome A).

Lemma within_limit_refl a : within_limit a a.
Proof. by right. Qed.

Lemma within_limit_trans a b c :
  within_limit a b → within_limit b c → within_limit a c.
Proof. intros [-> | ->]; [by left | done]. Qed.

Lemma within_limit_bind {B} a b (f f' : A → outcome B) :
  within_limit a b → (∀ x, within_limit (f x) (f' x)) →
  within_limit (obind a f) (obind b f').
Proof.
  intros [-> | ->] Hf; [by left|].
  destruct b; simpl; [apply Hf | by right | by right].
Qed.

Lemma within_limit_foldl {B} (f f' : outcome A → B → outcome A) (l : list B) :
  (∀ a a' x, within_limit a a' → within_limit (f a x) (f' a' x)) →
  ∀ a a', within_limit a a' → within_limit (foldl f a l) (foldl f' a' l).
Proof. intros Hf. induction l as [|x l IH]; simpl; eauto. Qed.

(** What holds of the run under a large limit holds of the run under any
    limit that does not fail. *)
Lemma within_limit_Ok a b x : within_limit a b → a = Ok x → b = Ok x.
Proof. intros [-> | ->]; [done | done]. Qed.
End limit_facts.

(** ** Traversals *)

(** On a graph whose edges join vertices of the graph, [vertex_count] is
    the number of vertices. *)
Lemma vertex_count_closed (g : Graph) :
  edges_closed g → NoDup (node_ids g) → vertex_count g = length (node_ids g).
Proof.
  intros Hclosed Hnd. unfold vertex_count. apply Permutation_length.
  apply NoDup_Permutation; [apply NoDup_remove_dups | done |].
  intros v. rewrite elem_of_remove_dups, elem_of_app. split; [|by left].
  intros [Hv | Hv]; [done|].
  unfold endpoints in Hv. apply list_elem_of_In, in_flat_map in Hv as (e & He & Hv).
  apply list_elem_of_In in He.
  unfold edges_closed in Hclosed. rewrite Forall_forall in Hclosed.
  destruct (Hclosed e He) as [Hs Ht].
  simpl in Hv. destruct Hv as [<- | [<- | []]]; done.
Qed.

Lemma size_list_to_set_le (l : list Z) :
  (size (list_to_set l : gset Z) ≤ length l)%nat.
Proof.
  induction l as [|a l IH].
  - rewrite list_to_set_nil, size_empty. done.
  - rewrite list_to_set_cons, size_union_alt, size_singleton.
    assert (size ((list_to_set l : gset Z) ∖ {[a]}) ≤ size (list_to_set l : gset Z))%nat
      as Hle by (apply subseteq_size; set_solver).
    simpl. lia.
Qed.

Section traversal_facts.
Variable g : Graph.
Variable start : Z.

Lemma neighbor_endpoint u v : v ∈ get_neighbors g u → v ∈ endpoints g.
Proof.
  unfold get_neighbors, endpoints.
  intros (e & He & Hcase)%elem_of_neighbors_of.
  apply list_elem_of_In, in_flat_map. exists e. split; [by apply list_elem_of_In|].
  simpl. destruct Hcase as [[_ <-]|(_ & _ & _ & <-)]; auto.
Qed.

Lemma neighbor_universe u v : v ∈ get_neighbors g u → v ∈ (search_universe g start).
Proof. intros H%neighbor_endpoint. by right. Qed.

Lemma NoDup_bounded (l : list Z) :
  NoDup l → (∀ v, v ∈ l → v ∈ (search_universe g start)) → (length l ≤ length (search_universe g start))%nat.
Proof. intros Hnd Hsub. apply submseteq_length, NoDup_submseteq; auto. Qed.

Lemma same_elements_length (l1 l2 : list Z) :
  NoDup l1 → NoDup l2 → (∀ v, v ∈ l1 ↔ v ∈ l2) → length l1 = length l2.
Proof. intros H1 H2 H. apply Permutation_length, NoDup_Permutation; auto. Qed.

(** *** Breadth first *)

(** One pass over the neighbors of a vertex: the unvisited g start ones are
    marked and queued, each once, in the order they are met. *)
Lemma bfs_visit_all (ns : list Z) (visited : gset Z) (queue : list Z) :
  ∃ new,
    (foldl bfs_visit (visited, queue) ns
     = (visited ∪ list_to_set new, queue ++ new))
    ∧ NoDup new
    ∧ (∀ v, v ∈ new → (v ∉ visited) ∧ v ∈ ns)
    ∧ (∀ v, v ∈ ns → v ∈ visited ∪ list_to_set new).
Proof.
  revert visited queue. induction ns as [|n ns IH]; intros visited queue; simpl.
  - exists []. simpl. rewrite app_nil_r, (right_id_L ∅ (∪)).
    split_and!; [done|constructor|set_solver|set_solver].
  - unfold bfs_visit at 2; simpl. case_decide as Hn.
    + destruct (IH visited queue) as (new & -> & Hnd & Hnew & Hall).
      exists new. split_and!; [done|done|set_solver|set_solver].
    + destruct (IH ({[n]} ∪ visited) (queue ++ [n])) as (new & -> & Hnd & Hnew & Hall).
      exists (n :: new). rewrite <- app_assoc. simpl. split_and!.
      * f_equal. set_solver.
      * constructor; [|done]. intros Hin. apply Hnew in Hin. set_solver.
      * intros v [->|Hv]%elem_of_cons; [set_solver|].
        apply Hnew in Hv. set_solver.
      * intros v [->|Hv]%elem_of_cons; [set_solver|].
        apply Hall in Hv. set_solver.
Qed.

Lemma bfs_loop_spec fuel visited queue order :
  bfs_inv g start visited queue order →
  (length (search_universe g start) ≤ fuel + length order)%nat →
  ∃ visited' order',
    bfs_loop fuel g visited queue order = Ok (visited', order')
    ∧ bfs_inv g start visited' [] order'.
Proof.
  revert visited queue order.
  induction fuel as [|fuel IH]; intros visited queue order Hinv Hfuel.
  - destruct queue as [|node rest].
    + exists visited, order. by split.
    + exfalso. pose proof (NoDup_bounded _ (bfs_nodup _ _ _ _ _ Hinv) (bfs_universe _ _ _ _ _ Hinv)) as Hlen.
      rewrite length_app in Hlen. simpl in *. lia.
  - destruct queue as [|node rest].
    + exists visited, order. by split.
    + simpl.
      destruct (bfs_visit_all (get_neighbors g node) visited rest)
        as (new & -> & Hnd & Hnew & Hall). simpl.
      destruct Hinv as [I1 I2 I3 I4 I5 I6].
      apply IH; [|rewrite length_app; simpl in *; lia].
      assert (∀ v, v ∈ (order ++ [node]) ++ rest ++ new
                   ↔ v ∈ order ++ node :: rest ∨ v ∈ new) as Hmem.
      { set_solver. }
      constructor.
      * rewrite <- app_assoc. simpl.
        replace (order ++ node :: rest ++ new) with ((order ++ node :: rest) ++ new)
          by (by rewrite <- app_assoc).
        apply NoDup_app. split_and!; [done| |done].
        intros v Hv Hv'. apply Hnew in Hv' as [Hv' _]. by apply Hv', I2.
      * intros v. rewrite Hmem, elem_of_union, elem_of_list_to_set, I2. tauto.
      * apply Hmem. by left.
      * intros v [Hv|Hv]%Hmem; [by apply I4|].
        apply Hnew in Hv as [_ Hv]. eapply rtc_r; [|exact Hv].
        apply I4. set_solver.
      * intros u v [Hu|Hu%list_elem_of_singleton]%elem_of_app Hv.
        -- apply elem_of_union. left. eauto.
        -- subst u. by apply Hall.
      * intros v [Hv|Hv]%Hmem; [by apply I6|].
        apply Hnew in Hv as [_ Hv]. by eapply neighbor_universe.
Qed.

Lemma bfs_inv_final visited order :
  bfs_inv g start visited [] order →
  NoDup order ∧ size visited = length order ∧ (∀ v, v ∈ order ↔ reachable g start v).
Proof.
  intros [I1 I2 I3 I4 I5 I6]. rewrite app_nil_r in *.
  split_and!; [done| |].
  - assert (visited = list_to_set order) as -> by set_solver.
    by apply size_list_to_set.
  - intros v. split; [by apply I4|].
    revert v. apply rtc_ind_r; [done|].
    intros u v _ Huv Hu. apply I2. eauto.
Qed.
(** *** Depth first *)

Lemma dfs_unfold fuel node st :
  dfs (S fuel) g node st
  = foldl (dfs_step g fuel) (Ok ({[node]} ∪ st.1, st.2 ++ [node])) (get_neighbors g node).
Proof. done. Qed.

Lemma unvisited_mono visited visited' :
  visited ⊆ visited' → (unvisited g start visited' ≤ unvisited g start visited)%nat.
Proof. intros H. unfold unvisited. apply subseteq_size. set_solver. Qed.

Lemma unvisited_add node visited :
  node ∈ (search_universe g start) → node ∉ visited →
  (unvisited g start ({[node]} ∪ visited) < unvisited g start visited)%nat.
Proof.
  intros Hu Hv. unfold unvisited. apply subset_size. split; [set_solver|].
  intros Hsub. assert (node ∈ (list_to_set (search_universe g start) : gset Z) ∖ visited) as Hin by set_solver.
  apply Hsub in Hin. set_solver.
Qed.

Lemma unvisited_bound : (unvisited g start ∅ ≤ length (search_universe g start))%nat.
Proof.
  unfold unvisited. rewrite difference_empty_L. apply size_list_to_set_le.
Qed.

(** A set of vertices of the universe has at most [vertex_count g]
    members when the start vertex is a vertex of the graph. *)
Lemma universe_count (X : gset Z) :
  start ∈ node_ids g → (∀ v, v ∈ X → v ∈ search_universe g start) →
  (size X ≤ vertex_count g)%nat.
Proof.
  intros Hstart Hsub. unfold vertex_count.
  rewrite <- (size_list_to_set (C := gset Z)) by apply NoDup_remove_dups.
  apply subseteq_size. intros v Hv.
  apply elem_of_list_to_set, elem_of_remove_dups, elem_of_app.
  apply Hsub in Hv. unfold search_universe in Hv.
  apply elem_of_cons in Hv as [-> | Hv]; auto.
Qed.

Lemma unvisited_count :
  start ∈ node_ids g → (unvisited g start ∅ ≤ vertex_count g)%nat.
Proof.
  intros Hstart. unfold unvisited. apply universe_count; [done|]. set_solver.
Qed.


(** A larger limit changes the outcome of [dfs] only where the smaller one
    was exceeded. *)
Lemma dfs_limit_step limit :
  ∀ node st, within_limit (dfs limit g node st) (dfs (S limit) g node st).
Proof.
  induction limit as [|limit IH]; intros node st; [by left|].
  rewrite !dfs_unfold. apply within_limit_foldl; [|apply within_limit_refl].
  intros a a' neighbor Ha. unfold dfs_step.
  apply within_limit_bind; [done|].
  intros st'. case_decide; [apply within_limit_refl | apply IH].
Qed.

Lemma dfs_limit_le limit limit' node st :
  (limit ≤ limit')%nat → within_limit (dfs limit g node st) (dfs limit' g node st).
Proof.
  induction 1 as [|limit' _ IH]; [apply within_limit_refl|].
  eapply within_limit_trans; [exact IH | apply dfs_limit_step].
Qed.

Lemma dfs_body_limit_le limit limit' start_node :
  (limit ≤ limit')%nat →
  within_limit (DFS_body limit start_node g) (DFS_body limit' start_node g).
Proof.
  intros Hle. unfold DFS_body.
  destruct (nodes g) as [|[first n] rest]; [apply within_limit_refl|].
  destruct (has_node g (pick_start first start_node)); [|apply within_limit_refl].
  apply within_limit_bind; [by apply dfs_limit_le|].
  intros [visited order]. apply within_limit_refl.
Qed.

Section dfs_fold.
Variable fuel : nat.
Hypothesis dfs_call : ∀ node visited order,
  node ∉ visited → node ∈ (search_universe g start) → (unvisited g start visited ≤ fuel)%nat →
  ∃ res, dfs fuel g node (visited, order) = Ok res
         ∧ dfs_post g [node] visited order res.

Lemma dfs_fold_spec ns visited order :
  (∀ n, n ∈ ns → n ∈ (search_universe g start)) → (unvisited g start visited ≤ fuel)%nat →
  ∃ res, foldl (dfs_step g fuel) (Ok (visited, order)) ns = Ok res
         ∧ dfs_post g ns visited order res.
Proof.
  revert visited order. induction ns as [|n ns IH]; intros visited order Huniv Hfuel.
  - exists (visited, order). split; [done|]. exists []. simpl.
    rewrite app_nil_r, (right_id_L ∅ (∪)).
    split_and!; [done|constructor|set_solver..].
  - simpl. destruct (decide (n ∈ visited)) as [Hn|Hn].
    + destruct (IH visited order) as (res & Hres & new & -> & Hnd & H1 & H2 & H3 & H4);
        [set_solver|done|].
      exists (visited ∪ list_to_set new, order ++ new). split; [done|].
      exists new. split_and!; [done|done|done| |done|].
      * intros v Hv. destruct (H2 v Hv) as (r & Hr & Hrv). exists r. set_solver.
      * intros r [->|Hr]%elem_of_cons; [set_solver|auto].
    + destruct (dfs_call n visited order) as (res1 & Hres1 & new1 & -> & Hnd1 & A1 & A2 & A3 & A4);
        [done|set_solver|done|].
      rewrite Hres1.
      destruct (IH (visited ∪ list_to_set new1) (order ++ new1))
        as (res & Hres & new2 & -> & Hnd2 & B1 & B2 & B3 & B4); [set_solver| |].
      { etrans; [apply unvisited_mono|exact Hfuel]. set_solver. }
      eexists. split; [exact Hres|].
      exists (new1 ++ new2). split_and!.
      * f_equal; [set_solver | by rewrite app_assoc].
      * apply NoDup_app. split_and!; [done| |done].
        intros v Hv1 Hv2. apply B1 in Hv2. set_solver.
      * intros v [Hv|Hv]%elem_of_app; [auto|]. apply B1 in Hv. set_solver.
      * intros v [Hv|Hv]%elem_of_app.
        -- destruct (A2 v Hv) as (r & Hr & Hrv). exists r. set_solver.
        -- destruct (B2 v Hv) as (r & Hr & Hrv). exists r. set_solver.
      * intros u v [Hu|Hu]%elem_of_app Hv.
        -- specialize (A3 u v Hu Hv). set_solver.
        -- specialize (B3 u v Hu Hv). set_solver.
      * intros r [->|Hr]%elem_of_cons.
        -- specialize (A4 n). set_solver.
        -- specialize (B4 r Hr). set_solver.
Qed.
End dfs_fold.

Lemma dfs_spec fuel node visited order :
  node ∉ visited → node ∈ (search_universe g start) → (unvisited g start visited ≤ fuel)%nat →
  ∃ res, dfs fuel g node (visited, order) = Ok res
         ∧ dfs_post g [node] visited order res.
Proof.
  revert node visited order.
  induction fuel as [|fuel IH]; intros node visited order Hnew Huniv Hfuel.
  - pose proof (unvisited_add node visited Huniv Hnew). lia.
  - rewrite dfs_unfold. simpl.
    destruct (dfs_fold_spec fuel IH (get_neighbors g node) ({[node]} ∪ visited)
                (order ++ [node]))
      as (res & Hres & new & -> & Hnd & H1 & H2 & H3 & H4).
    { intros n Hn. by eapply neighbor_universe. }
    { pose proof (unvisited_add node visited Huniv Hnew). lia. }
    eexists. split; [exact Hres|].
    exists (node :: new). rewrite <- app_assoc. simpl. split_and!.
    + f_equal. set_solver.
    + constructor; [|done]. intros Hin. apply H1 in Hin. set_solver.
    + intros v [->|Hv]%elem_of_cons; [done|]. apply H1 in Hv. set_solver.
    + intros v [->|Hv]%elem_of_cons; exists node; (split; [set_solver|]).
      * apply rtc_refl.
      * destruct (H2 v Hv) as (r & Hr & Hrv). by eapply rtc_l.
    + intros u v [->|Hu]%elem_of_cons Hv.
      * specialize (H4 v Hv). set_solver.
      * specialize (H3 u v Hu Hv). set_solver.
    + set_solver.
Qed.

Lemma dfs_final res :
  dfs_post g [start] ∅ [] res →
  NoDup res.2 ∧ size res.1 = length res.2 ∧ (∀ v, v ∈ res.2 ↔ reachable g start v).
Proof.
  intros (new & -> & Hnd & _ & H2 & H3 & H4). simpl.
  rewrite (left_id_L ∅ (∪)) in *.
  split_and!; [done|by apply size_list_to_set|].
  intros v. split.
  - intros Hv. destruct (H2 v Hv) as (r & ->%list_elem_of_singleton & Hr). done.
  - revert v. apply rtc_ind_r.
    + specialize (H4 start). set_solver.
    + intros u v _ Huv Hu. specialize (H3 u v Hu Huv). set_solver.
Qed.
End traversal_facts.

(** C5: for a start vertex of the graph, BFS returns a visitation order
    without duplicates whose members are exactly the vertices reachable
    from the start; its length is the visited count of the report, and the
    length of any duplicate-free enumeration of the reachable vertices. The
    order that DFS returns has the same properties, under whatever recursion
    limit it returns one: under a limit that the search exceeds the run
    raises [RecursionError] and returns no order, and under a limit that
    covers the vertices of the graph it does return. *)
Theorem traversal_visits_reachable_once g start fuel limit :
  has_node g start = true →
  ((traversal_fuel g ≤ fuel)%nat →
   visits_reachable_once g start (BFS_run fuel (Some start) g).2)
  ∧ ((DFS_run limit (Some start) g).2 = Raise RecursionError
     ∨ visits_reachable_once g start (DFS_run limit (Some start) g).2)
  ∧ ((vertex_count g ≤ limit)%nat →
     visits_reachable_once g start (DFS_run limit (Some start) g).2).
Proof.
  intros Hstart.
  assert (∀ limit', (vertex_count g ≤ limit')%nat →
            visits_reachable_once g start (DFS_run limit' (Some start) g).2) as Hdfs.
  { intros limit' Hlimit.
    unfold DFS_run, reading, DFS_body, visits_reachable_once; simpl.
    destruct (nodes g) as [|[first n] rest] eqn:Hnodes.
    { unfold has_node in Hstart. by rewrite Hnodes in Hstart. }
    rewrite Hstart.
    destruct (dfs_spec g start limit' start ∅ []) as ([visited order] & -> & Hpost).
    - set_solver.
    - left.
    - etrans; [apply unvisited_count|done]. by apply has_node_true.
    - destruct (dfs_final g start _ Hpost) as (Hnd & Hsize & Hreach). simpl in *.
      exists order. rewrite Hsize. split_and!; [done..|].
      intros l Hl Hlr. apply same_elements_length; [done..|].
      intros v. by rewrite Hreach, Hlr. }
  split_and!; [|clear fuel|by apply Hdfs].
  - intros Hfuel.
    unfold BFS_run, reading, BFS_body, visits_reachable_once; simpl.
    destruct (nodes g) as [|[first n] rest] eqn:Hnodes.
    { unfold has_node in Hstart. by rewrite Hnodes in Hstart. }
    rewrite Hstart.
    destruct (bfs_loop_spec g start fuel {[start]} [start] []) as (visited & order & -> & Hinv).
    + constructor; simpl.
      * apply NoDup_singleton.
      * set_solver.
      * set_solver.
      * intros v ->%list_elem_of_singleton. apply rtc_refl.
      * by intros u v ?%elem_of_nil.
      * intros v ->%list_elem_of_singleton. left.
    + simpl. unfold traversal_fuel in Hfuel. lia.
    + destruct (bfs_inv_final g start visited order Hinv) as (Hnd & Hsize & Hreach).
      exists order. simpl. rewrite Hsize. split_and!; [done..|].
      intros l Hl Hlr. apply same_elements_length; [done..|].
      intros v. by rewrite Hreach, Hlr.
  - pose proof (Hdfs (limit `max` vertex_count g)%nat ltac:(lia)) as Hlarge.
    destruct (dfs_body_limit_le g limit (limit `max` vertex_count g) (Some start))
      as [Hraise | Hsame]; [lia | by left |].
    right. unfold DFS_run, reading in *. simpl in *. by rewrite Hsame.
Qed.

Lemma traversal_visits_reachable_once_witness :
  let g := sample_graph false 4 [(0, 1, 1); (1, 2, 1); (2, 0, 1); (1, 2, 1)] in
  visits_reachable_once g 1 (BFS_run 9 (Some 1) g).2
  ∧ visits_reachable_once g 1 (DFS_run 4 (Some 1) g).2
  ∧ (DFS_run 2 (Some 1) g).2 = Raise RecursionError.
Proof.
  intros g.
  destruct (traversal_visits_reachable_once g 1 9%nat 4%nat) as (Hbfs & _ & Hdfs).
  - reflexivity.
  - split_and!; [apply Hbfs; vm_compute; lia | apply Hdfs; vm_compute; lia | reflexivity].
Defined.

(** ** What the analyses leave of the graph *)

Section frame.
Lemma same_but_color_refl a : same_but_color a a.
Proof. by repeat split. Qed.

Lemma same_but_color_trans a b c :
  same_but_color a b → same_but_color b c → same_but_color a c.
Proof. unfold same_but_color. intuition congruence. Qed.

Lemma same_nodes_refl (ns : list (Z * Node.t)) : Forall2 same_but_color ns ns.
Proof. induction ns; constructor; auto using same_but_color_refl. Qed.

Lemma same_nodes_trans (ns1 ns2 ns3 : list (Z * Node.t)) :
  Forall2 same_but_color ns1 ns2 → Forall2 same_but_color ns2 ns3 →
  Forall2 same_but_color ns1 ns3.
Proof.
  intros H12. revert ns3. induction H12 as [|a b l1 l2 Hab _ IH]; intros ns3 H23.
  - by inversion H23.
  - inversion H23 as [|b' c l2' l3 Hbc Hrest]; subst.
    constructor; [by eapply same_but_color_trans | auto].
Qed.

Lemma recolor_same (ns : list (Z * Node.t)) k n c :
  PyDict.get ns k = Some n →
  Forall2 same_but_color ns (PyDict.set ns k (Node.set_color n c)).
Proof.
  induction ns as [|[k' n'] ns IH]; simpl; [done|].
  case_decide; subst.
  - intros [= ->]. constructor; [by repeat split | apply same_nodes_refl].
  - intros Hget. constructor; [apply same_but_color_refl | auto].
Qed.

Lemma paint_same ns c k : Forall2 same_but_color ns (paint ns c k).
Proof.
  unfold paint. destruct (PyDict.get ns k) eqn:E.
  - by apply recolor_same.
  - apply same_nodes_refl.
Qed.

Lemma colorize_same ns comp_groups : Forall2 same_but_color ns (colorize ns comp_groups).
Proof.
  unfold colorize. revert ns.
  induction comp_groups as [|[comp_id members] groups IH]; intros ns; simpl.
  - apply same_nodes_refl.
  - eapply same_nodes_trans; [|apply IH].
    generalize (palette comp_id).1. intros c. revert ns.
    induction members as [|m members IHm]; intros ns; simpl.
    + apply same_nodes_refl.
    + eapply same_nodes_trans; [apply paint_same | apply IHm].
Qed.
End frame.

(** C2 as stated fails for the connected-components analysis: on the graph
    with the single vertex 0 it replaces the vertex's color "#4A90E2" by the
    first palette color. *)
Lemma components_run_recolors :
  let g := sample_graph false 1 [] in
  Node.color <$> PyDict.get (nodes g) 0 = Some "#4A90E2"
  ∧ Node.color <$> PyDict.get (nodes (ConnectedComponents_run 3 None g).1) 0
    = Some "#FF6B6B"
  ∧ (ConnectedComponents_run 3 None g).1 ≠ g.
Proof. split_and!; [done..|]. intros H. by apply (f_equal nodes) in H. Qed.

(** C2, amended: BFS, DFS, Dijkstra, cycle detection and the Eulerian
    analysis leave the graph exactly as it was. The connected-components
    analysis leaves the same vertices in the same order with their ids,
    positions and labels, the same edge sequence, directed flag and id
    counter; it may change vertex colors (it paints every vertex with the
    palette color of its component). This holds however the run ends. *)
Theorem analyses_frame fuel start_node end_node g :
  (BFS_run fuel start_node g).1 = g
  ∧ (DFS_run fuel start_node g).1 = g
  ∧ (Dijkstra_run fuel start_node end_node g).1 = g
  ∧ (CycleDetection_run fuel start_node g).1 = g
  ∧ (Eulerian_run fuel start_node g).1 = g
  ∧ same_but_colors g (ConnectedComponents_run fuel start_node g).1.
Proof.
  split_and!; try done.
  unfold ConnectedComponents_run, same_but_colors.
  destruct (nodes g) as [|a rest] eqn:Hnodes.
  { simpl. rewrite Hnodes. split_and!; [constructor|done..]. }
  destruct (cc_outer fuel g) as [[components n]| |]; simpl;
    rewrite <- ?Hnodes; split_and!; try done; try apply same_nodes_refl.
  apply colorize_same.
Qed.

(** ** Cycle enumeration on a multigraph *)

(** C4, at the input where the code departs from it: in the undirected
    graph on 0, 1, 2 with the edges 0-1 (stored twice), 1-2 and 2-0 the
    triangle is listed twice; so the result has two cycles that are equal
    after rotation to their least vertex. The directed graph with two loops
    on the vertex 0 shows the same. *)
Theorem cycle_enumeration_lists_duplicates :
  let g := sample_graph false 3 [(0, 1, 1); (0, 1, 1); (1, 2, 1); (2, 0, 1)] in
  let g' := sample_graph true 1 [(0, 0, 1); (0, 0, 1)] in
  (CycleDetection_run 10 None g).2 = Ok (CyFound [[0; 1; 2; 0]; [0; 1; 2; 0]])
  ∧ ¬ NoDup (_normalize_cycle <$> [[0; 1; 2; 0]; [0; 1; 2; 0]])
  ∧ (CycleDetection_run 10 None g').2 = Ok (CyFound [[0; 0]; [0; 0]]).
Proof.
  split_and!; [done| |done].
  intros H. apply NoDup_cons in H as [H _]. apply H. vm_compute. left.
Qed.

(** ** Eulerian analysis *)

Lemma odd_of_nat (n : nat) : Nat.odd n = true ↔ Z.of_nat n `mod` 2 = 1.
Proof.
  rewrite Nat.odd_spec. split.
  - intros [m ->]. rewrite Nat2Z.inj_add, Nat2Z.inj_mul. simpl.
    rewrite Z.add_comm, Z.mul_comm, Z.mod_add by done. done.
  - intros H. exists (Z.to_nat (Z.of_nat n `div` 2)).
    pose proof (Z.div_mod (Z.of_nat n) 2). lia.
Qed.

Section eulerian_facts.
Implicit Types (g : Graph) (d : list (Z * Z)).

Lemma ends_at_cons e es v :
  ends_at (e :: es) v
  = ((if decide (Edge.source e = v) then 1 else 0)
     + (if decide (Edge.target e = v) then 1 else 0) + ends_at es v)%nat.
Proof.
  unfold ends_at. rewrite !filter_cons.
  repeat case_decide; simpl; lia.
Qed.

Lemma count_of_incr d k v :
  count_of (incr d k) v = count_of d v + (if decide (k = v) then 1 else 0).
Proof.
  unfold incr, count_of. case_decide; subst.
  - by rewrite get_set_eq.
  - rewrite get_set_ne by done. lia.
Qed.

Lemma degrees_fold es d :
  NoDup (PyDict.keys d) →
  let d' := foldl (λ degrees e, incr (incr degrees (Edge.source e)) (Edge.target e)) d es in
  NoDup (PyDict.keys d')
  ∧ (∀ v, count_of d' v = count_of d v + Z.of_nat (ends_at es v))
  ∧ (∀ v, v ∈ PyDict.keys d' ↔
           v ∈ PyDict.keys d ∨ ∃ e, e ∈ es ∧ (Edge.source e = v ∨ Edge.target e = v)).
Proof.
  revert d. induction es as [|e es IH]; intros d Hnd; simpl.
  - split_and!; [done| |].
    + intros v. unfold ends_at. simpl. lia.
    + intros v. split; [auto|]. intros [?|(e & ?%elem_of_nil & _)]; done.
  - destruct (IH (incr (incr d (Edge.source e)) (Edge.target e))) as (H1 & H2 & H3).
    { unfold incr. by do 2 apply NoDup_keys_set. }
    split_and!; [done| |].
    + intros v. rewrite H2, !count_of_incr, ends_at_cons.
      repeat case_decide; lia.
    + intros v. rewrite H3. unfold incr. rewrite !elem_of_keys_set.
      split.
      * intros [[->|[->|?]]|(e' & ? & ?)]; eauto; right.
        -- exists e. split; [left|auto].
        -- exists e. split; [left|auto].
        -- exists e'. split; [by right|auto].
      * intros [?|(e' & [->|?]%elem_of_cons & [<-|<-])]; eauto 6.
Qed.

Lemma NoDup_filter_keys d (P : Z * Z → Prop) `{∀ a, Decision (P a)} :
  NoDup (PyDict.keys d) → NoDup (filter P d).*1.
Proof.
  unfold PyDict.keys. induction d as [|[k c] d IH]; simpl; [constructor|].
  intros [Hk Hd]%NoDup_cons. rewrite filter_cons. case_decide; csimpl; [|auto].
  constructor; [|auto]. intros Hin. apply Hk.
  apply list_elem_of_fmap in Hin as ([k' c'] & -> & [_ Hin]%list_elem_of_filter).
  apply list_elem_of_fmap. by exists (k', c').
Qed.

Lemma elem_of_dict_get d k c :
  NoDup (PyDict.keys d) → (k, c) ∈ d ↔ PyDict.get d k = Some c.
Proof.
  unfold PyDict.keys. induction d as [|[k' c'] d IH]; simpl.
  - intros _. split; [by intros ?%elem_of_nil | done].
  - intros [Hk Hd]%NoDup_cons. rewrite elem_of_cons. case_decide; subst.
    + split; [|intros [= ->]; by left].
      intros [[= ->]|Hin]; [done|]. exfalso. apply Hk.
      apply list_elem_of_fmap. by exists (k, c).
    + rewrite IH by done. split; [|auto]. intros [[= -> ->]|?]; done.
Qed.

(** The odd-degree list of the analysis has exactly the odd-degree
    vertices of the graph. *)
Lemma odd_degree_nodes_spec g :
  NoDup (node_ids g) → edges_closed g →
  NoDup (odd_degree_nodes (compute_degrees_undirected g))
  ∧ length (odd_degree_nodes (compute_degrees_undirected g)) = length (odd_vertices g).
Proof.
  intros Hnd Hclosed. unfold compute_degrees_undirected.
  destruct (degrees_fold (edges g) []) as (H1 & H2 & H3); [constructor|].
  set (d := foldl _ [] (edges g)) in *. unfold odd_degree_nodes.
  assert (NoDup (filter (λ item : Z * Z, item.2 `mod` 2 = 1) d).*1) as Hnd'
    by by apply NoDup_filter_keys.
  split; [done|].
  apply Permutation_length, NoDup_Permutation; [done| |].
  { unfold odd_vertices. by apply NoDup_filter. }
  intros v. unfold odd_vertices. rewrite list_elem_of_filter, list_elem_of_fmap.
  assert (degree g v = ends_at (edges g) v) as Hdeg by done.
  assert (∀ k, k ∈ PyDict.keys d → k ∈ node_ids g) as Hkeys.
  { intros k [?%elem_of_nil|(e & He & Hk)]%H3; [done|].
    unfold edges_closed in Hclosed. rewrite Forall_forall in Hclosed.
    destruct (Hclosed e He) as [? ?]. by destruct Hk as [<-|<-]. }
  split.
  - intros ([k c] & -> & [Hodd Hin]%list_elem_of_filter). simpl in *.
    assert (k ∈ PyDict.keys d) as Hk.
    { apply list_elem_of_fmap. by exists (k, c). }
    apply elem_of_dict_get in Hin; [|done].
    pose proof (H2 k) as Hc. unfold count_of in Hc. rewrite Hin in Hc. simpl in Hc.
    split; [|auto]. rewrite Hdeg. apply Is_true_true, odd_of_nat.
    by replace (Z.of_nat (ends_at (edges g) k)) with c by lia.
  - intros [Hodd%Is_true_true%odd_of_nat Hv]. rewrite Hdeg in Hodd.
    pose proof (H2 v) as Hc. unfold count_of in Hc. simpl in Hc.
    destruct (PyDict.get d v) as [c|] eqn:Hget; simpl in Hc;
      [|replace (Z.of_nat (ends_at (edges g) v)) with 0 in Hodd by lia; done].
    replace (Z.of_nat (ends_at (edges g) v)) with c in Hodd by lia.
    exists (v, c). split; [done|]. apply list_elem_of_filter. split; [done|].
    by apply elem_of_dict_get.
Qed.
End eulerian_facts.

Section hierholzer_facts.
Implicit Types (left : list (Z * list Z)) (l : list Z).

Lemma total_left_set left k l :
  (total_left (PyDict.set left k l) + length (default [] (PyDict.get left k))
   = total_left left + length l)%nat.
Proof.
  induction left as [|[k' l'] left IH]; simpl.
  - lia.
  - case_decide; simpl; lia.
Qed.

Lemma pop_last_length {A} (l : list A) a init :
  pop_last l = Some (a, init) → length l = S (length init).
Proof.
  revert a init. induction l as [|b l IH]; intros a init; simpl; [done|].
  destruct l as [|c l].
  - by intros [= <- <-].
  - destruct (pop_last (c :: l)) as [[a' init']|] eqn:E; [|done].
    intros [= <- <-]. simpl. f_equal. by eapply IH.
Qed.

Lemma pop_last_None {A} (l : list A) : pop_last l = None → l = [].
Proof.
  induction l as [|b l IH]; simpl; [done|].
  destruct l as [|c l]; [done|].
  destruct (pop_last (c :: l)) as [[a' init']|] eqn:E; [done|].
  intros _. by specialize (IH eq_refl).
Qed.

Lemma remove_first_length l a :
  a ∈ l → length l = S (length (remove_first a l)).
Proof.
  induction l as [|b l IH]; simpl; [by intros ?%elem_of_nil|].
  case_decide; [done|]. intros [->|Hin]%elem_of_cons; [done|].
  simpl. f_equal. auto.
Qed.

Lemma total_left_push left k v :
  total_left (push_left left k v) = S (total_left left).
Proof.
  unfold push_left. pose proof (total_left_set left k (default [] (PyDict.get left k) ++ [v])) as H.
  rewrite length_app in H. simpl in H. lia.
Qed.

Lemma total_left_initial g : (total_left (initial_edges_left g) ≤ 2 * length (edges g))%nat.
Proof.
  unfold initial_edges_left.
  assert (∀ es left, total_left (foldl (λ d e,
             let d1 := push_left d (Edge.source e) (Edge.target e) in
             if directed g then d1 else push_left d1 (Edge.target e) (Edge.source e))
           left es) ≤ total_left left + 2 * length es)%nat as H.
  { induction es as [|e es IH]; intros left; simpl; [lia|].
    etrans; [apply IH|]. destruct (directed g); rewrite !total_left_push; lia. }
  apply (H (edges g) []).
Qed.

(** Every round of the walk consumes an adjacency entry or pops the
    stack, so the walk ends. *)
Lemma hierholzer_terminates fuel is_directed left stack current circuit :
  (2 * total_left left + length stack ≤ fuel)%nat →
  ∃ c, hierholzer fuel is_directed left stack current circuit = Ok c.
Proof.
  revert left stack current circuit.
  induction fuel as [|fuel IH]; intros left stack current circuit Hfuel.
  - destruct stack; simpl in *; [eauto | lia].
  - destruct stack as [|s stack]; [simpl; eauto|].
    cbn [hierholzer].
    destruct (pop_last (default [] (PyDict.get left current)))
      as [[next_node remaining]|] eqn:Hpop.
    + apply IH. apply pop_last_length in Hpop.
      pose proof (total_left_set left current remaining) as H1.
      set (left1 := PyDict.set left current remaining) in *.
      rewrite length_app. simpl length in *.
      destruct (negb is_directed && bool_decide (current ∈ default [] (PyDict.get left1 next_node)))
        eqn:Hback.
      * apply andb_true_iff in Hback as [_ Hin%bool_decide_eq_true].
        apply remove_first_length in Hin.
        pose proof (total_left_set left1 next_node
                      (remove_first current (default [] (PyDict.get left1 next_node)))) as H2.
        lia.
      * lia.
    + destruct (pop_last (s :: stack)) as [[top stack']|] eqn:Hstack.
      * apply IH. apply pop_last_length in Hstack. simpl in *. lia.
      * by apply pop_last_None in Hstack.
Qed.

Lemma find_eulerian_circuit_terminates fuel g start :
  (eulerian_fuel g ≤ fuel)%nat → ∃ c, _find_eulerian_circuit fuel g start = Ok c.
Proof.
  intros Hfuel. unfold _find_eulerian_circuit.
  destruct (hierholzer_terminates fuel (directed g) (initial_edges_left g) [start] start [])
    as [c ->]; [|simpl; eauto].
  pose proof (total_left_initial g). unfold eulerian_fuel in Hfuel. simpl. lia.
Qed.
End hierholzer_facts.

(** C6: on a non-empty undirected graph with at least one edge (vertex ids
    distinct, edges between existing vertices) the Eulerian analysis returns
    a report, and the report says that a circuit exists exactly when no
    vertex has odd degree, that a path exists exactly when two vertices
    have odd degree, and that neither exists in every other case; the
    degree counts edge ends, parallel edges each. *)
Theorem eulerian_undirected_verdict g fuel start_node :
  NoDup (node_ids g) → edges_closed g → directed g = false →
  nodes g ≠ [] → edges g ≠ [] → (eulerian_fuel g ≤ fuel)%nat →
  ∃ r, (Eulerian_run fuel start_node g).2 = Ok r
       ∧ ((∃ circuit, r = ECircuit circuit) ↔ length (odd_vertices g) = 0%nat)
       ∧ ((∃ ends path, r = EPath ends path) ↔ length (odd_vertices g) = 2%nat)
       ∧ ((∃ odd, r = ENeither odd)
          ↔ length (odd_vertices g) ≠ 0%nat ∧ length (odd_vertices g) ≠ 2%nat).
Proof.
  intros Hnd Hclosed Hund Hnodes Hedges Hfuel.
  destruct (odd_degree_nodes_spec g Hnd Hclosed) as [_ Hlen].
  unfold Eulerian_run, reading, Eulerian_body, Eulerian_from, _analyze_undirected,
    _find_eulerian_path; simpl.
  destruct (nodes g) as [|[first n] rest]; [done|].
  destruct (edges g) as [|e es] eqn:Hes; [done|]. rewrite Hund.
  rewrite <- Hlen.
  destruct (odd_degree_nodes (compute_degrees_undirected g)) as [|a [|b [|c odd]]] eqn:Hodd.
  - destruct (find_eulerian_circuit_terminates fuel g first Hfuel) as [c ->]. simpl.
    eexists. split; [done|]. split_and!; split; try done; eauto.
    + by intros (? & ? & ?).
    + by intros (? & ?).
    + by intros [? _].
  - eexists. split; [done|]. simpl. split_and!; split; try done; eauto.
    + by intros (? & ?).
    + by intros (? & ? & ?).
  - destruct (find_eulerian_circuit_terminates fuel g a Hfuel) as [c ->]. simpl.
    eexists. split; [done|]. split_and!; split; try done; eauto.
    + by intros (? & ?).
    + by intros (? & ?).
    + by intros [_ ?].
  - eexists. split; [done|]. simpl. split_and!; split; try done; eauto.
    + by intros (? & ?).
    + by intros (? & ? & ?).
Qed.

Lemma eulerian_undirected_verdict_witness :
  let g := sample_graph false 4
             [(0, 2, 1); (0, 2, 1); (1, 2, 1); (1, 2, 1); (0, 3, 1); (1, 3, 1); (2, 3, 1)] in
  ∃ r, (Eulerian_run 40 None g).2 = Ok r
       ∧ ((∃ circuit, r = ECircuit circuit) ↔ length (odd_vertices g) = 0%nat)
       ∧ ((∃ ends path, r = EPath ends path) ↔ length (odd_vertices g) = 2%nat)
       ∧ ((∃ odd, r = ENeither odd)
          ↔ length (odd_vertices g) ≠ 0%nat ∧ length (odd_vertices g) ≠ 2%nat).
Proof.
  intros g. apply (eulerian_undirected_verdict g 40%nat None).
  - unfold g. vm_compute. repeat (constructor; [set_solver|]). constructor.
  - unfold g. vm_compute. repeat (constructor; [set_solver|]). constructor.
  - reflexivity.
  - discriminate.
  - discriminate.
  - vm_compute. lia.
Defined.
(** ** Shortest paths *)

(** *** Distances as they are printed *)




(** The printed lines keep the vertices and the paths of the lines they
    are printed from, and print every finite distance through the format. *)
Lemma print_rows_inv (rows printed : list (Z * Dist * option (list Z))) :
  print_rows rows = Ok printed →
  Forall2 (λ row line, line.1.1 = row.1.1 ∧ line.2 = row.2
                       ∧ format_dist row.1.2 = Ok line.1.2) rows printed.
Proof.
  revert printed. induction rows as [|[[v dv] p] rows IH]; intros printed; simpl.
  - intros [= <-]. constructor.
  - destruct (format_dist dv) as [ds| |] eqn:Hds; simpl; [|done..].
    destruct (print_rows rows) as [rest| |]; simpl; [|done..].
    intros [= <-]. constructor; [done | by apply IH].
Qed.



Section heap_facts.
Implicit Types (pq : list (Z * Z)) (a : Z * Z).





End heap_facts.

Section distance_measure.
Implicit Types (d : list (Z * Dist)).


Lemma improve_unreached_total d k x :
  PyDict.get d k = Some Inf →
  (total_dist (PyDict.set d k (Fin x)) = total_dist d + Z.to_nat x)%nat.
Proof.
  induction d as [|[k' dv] d IH]; simpl; [done|]. case_decide.
  - intros [= ->]. simpl. lia.
  - intros Hget. specialize (IH Hget). destruct dv; simpl; lia.
Qed.

End distance_measure.


Section dijkstra_facts.
Variable g : Graph.
Variable start : Z.
Hypothesis Hweights : weights_nonnegative g.
Hypothesis Hclosed : edges_closed g.
Hypothesis Hstart : start ∈ node_ids g.













Lemma insert_by_perm {A} (le : A → A → bool) a (l : list A) :
  insert_by le a l ≡ₚ a :: l.
Proof.
  induction l as [|b l IH]; simpl; [done|].
  destruct (le a b); [done|]. rewrite IH. apply Permutation_swap.
Qed.

Lemma sorted_by_perm {A} (le : A → A → bool) (l : list A) : sorted_by le l ≡ₚ l.
Proof.
  unfold sorted_by. induction l as [|a l IH]; simpl; [done|].
  by rewrite insert_by_perm, IH.
Qed.





End dijkstra_facts.

(** C10 as stated fails when a distance is too large for a float: with the
    vertices 0 and 1 joined by an edge of weight 2^1024 and the end vertex 7,
    which is not in the graph, formatting the line of vertex 1 raises
    [OverflowError], so that no report is returned, with any fuel that
    lets the main loop finish. *)
Lemma dijkstra_unknown_end_overflow :
  let g := sample_graph false 2 [(0, 1, 2 ^ 1024)] in
  nodes g ≠ [] ∧ weights_nonnegative g ∧ edges_closed g
  ∧ has_node g 0 = true ∧ has_node g 7 = false
  ∧ ∀ fuel, (3 ≤ fuel)%nat →
      (Dijkstra_run fuel (Some 0) (Some 7) g).2 = Raise OverflowError.
Proof.
  intros g. split_and!.
  - discriminate.
  - apply (bool_decide_unpack _). vm_compute. exact I.
  - repeat constructor; vm_compute; set_solver.
  - reflexivity.
  - reflexivity.
  - intros [|[|[|fuel]]] Hfuel; [lia..|]. vm_compute. reflexivity.
Qed.



(** ** The component search under a recursion limit *)

Section components_limit.
Variable g : Graph.




End components_limit.

(** ** Connected components of an undirected graph *)

Section components_facts.
Variable g : Graph.
Hypothesis Hundirected : directed g = false.




Lemma cc_extends_refl comp_id components : cc_extends comp_id components components.
Proof. exists []. by rewrite app_nil_r. Qed.






End components_facts.




(** ** Shortest distances *)




Section shortest_facts.
Variable g : Graph.
Variable start : Z.
Hypothesis Hweights : weights_nonnegative g.















Lemma walk_nonneg v w : walk g start v w → 0 ≤ w.
Proof.
  induction 1 as [|u v e w _ IH He _]; [done|].
  unfold weights_nonnegative in Hweights. rewrite Forall_forall in Hweights.
  specialize (Hweights e He). simpl in Hweights. lia.
Qed.


End shortest_facts.




(** ** Default labels *)

Section label_facts.
Lemma letter_code (r : Z) :
  0 ≤ r < 26 → Z.of_nat (nat_of_ascii (ascii_of_nat (Z.to_nat (65 + r)))) = 65 + r.
Proof.
  intros Hr. rewrite nat_ascii_embedding by lia. lia.
Qed.

(** The loop writes the numeral of [n] in front of [result]. *)
Lemma int_to_letter_loop_value (fuel : nat) (n : Z) (result : string) :
  0 ≤ n ≤ Z.of_nat fuel →
  letters_value (Node.int_to_letter_loop fuel n result) 0 = letters_value result n.
Proof.
  revert n result. induction fuel as [|fuel IH]; intros n result Hn; simpl.
  - by replace n with 0 by lia.
  - case_decide as Hpos; [|by replace n with 0 by lia].
    rewrite IH.
    + simpl. f_equal. rewrite letter_code by (apply Z.mod_pos_bound; lia).
      pose proof (Z.div_mod (n - 1) 26). lia.
    + split; [apply Z.div_pos; lia|].
      assert ((n - 1) `div` 26 ≤ n - 1) by (apply Z.div_le_upper_bound; lia). lia.
Qed.

Lemma int_to_letter_loop_capital (fuel : nat) (n : Z) (result : string) :
  capital_letters result → capital_letters (Node.int_to_letter_loop fuel n result).
Proof.
  revert n result. induction fuel as [|fuel IH]; intros n result Hres; simpl; [done|].
  case_decide; [|done]. apply IH. simpl. split; [|done].
  pose proof (Z.mod_pos_bound (n - 1) 26).
  rewrite nat_ascii_embedding by lia. lia.
Qed.

Lemma int_to_letter_value (n : Z) :
  0 ≤ n → letters_value (Node._int_to_letter n) 0 = n + 1.
Proof.
  intros Hn. unfold Node._int_to_letter.
  rewrite int_to_letter_loop_value by lia. done.
Qed.
End label_facts.

(** X1: two distinct non-negative ids never get the same default label:
    [_int_to_letter] is injective on the non-negative integers. *)
Theorem int_to_letter_injective (n m : Z) :
  0 ≤ n → 0 ≤ m → n ≠ m → Node._int_to_letter n ≠ Node._int_to_letter m.
Proof.
  intros Hn Hm Hne Heq.
  pose proof (int_to_letter_value n Hn) as H1.
  pose proof (int_to_letter_value m Hm) as H2.
  rewrite Heq in H1. lia.
Qed.

Lemma int_to_letter_injective_witness :
  Node._int_to_letter 0 ≠ Node._int_to_letter 26.
Proof.
  apply (int_to_letter_injective 0 26); lia.
Defined.

(** X2: a default label consists of capital letters only; it is not empty
    for a non-negative id, and it is the empty string for a negative one
    (the loop [while n > 0] is not entered). *)
Theorem int_to_letter_capitals (n : Z) :
  capital_letters (Node._int_to_letter n)
  ∧ (0 ≤ n → Node._int_to_letter n ≠ "")
  ∧ (n < 0 → Node._int_to_letter n = "").
Proof.
  split_and!.
  - by apply int_to_letter_loop_capital.
  - intros Hn Heq. pose proof (int_to_letter_value n Hn) as H.
    rewrite Heq in H. simpl in H. lia.
  - intros Hn. unfold Node._int_to_letter.
    by replace (Z.to_nat (n + 1)) with O by lia.
Qed.

(** ** Lookups and mutations of the graph model *)

Section mutation_facts.
Implicit Types (g : Graph) (e : Edge.t).

Lemma weight_matches_edge_matches d u v e :
  weight_matches d u v e = edge_matches d u v e.
Proof.
  unfold weight_matches, edge_matches.
  destruct d; simpl; repeat case_bool_decide; simpl; done.
Qed.

(** The weight that Dijkstra looks up is the weight of the edge that
    [get_edge] returns. *)
Lemma edge_weight_get_edge g u v :
  edge_weight g u v = match get_edge g u v with Some e => Edge.weight e | None => 1 end.
Proof.
  unfold edge_weight, get_edge.
  induction (edges g) as [|e es IH]; simpl; [done|].
  rewrite weight_matches_edge_matches. by destruct (edge_matches _ u v e).
Qed.

Lemma edge_matches_spec d u v e :
  edge_matches d u v e = true ↔
  (Edge.source e = u ∧ Edge.target e = v)
  ∨ (d = false ∧ Edge.source e = v ∧ Edge.target e = u).
Proof.
  unfold edge_matches. destruct d; simpl; repeat case_bool_decide; simpl; naive_solver.
Qed.

Lemma find_is_Some {A} (p : A → bool) (l : list A) :
  is_Some (find p l) ↔ ∃ a, a ∈ l ∧ p a = true.
Proof.
  induction l as [|b l IH]; simpl.
  - split; [by intros [? [=]] | by intros (? & ?%elem_of_nil & _)].
  - destruct (p b) eqn:E.
    + split; [intros _; exists b; split; [left|done] | eauto].
    + rewrite IH. split.
      * intros (a & Ha & Hp). exists a. split; [by right | done].
      * intros (a & [->|Ha]%elem_of_cons & Hp); [congruence | eauto].
Qed.

Lemma find_Some_elem {A} (p : A → bool) (l : list A) a :
  find p l = Some a → a ∈ l ∧ p a = true.
Proof.
  induction l as [|b l IH]; simpl; [done|].
  destruct (p b) eqn:E.
  - intros [= ->]. split; [left | done].
  - intros [Hin Hp]%IH. split; [by right | done].
Qed.

Lemma neighbors_of_update_first d x p w es :
  neighbors_of d x (update_first p w es) = neighbors_of d x es.
Proof.
  induction es as [|e es IH]; simpl; [done|].
  destruct (p e); simpl; [done|]. by rewrite IH.
Qed.

Lemma find_update_first (p : Edge.t → bool) w es :
  (∀ e, p (Edge.set_weight e w) = p e) →
  find p (update_first p w es) = (λ e, Edge.set_weight e w) <$> find p es.
Proof.
  intros Hp. induction es as [|e es IH]; simpl; [done|].
  destruct (p e) eqn:E; simpl.
  - by rewrite Hp, E.
  - by rewrite E.
Qed.

Lemma update_first_None (p : Edge.t → bool) w es :
  find p es = None → update_first p w es = es.
Proof.
  induction es as [|e es IH]; simpl; [done|].
  destruct (p e); [done|]. intros H. by rewrite IH.
Qed.

Lemma length_update_first (p : Edge.t → bool) w es :
  length (update_first p w es) = length es.
Proof.
  induction es as [|e es IH]; simpl; [done|].
  destruct (p e); simpl; [done | by rewrite IH].
Qed.

(** The neighbor list over a filtered edge list, when the filter drops
    exactly the edges that contribute a vertex of [drop]. *)
Lemma neighbors_of_filter d x (P : Edge.t → Prop) `{∀ e, Decision (P e)}
    (Q : Z → Prop) `{∀ u, Decision (Q u)} es :
  (∀ e, Edge.source e = x → (P e ↔ Q (Edge.target e))) →
  (∀ e, d = false → Edge.source e ≠ x → Edge.target e = x → (P e ↔ Q (Edge.source e))) →
  neighbors_of d x (filter P es) = filter Q (neighbors_of d x es).
Proof.
  intros Hout Hin. induction es as [|e es IH]; simpl; [done|].
  rewrite filter_cons. destruct (decide (Edge.source e = x)) as [Hs|Hs].
  - rewrite filter_cons. destruct (decide (P e)) as [HP|HP].
    + simpl. rewrite decide_True by done.
      rewrite decide_True by (by apply Hout). by rewrite IH.
    + rewrite decide_False; [done|]. by rewrite <- Hout.
  - destruct d; simpl.
    + destruct (decide (P e)); simpl; [rewrite decide_False by done|]; done.
    + case_bool_decide as Ht.
      * rewrite filter_cons. destruct (decide (P e)) as [HP|HP].
        -- simpl. rewrite decide_False by done. rewrite bool_decide_eq_true_2 by done.
           rewrite decide_True by (by apply Hin). by rewrite IH.
        -- rewrite decide_False; [done|]. by rewrite <- Hin.
      * destruct (decide (P e)); simpl;
          [rewrite decide_False by done; rewrite bool_decide_eq_false_2 by done|]; done.
Qed.

Lemma elem_of_set {V} (d : list (Z * V)) k v a :
  a ∈ PyDict.set d k v → a ∈ d ∨ a = (k, v).
Proof.
  induction d as [|[k' v'] d IH]; simpl.
  - intros ->%list_elem_of_singleton. by right.
  - case_decide.
    + rewrite !elem_of_cons. naive_solver.
    + rewrite !elem_of_cons. naive_solver.
Qed.

Lemma del_sublist {V} (d : list (Z * V)) k : PyDict.del d k `sublist_of` d.
Proof.
  induction d as [|[k' v'] d IH]; simpl; [done|].
  case_decide; [by apply sublist_cons | by apply sublist_skip].
Qed.

Lemma get_del_ne {V} (d : list (Z * V)) k k' :
  k' ≠ k → PyDict.get (PyDict.del d k) k' = PyDict.get d k'.
Proof.
  intros Hne. induction d as [|[k0 v0] d IH]; simpl; [done|].
  destruct (decide (k0 = k)) as [->|Hk].
  - by rewrite decide_False by done.
  - simpl. by rewrite IH.
Qed.

Lemma keys_del_notin {V} (d : list (Z * V)) k :
  NoDup (PyDict.keys d) → k ∉ PyDict.keys (PyDict.del d k).
Proof.
  unfold PyDict.keys. induction d as [|[k0 v0] d IH]; simpl; [intros _; apply not_elem_of_nil|].
  intros [Hk0 Hnd]%NoDup_cons. destruct (decide (k0 = k)) as [->|Hk]; [done|].
  simpl. rewrite not_elem_of_cons. split; [done | by apply IH].
Qed.

Lemma get_edge_is_Some g u v : is_Some (get_edge g u v) ↔ v ∈ get_neighbors g u.
Proof.
  unfold get_edge, get_neighbors.
  rewrite find_is_Some, elem_of_neighbors_of.
  split; intros (e & He & H); exists e; (split; [done|]).
  - apply edge_matches_spec in H.
    destruct (decide (Edge.source e = u)); naive_solver.
  - apply edge_matches_spec. naive_solver.
Qed.
End mutation_facts.

(** X3: on a graph whose ids are below the id counter, [add_node] returns
    an id that was not in use, puts the new vertex last in the vertex map
    (with the given label, or the default letter label when the label is
    empty) and leaves every other vertex and every neighbor list as it was. *)
Theorem add_node_fresh g x y label :
  ids_below_counter g →
  let g' := (add_node g x y label).1 in
  let node_id := (add_node g x y label).2 in
  ((node_id ∉ node_ids g)
   ∧ node_ids g' = node_ids g ++ [node_id]
   ∧ PyDict.get (nodes g') node_id
     = Some (Node.mk node_id x y
               (if decide (label = "") then Node._int_to_letter node_id else label)
               Node.default_color)
   ∧ (∀ k, k ≠ node_id → PyDict.get (nodes g') k = PyDict.get (nodes g) k)
   ∧ (∀ v, get_neighbors g' v = get_neighbors g v)
   ∧ ids_below_counter g').
Proof.
  intros Hlt g' node_id. subst g' node_id. unfold add_node. cbn [fst snd].
  assert (next_id g ∉ node_ids g) as Hfresh.
  { intros Hin. unfold ids_below_counter in Hlt.
    rewrite Forall_forall in Hlt. apply Hlt in Hin. lia. }
  unfold node_ids in *. cbn [nodes]. split_and!.
  - done.
  - by rewrite keys_set, decide_False.
  - by rewrite get_set_eq.
  - intros k Hk. by rewrite get_set_ne.
  - done.
  - unfold ids_below_counter, node_ids. cbn [nodes next_id].
    rewrite keys_set, decide_False by done. apply Forall_app. split.
    + eapply Forall_impl; [exact Hlt|]. simpl. intros; lia.
    + repeat constructor. lia.
Qed.

Lemma add_node_fresh_witness :
  let g := sample_graph false 2 [(0, 1, 1)] in
  (((add_node g 5 6 "").2 ∉ node_ids g)
   ∧ node_ids (add_node g 5 6 "").1 = node_ids g ++ [(add_node g 5 6 "").2]).
Proof.
  intros g.
  assert (ids_below_counter g) as H1.
  { repeat constructor; vm_compute; done. }
  destruct (add_node_fresh g 5 6 "" H1) as (Ha & Hb & _).
  split; [exact Ha | exact Hb].
Defined.

(** X4: [add_edge] appends one edge when both endpoints are vertices of
    the graph and does nothing otherwise. In the first case [target] is
    added at the end of the neighbor list of [source] and, in an undirected
    graph, [source] at the end of the neighbor list of [target] (once only
    for a loop); no other neighbor list changes. *)
Theorem add_edge_neighbors g source target weight v :
  let added := has_node g source && has_node g target in
  (get_neighbors (add_edge g source target weight) v
   = get_neighbors g v
     ++ (if added then
           if decide (source = v) then [target]
           else if negb (directed g) && bool_decide (target = v) then [source]
           else []
         else []))
  ∧ (edges (add_edge g source target weight)
     = edges g ++ (if added
                   then [Edge.mk source target weight (directed g) Edge.default_color]
                   else []))
  ∧ nodes (add_edge g source target weight) = nodes g.
Proof.
  intros added. subst added. unfold add_edge, get_neighbors.
  destruct (has_node g source && has_node g target); cbn [edges directed nodes].
  - rewrite neighbors_of_app. by split_and!.
  - by rewrite !app_nil_r.
Qed.

(** X5: [get_edge(u, v)] finds an edge exactly when [v] is in the neighbor
    list of [u]; what it returns is a stored edge from [u] to [v] or, in an
    undirected graph, from [v] to [u]; and in an undirected graph the
    result does not depend on the order of the two arguments. *)
Theorem get_edge_neighbor g u v :
  (is_Some (get_edge g u v) ↔ v ∈ get_neighbors g u)
  ∧ (∀ e, get_edge g u v = Some e →
          e ∈ edges g
          ∧ ((Edge.source e = u ∧ Edge.target e = v)
             ∨ (directed g = false ∧ Edge.source e = v ∧ Edge.target e = u)))
  ∧ (directed g = false → get_edge g v u = get_edge g u v).
Proof.
  split_and!; [apply get_edge_is_Some|..]; unfold get_edge.
  - intros e [He H]%find_Some_elem. split; [done|]. by apply edge_matches_spec.
  - intros Hd. rewrite Hd. induction (edges g) as [|e es IH]; simpl; [done|].
    assert (edge_matches false v u e = edge_matches false u v e) as ->.
    { unfold edge_matches. simpl. repeat case_bool_decide; simpl; done. }
    by rewrite IH.
Qed.

(** X6: after [update_edge_weight(u, v, w)] on a graph that has an edge
    between [u] and [v], [get_edge(u, v)] returns the same edge with the
    weight [w], and [w] is the weight Dijkstra's relaxation uses between [u]
    and [v]; when there is no such edge nothing changes. Neighbor lists and
    the number of edges are never affected. *)
Theorem update_edge_weight_lookup g u v w :
  let g' := update_edge_weight g u v w in
  (∀ e, get_edge g u v = Some e →
        get_edge g' u v = Some (Edge.set_weight e w) ∧ edge_weight g' u v = w)
  ∧ (get_edge g u v = None → edges g' = edges g)
  ∧ (∀ x, get_neighbors g' x = get_neighbors g x)
  ∧ length (edges g') = length (edges g)
  ∧ nodes g' = nodes g.
Proof.
  intros g'. subst g'.
  assert (∀ e, get_edge g u v = Some e →
               get_edge (update_edge_weight g u v w) u v = Some (Edge.set_weight e w))
    as Hget.
  { intros e He. unfold get_edge, update_edge_weight in *. cbn [edges directed].
    rewrite find_update_first by done. by rewrite He. }
  split_and!.
  - intros e He. split; [by apply Hget|].
    rewrite edge_weight_get_edge, (Hget e He). done.
  - intros Hnone. unfold update_edge_weight. cbn [edges].
    by apply update_first_None.
  - intros x. unfold get_neighbors, update_edge_weight. cbn [edges directed].
    apply neighbors_of_update_first.
  - unfold update_edge_weight. cbn [edges]. apply length_update_first.
  - done.
Qed.

(** X7: [remove_node] of a vertex of the graph deletes it from the vertex
    map together with every edge that has it as an endpoint: the vertex
    has no neighbor left and disappears from the neighbor list of every
    other vertex, whose other neighbors stay, in order. Removing an id that
    is not in the graph changes nothing. *)
Theorem remove_node_spec g node_id :
  NoDup (node_ids g) →
  let g' := remove_node g node_id in
  (has_node g node_id = false → g' = g)
  ∧ (has_node g node_id = true →
     has_node g' node_id = false
     ∧ (∀ k, k ≠ node_id → PyDict.get (nodes g') k = PyDict.get (nodes g) k)
     ∧ (∀ e, e ∈ edges g' ↔
             e ∈ edges g ∧ Edge.source e ≠ node_id ∧ Edge.target e ≠ node_id)
     ∧ (∀ v, get_neighbors g' v
             = if decide (v = node_id) then []
               else filter (λ u, u ≠ node_id) (get_neighbors g v))).
Proof.
  intros Hnd g'. subst g'. unfold remove_node.
  destruct (has_node g node_id) eqn:Eh; (split; [done|]); [|done].
  intros _. split_and!.
  - unfold has_node. cbn [nodes]. apply mem_false. by apply keys_del_notin.
  - intros k Hk. cbn [nodes]. by apply get_del_ne.
  - intros e. cbn [edges]. rewrite list_elem_of_filter. tauto.
  - intros v. unfold get_neighbors. cbn [edges directed].
    destruct (decide (v = node_id)) as [->|Hv].
    + rewrite (neighbors_of_filter _ _ _ (λ _, False)) by (intros e; tauto).
      induction (neighbors_of _ _ _) as [|a l IH]; [done|].
      by rewrite filter_cons, decide_False by tauto.
    + apply neighbors_of_filter.
      * intros e He. split; [tauto|]. intros Ht. split; [congruence | done].
      * intros e _ Hs Ht. split; [tauto|]. intros Hsrc. split; [done | congruence].
Qed.

Lemma remove_node_spec_witness :
  let g := sample_graph false 3 [(0, 1, 1); (1, 2, 1); (2, 0, 1)] in
  has_node (remove_node g 1) 1 = false
  ∧ get_neighbors (remove_node g 1) 0 = filter (λ u, u ≠ 1) (get_neighbors g 0).
Proof.
  intros g.
  assert (NoDup (node_ids g)) as Hnd.
  { vm_compute. repeat constructor; set_solver. }
  destruct (remove_node_spec g 1 Hnd) as [_ Hin].
  destruct Hin as (Ha & _ & _ & Hb); [done|].
  split; [exact Ha | exact (Hb 0)].
Defined.

(** X8: on a directed graph [remove_edge(source, target)] removes exactly
    the edges stored from [source] to [target]: afterwards [get_edge] finds
    none, [target] has left the neighbor list of [source], and nothing else
    has changed in any neighbor list. *)
Theorem remove_edge_directed g source target :
  directed g = true →
  let g' := remove_edge g source target in
  get_edge g' source target = None
  ∧ (target ∉ get_neighbors g' source)
  ∧ (∀ v, get_neighbors g' v
          = if decide (v = source) then filter (λ u, u ≠ target) (get_neighbors g v)
            else get_neighbors g v)
  ∧ nodes g' = nodes g.
Proof.
  intros Hd g'.
  assert (∀ v, get_neighbors g' v
               = if decide (v = source) then filter (λ u, u ≠ target) (get_neighbors g v)
                 else get_neighbors g v) as Hn.
  { intros v. subst g'. unfold get_neighbors, remove_edge. cbn [edges directed].
    rewrite Hd. destruct (decide (v = source)) as [->|Hv].
    - apply neighbors_of_filter; [|done].
      intros e He. split; [tauto|]. intros Ht [_ Heq]. done.
    - rewrite (neighbors_of_filter _ _ _ (λ _, True)); [|naive_solver..].
      apply filter_all, Forall_forall. done. }
  assert (target ∉ get_neighbors g' source) as Hnot.
  { rewrite Hn, decide_True by done. rewrite list_elem_of_filter. tauto. }
  split_and!; [|done..].
  destruct (get_edge g' source target) as [e|] eqn:E; [|done].
  exfalso. apply Hnot. apply get_edge_is_Some. by rewrite E.
Qed.

Lemma remove_edge_directed_witness :
  let g := sample_graph true 2 [(0, 1, 1); (1, 0, 1)] in
  get_edge (remove_edge g 0 1) 0 1 = None
  ∧ get_neighbors (remove_edge g 0 1) 1 = get_neighbors g 1.
Proof.
  intros g.
  destruct (remove_edge_directed g 0 1) as (Ha & _ & Hb & _); [done|].
  split; [exact Ha | exact (Hb 1)].
Defined.

Section invariant_facts.
Lemma constructed_nodes g :
  constructed g →
  0 ≤ next_id g
  ∧ (∀ k n, (k, n) ∈ nodes g → Node.id n = k ∧ 0 ≤ k < next_id g)
  ∧ (∀ e, e ∈ edges g → Edge.directed e = directed g).
Proof.
  induction 1 as [d|g x y l _ (Hid & Hn & He)|g s t w _ (Hid & Hn & He)
                 |g v _ (Hid & Hn & He)|g s t _ (Hid & Hn & He)|g _ (Hid & Hn & He)].
  - simpl. split_and!; [done|by intros ? ? ?%elem_of_nil|by intros ? ?%elem_of_nil].
  - unfold add_node. cbn [fst nodes edges directed next_id]. split_and!; [lia| |done].
    intros k n [Hin|[= -> ->]]%elem_of_set.
    + destruct (Hn k n Hin). split; [done | lia].
    + simpl. split; [done | lia].
  - unfold add_edge. destruct (has_node g s && has_node g t); [|done].
    cbn [nodes edges directed next_id]. split_and!; [done..|].
    intros e [?| ->%list_elem_of_singleton]%elem_of_app; [auto | done].
  - unfold remove_node. destruct (has_node g v); [|done].
    cbn [nodes edges directed next_id]. split_and!; [done| |].
    + intros k n Hin. apply Hn. eapply elem_of_sublist; [exact Hin|]. apply del_sublist.
    + intros e [_ Hin]%list_elem_of_filter. auto.
  - unfold remove_edge. cbn [nodes edges directed next_id]. split_and!; [done..|].
    intros e [_ Hin]%list_elem_of_filter. auto.
  - simpl. split_and!; [done|by intros ? ? ?%elem_of_nil|by intros ? ?%elem_of_nil].
Qed.

Lemma StronglySorted_lt_NoDup (l : list Z) : StronglySorted Z.lt l → NoDup l.
Proof.
  induction 1 as [|a l _ IH Hall]; constructor; [|done].
  intros Hin. rewrite Forall_forall in Hall. specialize (Hall a Hin). lia.
Qed.
End invariant_facts.

(** X9: every graph built from [Graph()] by [add_node], [add_edge],
    [remove_node], [remove_edge] and [clear] is well formed: the endpoints
    of every stored edge are vertices of the graph (no dangling edge), no id
    occurs twice, every vertex is stored under its own id, ids are
    non-negative and below the id counter, and every edge carries the
    directed flag of the graph. *)
Theorem constructed_well_formed g :
  constructed g →
  edges_closed g
  ∧ NoDup (node_ids g)
  ∧ (∀ k n, PyDict.get (nodes g) k = Some n → Node.id n = k ∧ 0 ≤ k < next_id g)
  ∧ (∀ e, e ∈ edges g → Edge.directed e = directed g).
Proof.
  intros Hc.
  destruct (constructed_inv g Hc) as (Hs & _ & Hclosed).
  destruct (constructed_nodes g Hc) as (_ & Hn & He).
  split_and!; [done| |  |done].
  - by apply StronglySorted_lt_NoDup.
  - intros k n Hget. apply Hn. by apply get_Some_elem.
Qed.

Lemma constructed_well_formed_witness :
  let g := remove_node (sample_graph false 3 [(0, 1, 1); (1, 2, 1)]) 1 in
  edges_closed g ∧ NoDup (node_ids g).
Proof.
  intros g.
  assert (constructed g) as Hc.
  { apply constructed_remove_node, sample_graph_constructed. }
  destruct (constructed_well_formed g Hc) as (Ha & Hb & _).
  split; [exact Ha | exact Hb].
Defined.

(** ** The adjacency matrix *)

Section matrix_facts.
Lemma py_index_in n i : 0 ≤ i < Z.of_nat n → py_index n i = Some (Z.to_nat i).
Proof. intros Hi. unfold py_index. by rewrite decide_True. Qed.

Lemma py_index_Some n i r : py_index n i = Some r → (r < n)%nat.
Proof.
  unfold py_index. repeat case_decide; intros [=]; subst; lia.
Qed.

Lemma py_index_None n i :
  py_index n i = None ↔ ¬ (- Z.of_nat n ≤ i < Z.of_nat n).
Proof.
  unfold py_index. repeat case_decide; split; (done || lia).
Qed.

Lemma matrix_set_ok n m i j v r c :
  square n m → py_index n i = Some r → py_index n j = Some c →
  ∃ m', matrix_set m i j v = Ok m' ∧ square n m'
        ∧ ∀ a b, cell m' a b = if decide (a = r ∧ b = c) then Some v else cell m a b.
Proof.
  intros [Hlen Hrows] Hr Hc.
  pose proof (py_index_Some _ _ _ Hr) as Hrn.
  pose proof (py_index_Some _ _ _ Hc) as Hcn.
  destruct (lookup_lt_is_Some_2 m r) as [row Hrow]; [lia|].
  assert (length row = n) as Hrowlen.
  { rewrite Forall_forall in Hrows. apply Hrows. by eapply list_elem_of_lookup_2. }
  unfold matrix_set. rewrite Hlen, Hr, Hrow, Hrowlen, Hc.
  eexists. split; [done|]. split.
  - split; [by rewrite length_insert|].
    apply Forall_insert; [done|]. by rewrite length_insert.
  - intros a b. unfold cell. destruct (decide (a = r)) as [->|Ha].
    + rewrite list_lookup_insert_eq by lia. rewrite Hrow. simpl.
      destruct (decide (b = c)) as [->|Hb].
      * rewrite decide_True by done. apply list_lookup_insert_eq. lia.
      * rewrite decide_False by tauto. by apply list_lookup_insert_ne.
    + rewrite decide_False by tauto. by rewrite list_lookup_insert_ne.
Qed.

Lemma matrix_set_fail n m i j v :
  square n m → py_index n i = None ∨ py_index n j = None →
  matrix_set m i j v = Raise IndexError.
Proof.
  intros [Hlen Hrows] Hbad. unfold matrix_set. rewrite Hlen.
  destruct (py_index n i) as [r|] eqn:Hr; [|done].
  destruct (m !! r) as [row|] eqn:Hrow; [|done].
  assert (length row = n) as ->.
  { rewrite Forall_forall in Hrows. apply Hrows. by eapply list_elem_of_lookup_2. }
  destruct Hbad as [? | ->]; done.
Qed.

(** The matrix after the loop that writes the diagonal. *)
Lemma diagonal_spec (n k : nat) :
  (k ≤ n)%nat →
  ∃ m, foldl (λ acc i, let! m := acc in matrix_set m i i (Fin 0))
             (Ok (replicate n (replicate n Inf))) (seqZ 0 (Z.of_nat k)) = Ok m
       ∧ square n m
       ∧ ∀ a b, (a < n)%nat → (b < n)%nat →
                cell m a b = Some (if decide (a = b ∧ (a < k)%nat) then Fin 0 else Inf).
Proof.
  induction k as [|k IH]; intros Hk.
  - simpl. eexists. split; [done|]. split.
    + split; [by rewrite length_replicate|].
      apply Forall_replicate. by rewrite length_replicate.
    + intros a b Ha Hb. unfold cell. rewrite lookup_replicate_2 by done. simpl.
      rewrite lookup_replicate_2 by done. by rewrite decide_False by lia.
  - destruct IH as (m & Hm & Hsq & Hcell); [lia|].
    rewrite seqZ_S, foldl_app, Hm. simpl.
    destruct (matrix_set_ok n m (Z.of_nat k) (Z.of_nat k) (Fin 0) k k Hsq)
      as (m' & Hset & Hsq' & Hcell').
    { rewrite py_index_in by lia. by rewrite Nat2Z.id. }
    { rewrite py_index_in by lia. by rewrite Nat2Z.id. }
    exists m'. split; [done|]. split; [done|].
    intros a b Ha Hb. rewrite Hcell'. case_decide as Hab.
    + destruct Hab as [-> ->]. by rewrite decide_True by lia.
    + rewrite Hcell by done. f_equal.
      repeat case_decide; (done || lia).
Qed.

(** What one round of the loop over the edges writes. *)
Lemma adjacency_step_ok n d m e :
  square n m →
  0 ≤ Edge.source e < Z.of_nat n → 0 ≤ Edge.target e < Z.of_nat n →
  ∃ m', adjacency_step d (Ok m) e = Ok m' ∧ square n m'
        ∧ ∀ i j, 0 ≤ i → 0 ≤ j →
                 cell m' (Z.to_nat i) (Z.to_nat j)
                 = if edge_matches d i j e then Some (Fin (Edge.weight e))
                   else cell m (Z.to_nat i) (Z.to_nat j).
Proof.
  intros Hsq Hs Ht. unfold adjacency_step. simpl.
  destruct (matrix_set_ok n m (Edge.source e) (Edge.target e) (Fin (Edge.weight e))
              (Z.to_nat (Edge.source e)) (Z.to_nat (Edge.target e)) Hsq)
    as (m1 & Hset1 & Hsq1 & Hcell1); [by apply py_index_in..|].
  rewrite Hset1. simpl. destruct d.
  - exists m1. split; [done|]. split; [done|].
    intros i j Hi Hj. rewrite Hcell1. unfold edge_matches. simpl.
    rewrite orb_false_r.
    repeat case_decide; repeat case_bool_decide; simpl; try done; lia.
  - destruct (matrix_set_ok n m1 (Edge.target e) (Edge.source e) (Fin (Edge.weight e))
                (Z.to_nat (Edge.target e)) (Z.to_nat (Edge.source e)) Hsq1)
      as (m2 & Hset2 & Hsq2 & Hcell2); [by apply py_index_in..|].
    exists m2. split; [done|]. split; [done|].
    intros i j Hi Hj. rewrite Hcell2, Hcell1. unfold edge_matches. simpl.
    repeat case_decide; repeat case_bool_decide; simpl; try done; lia.
Qed.

Lemma adjacency_fold_ok n d es m :
  square n m →
  Forall (λ e, 0 ≤ Edge.source e < Z.of_nat n ∧ 0 ≤ Edge.target e < Z.of_nat n) es →
  ∃ m', foldl (adjacency_step d) (Ok m) es = Ok m' ∧ square n m'
        ∧ ∀ i j, 0 ≤ i → 0 ≤ j →
                 cell m' (Z.to_nat i) (Z.to_nat j)
                 = match last (filter (λ e, edge_matches d i j e = true) es) with
                   | Some e => Some (Fin (Edge.weight e))
                   | None => cell m (Z.to_nat i) (Z.to_nat j)
                   end.
Proof.
  intros Hsq Hall. revert m Hsq.
  induction Hall as [|e es [Hs Ht] _ IH]; intros m Hsq.
  - exists m. by split_and!.
  - destruct (adjacency_step_ok n d m e Hsq Hs Ht) as (m1 & Hstep & Hsq1 & Hcell1).
    destruct (IH m1 Hsq1) as (m' & Hfold & Hsq' & Hcell').
    exists m'.
    change (foldl (adjacency_step d) (Ok m) (e :: es))
      with (foldl (adjacency_step d) (adjacency_step d (Ok m) e) es).
    rewrite Hstep. split; [done|]. split; [done|].
    intros i j Hi Hj. rewrite Hcell', Hcell1 by done.
    rewrite filter_cons. destruct (edge_matches d i j e) eqn:E.
    + rewrite decide_True by done. rewrite last_cons.
      by destruct (last _).
    + by rewrite decide_False by congruence.
Qed.

(** The loop over the edges keeps failing once it has failed, and fails
    on an edge with an endpoint that is no valid index. *)
Lemma adjacency_fold_fail n d es :
  Exists (λ e, ¬ (- Z.of_nat n ≤ Edge.source e < Z.of_nat n)
               ∨ ¬ (- Z.of_nat n ≤ Edge.target e < Z.of_nat n)) es →
  ∀ acc, (acc = Raise IndexError ∨ ∃ m, acc = Ok m ∧ square n m) →
         foldl (adjacency_step d) acc es = Raise IndexError.
Proof.
  assert (∀ acc e, (acc = Raise IndexError ∨ ∃ m, acc = Ok m ∧ square n m) →
                   adjacency_step d acc e = Raise IndexError
                   ∨ ∃ m, adjacency_step d acc e = Ok m ∧ square n m) as Hstep.
  { intros acc e [->|(m & -> & Hsq)]; [by left|].
    unfold adjacency_step. simpl.
    destruct (py_index n (Edge.source e)) as [r|] eqn:Hr;
      [|left; by rewrite (matrix_set_fail n) by auto].
    destruct (py_index n (Edge.target e)) as [c|] eqn:Hc;
      [|left; by rewrite (matrix_set_fail n) by auto].
    destruct (matrix_set_ok n m _ _ (Fin (Edge.weight e)) r c Hsq Hr Hc)
      as (m1 & Hm1 & Hsq1 & _). rewrite Hm1. simpl.
    destruct d; [right; eauto|].
    destruct (matrix_set_ok n m1 _ _ (Fin (Edge.weight e)) c r Hsq1 Hc Hr)
      as (m2 & Hm2 & Hsq2 & _). rewrite Hm2. right; eauto. }
  assert (∀ es acc, acc = Raise IndexError →
                    foldl (adjacency_step d) acc es = Raise IndexError) as Hstuck.
  { clear. intros es. induction es as [|e es IH]; intros acc ->; [done|]. by apply IH. }
  induction 1 as [e es Hbad|e es _ IH]; intros acc Hacc; simpl.
  - apply Hstuck. destruct Hacc as [->|(m & -> & Hsq)]; [done|].
    unfold adjacency_step. simpl.
    destruct (py_index n (Edge.source e)) as [r|] eqn:Hr;
      [|by rewrite (matrix_set_fail n) by auto].
    destruct (py_index n (Edge.target e)) as [c|] eqn:Hc;
      [|by rewrite (matrix_set_fail n) by auto].
    exfalso. destruct Hbad as [Hbad|Hbad]; apply Hbad.
    + destruct (decide (- Z.of_nat n ≤ Edge.source e < Z.of_nat n)) as [|Hn]; [done|].
      apply py_index_None in Hn. congruence.
    + destruct (decide (- Z.of_nat n ≤ Edge.target e < Z.of_nat n)) as [|Hn]; [done|].
      apply py_index_None in Hn. congruence.
  - apply IH. by apply Hstep.
Qed.
End matrix_facts.

(** X10: when every edge endpoint is an id from 0 up to the number of
    vertices, [get_adjacency_matrix] returns a square matrix with one row
    and one column per vertex whose entry [(i, j)] is the weight of the last
    stored edge that joins [i] and [j] (in either orientation when the graph
    is undirected), 0 on the diagonal and infinity elsewhere when no edge
    joins them. *)
Theorem adjacency_matrix_entries g :
  Forall (λ e, 0 ≤ Edge.source e < Z.of_nat (length (nodes g))
               ∧ 0 ≤ Edge.target e < Z.of_nat (length (nodes g))) (edges g) →
  ∃ matrix,
    get_adjacency_matrix g = Ok matrix
    ∧ length matrix = length (nodes g)
    ∧ Forall (λ row, length row = length (nodes g)) matrix
    ∧ ∀ i j, 0 ≤ i < Z.of_nat (length (nodes g)) →
             0 ≤ j < Z.of_nat (length (nodes g)) →
             cell matrix (Z.to_nat i) (Z.to_nat j) = Some (matrix_entry g i j).
Proof.
  intros Hall. unfold get_adjacency_matrix.
  destruct (diagonal_spec (length (nodes g)) (length (nodes g))) as (m0 & Hm0 & Hsq0 & Hcell0);
    [done|]. rewrite Hm0. simpl.
  destruct (adjacency_fold_ok _ (directed g) (edges g) m0 Hsq0 Hall)
    as (m & Hm & [Hlen Hrows] & Hcell). rewrite Hm.
  exists m. split_and!; [done..|].
  intros i j Hi Hj. rewrite Hcell by lia. unfold matrix_entry.
  destruct (last _); [done|].
  rewrite Hcell0 by lia. f_equal. repeat case_decide; (done || lia).
Qed.

Lemma adjacency_matrix_entries_witness :
  let g := sample_graph false 3 [(0, 1, 4); (1, 2, 5); (0, 1, 7)] in
  ∃ matrix, get_adjacency_matrix g = Ok matrix
            ∧ cell matrix 1 0 = Some (Fin 7) ∧ cell matrix 0 2 = Some Inf.
Proof.
  intros g.
  destruct (adjacency_matrix_entries g) as (matrix & Hm & _ & _ & Hcell).
  { repeat constructor; vm_compute; done. }
  exists matrix. split; [exact Hm|]. split.
  - apply (Hcell 1 0); vm_compute; done.
  - apply (Hcell 0 2); vm_compute; done.
Defined.

(** X11: [get_adjacency_matrix] fails with [IndexError] as soon as a stored
    edge has an endpoint that is no valid index of a list with as many
    entries as the graph has vertices, which is what happens after a vertex
    other than the last one has been removed. *)
Theorem adjacency_matrix_index_error g :
  Exists (λ e, ¬ (- Z.of_nat (length (nodes g)) ≤ Edge.source e < Z.of_nat (length (nodes g)))
               ∨ ¬ (- Z.of_nat (length (nodes g)) ≤ Edge.target e < Z.of_nat (length (nodes g))))
         (edges g) →
  get_adjacency_matrix g = Raise IndexError.
Proof.
  intros Hbad. unfold get_adjacency_matrix.
  destruct (diagonal_spec (length (nodes g)) (length (nodes g))) as (m0 & Hm0 & Hsq0 & _);
    [done|]. rewrite Hm0. simpl.
  apply (adjacency_fold_fail (length (nodes g))); [done|]. right. eauto.
Qed.

Lemma adjacency_matrix_index_error_witness :
  get_adjacency_matrix (remove_node (sample_graph false 3 [(1, 2, 1)]) 0)
  = Raise IndexError.
Proof.
  apply adjacency_matrix_index_error.
  apply Exists_cons_hd. right. vm_compute. intros [_ H]. done.
Defined.

(** ** The path that Dijkstra reports *)

Section path_facts.
Variable g : Graph.
Variable start : Z.
Hypothesis Hweights : weights_nonnegative g.
Hypothesis Hclosed : edges_closed g.
Hypothesis Hstart : start ∈ node_ids g.














End path_facts.





(** X28: what is printed is the distance as a float. On the graph with the
    two vertices 0 and 1 and one edge of weight 2^53 + 1 between them, the
    least weight of a path from 0 to 1 is 2^53 + 1; both reports print it
    as 2^53, the nearest double. *)
Lemma dijkstra_prints_nearest_double :
  let g := sample_graph false 2 [(0, 1, 2 ^ 53 + 1)] in
  weights_nonnegative g
  ∧ shortest_distance g 0 1 (2 ^ 53 + 1)
  ∧ (Dijkstra_run 10 (Some 0) None g).2
    = Ok (DAll 0 [(0, Fin 0, None); (1, Fin (2 ^ 53), Some [0; 1])])
  ∧ (Dijkstra_run 10 (Some 0) (Some 1) g).2 = Ok (DPath 0 1 [0; 1] (2 ^ 53)).
Proof.
  intros g.
  assert (weights_nonnegative g) as Hweights.
  { apply (bool_decide_unpack _). vm_compute. exact I. }
  split_and!; [done| |by vm_compute..].
  split.
  - change (2 ^ 53 + 1)
      with (0 + Edge.weight (Edge.mk 0 1 (2 ^ 53 + 1) false Edge.default_color)).
    apply walk_edge with (u := 0).
    + constructor.
    + vm_compute. set_solver.
    + by left.
  - intros d' Hwalk. inversion Hwalk as [Heq | u v e w Hw He Hjoin]; subst.
    apply (walk_nonneg g 0 Hweights) in Hw.
    assert (e = Edge.mk 0 1 (2 ^ 53 + 1) false Edge.default_color) as ->.
    { vm_compute in He. set_solver. }
    simpl. lia.
Qed.

(** ** The report of the component search *)

Section component_groups.
Variable g : Graph.



Lemma keys_tagged (new : list Z) (c : Z) : PyDict.keys ((λ v, (v, c)) <$> new) = new.
Proof. unfold PyDict.keys. by rewrite <- list_fmap_compose, list_fmap_id. Qed.


















End component_groups.







(** ** Normal forms of cycles *)

Section normalize_facts.
Implicit Types (l c : list Z).

Lemma list_min_elem a rest : list_min a rest ∈ a :: rest.
Proof.
  unfold list_min. revert a. induction rest as [|b rest IH]; intros a; simpl; [left|].
  specialize (IH (a `min` b)).
  destruct (Z.min_spec a b) as [[_ Heq]|[_ Heq]]; rewrite Heq in IH |- *.
  - apply elem_of_cons in IH as [Ha|IH]; [rewrite Ha; left | right; by right].
  - right. done.
Qed.

Lemma list_min_unique a rest m :
  m ∈ a :: rest → (∀ v, v ∈ a :: rest → m ≤ v) → list_min a rest = m.
Proof.
  intros Hm Hle. pose proof (list_min_elem a rest) as Hin.
  destruct (list_min_le a rest) as [Ha Hrest]. rewrite Forall_forall in Hrest.
  assert (list_min a rest ≤ m) by (apply elem_of_cons in Hm as [->|Hm]; auto).
  specialize (Hle _ Hin). lia.
Qed.

Lemma index_of_lookup v l : v ∈ l → l !! index_of v l = Some v.
Proof.
  induction l as [|a l IH]; simpl; [by intros ?%elem_of_nil|].
  case_decide; [by subst|]. intros [->|Hin]%elem_of_cons; [done|]. by apply IH.
Qed.

Lemma rotation_of_refl c : rotation_of c c.
Proof. exists [], c. by rewrite app_nil_r. Qed.

Lemma rotation_of_trans l1 l2 c :
  rotation_of l1 l2 → rotation_of l2 c → rotation_of l1 c.
Proof.
  intros (a' & b' & Hl2 & ->) (a & b & -> & ->).
  apply app_eq_inv in Hl2 as [(k & -> & ->)|(k & -> & ->)].
  - exists (a ++ a'), k. by rewrite <- !app_assoc.
  - exists k, (b' ++ b). by rewrite <- !app_assoc.
Qed.

Lemma rotation_of_sym l c : rotation_of l c → rotation_of c l.
Proof. intros (a & b & -> & ->). by exists b, a. Qed.

Lemma rotation_of_elem l c v : rotation_of l c → v ∈ l ↔ v ∈ c.
Proof. intros (a & b & -> & ->). rewrite !elem_of_app. tauto. Qed.

(** Two readings of a duplicate-free cycle that begin with the same
    vertex are the same list. *)
Lemma rotation_of_unique l1 l2 c m :
  NoDup c → rotation_of l1 c → rotation_of l2 c →
  head l1 = Some m → head l2 = Some m → l1 = l2.
Proof.
  assert (∀ l, rotation_of l c → head l = Some m →
               ∃ a b, c = a ++ m :: b ∧ l = m :: b ++ a) as Hsplit.
  { intros l (a & b & -> & ->) Hhead. destruct b as [|x b].
    - destruct a as [|x a]; [done|]. injection Hhead as ->.
      exists [], a. by rewrite !app_nil_r.
    - injection Hhead as ->. by exists a, b. }
  intros Hnd H1 H2 Hh1 Hh2.
  destruct (Hsplit l1 H1 Hh1) as (a1 & b1 & Hc1 & ->).
  destruct (Hsplit l2 H2 Hh2) as (a2 & b2 & Hc2 & ->).
  assert (∀ a b, NoDup (a ++ m :: b) → m ∉ a) as Hfresh.
  { intros a b (_ & Ha & _)%NoDup_app Hin. apply (Ha m Hin). left. }
  pose proof Hnd as Hnd'. rewrite Hc1 in Hnd. rewrite Hc2 in Hnd'.
  rewrite Hc1 in Hc2.
  apply not_elem_of_app_cons_inv_l in Hc2 as (-> & _ & ->); [done|eauto..].
Qed.

Lemma normalize_rotation c : rotation_of (_normalize_cycle c) c.
Proof.
  destruct c as [|a rest]; [apply rotation_of_refl|]. unfold _normalize_cycle.
  exists (take (index_of (list_min a rest) (a :: rest)) (a :: rest)),
         (drop (index_of (list_min a rest) (a :: rest)) (a :: rest)).
  by rewrite take_drop.
Qed.

Lemma normalize_head a rest :
  head (_normalize_cycle (a :: rest)) = Some (list_min a rest).
Proof.
  unfold _normalize_cycle.
  pose proof (index_of_lookup _ _ (list_min_elem a rest)) as Hi.
  rewrite (drop_S _ _ _ Hi). done.
Qed.

Lemma normalize_least_first m rest :
  (∀ v, v ∈ rest → m ≤ v) → _normalize_cycle (m :: rest) = m :: rest.
Proof.
  intros Hle. unfold _normalize_cycle.
  rewrite (list_min_unique m rest m); [|left|].
  - simpl. rewrite decide_True by done. simpl. by rewrite app_nil_r.
  - intros v [->|Hv]%elem_of_cons; [lia | auto].
Qed.
End normalize_facts.

(** X16: [_normalize_cycle] returns a rotation of the cycle it is given
    that begins with the least vertex of the cycle; normalising twice is
    the same as normalising once; and all rotations of a cycle without
    repeated vertices have the same normal form. *)
Theorem normalize_cycle_canonical (cycle : list Z) :
  rotation_of (_normalize_cycle cycle) cycle
  ∧ (∀ m, head (_normalize_cycle cycle) = Some m → m ∈ cycle ∧ ∀ v, v ∈ cycle → m ≤ v)
  ∧ _normalize_cycle (_normalize_cycle cycle) = _normalize_cycle cycle
  ∧ (NoDup cycle → ∀ other, rotation_of other cycle →
     _normalize_cycle other = _normalize_cycle cycle).
Proof.
  assert (∀ c m, head (_normalize_cycle c) = Some m → m ∈ c ∧ ∀ v, v ∈ c → m ≤ v) as Hleast.
  { intros [|a rest] m; [done|]. rewrite normalize_head. intros [= <-].
    split; [apply list_min_elem|].
    destruct (list_min_le a rest) as [Ha Hrest]. rewrite Forall_forall in Hrest.
    intros v [->|Hv]%elem_of_cons; auto. }
  split_and!.
  - apply normalize_rotation.
  - apply Hleast.
  - destruct (_normalize_cycle cycle) as [|m rest] eqn:Hn; [done|].
    destruct (Hleast cycle m) as [_ Hle]; [by rewrite Hn|].
    apply normalize_least_first. intros v Hv. apply Hle.
    apply (rotation_of_elem _ _ v (normalize_rotation cycle)). rewrite Hn. by right.
  - intros Hnd other Hrot. destruct cycle as [|a rest].
    { destruct Hrot as (x & y & Hxy & ->). by destruct x, y. }
    destruct other as [|a' rest'].
    { destruct Hrot as (x & y & Hxy & Hother). by destruct x, y. }
    apply (rotation_of_unique _ _ (a :: rest) (list_min a rest) Hnd).
    + eapply rotation_of_trans; [apply normalize_rotation | done].
    + apply normalize_rotation.
    + rewrite normalize_head. f_equal. apply list_min_unique.
      * apply (rotation_of_elem _ _ _ Hrot), list_min_elem.
      * intros v Hv%(rotation_of_elem _ _ _ Hrot).
        destruct (list_min_le a rest) as [Ha Hrest]. rewrite Forall_forall in Hrest.
        apply elem_of_cons in Hv as [->|Hv]; auto.
    + apply normalize_head.
Qed.

(** ** Cycle enumeration on undirected graphs *)

Section undirected_cycles.
Variable g : Graph.


Lemma ucycle_step_stuck fuel start current path parent ns acc cs :
  (∀ cs', acc ≠ Ok cs') →
  foldl (ucycle_step g fuel start current path parent) acc ns ≠ Ok cs.
Proof.
  revert acc. induction ns as [|n ns IH]; intros acc Hacc; simpl; [apply Hacc|].
  apply IH. intros cs'. destruct acc; simpl; [by destruct (Hacc a) | done | done].
Qed.







End undirected_cycles.



(** ** The Eulerian analysis of directed graphs *)

Section directed_eulerian.
Variable g : Graph.
Hypothesis Hnd : NoDup (node_ids g).

Lemma incr_fold_count (f : Edge.t → Z) es d v :
  count_of (foldl (λ d e, incr d (f e)) d es) v
  = count_of d v + Z.of_nat (length (filter (λ e, f e = v) es)).
Proof.
  revert d. induction es as [|e es IH]; intros d; simpl; [lia|].
  rewrite IH, count_of_incr, filter_cons. case_decide; simpl; lia.
Qed.

Lemma fill_fresh {V} (F : Z → V) l :
  ∀ d, NoDup l → (∀ v, v ∈ l → v ∉ PyDict.keys d) →
       foldl (λ d node, PyDict.set d node (F node)) d l = d ++ ((λ v, (v, F v)) <$> l).
Proof.
  induction l as [|a l IH]; intros d Hl Hfresh; simpl; [by rewrite app_nil_r|].
  apply NoDup_cons in Hl as [Ha Hl].
  rewrite keys_set_notin by (apply Hfresh; left).
  rewrite IH; [by rewrite <- app_assoc|done|].
  intros v Hv. unfold PyDict.keys. rewrite fmap_app, elem_of_app. simpl.
  intros [Hin| ->%list_elem_of_singleton]; [|done].
  apply (Hfresh v); [by right | done].
Qed.

Lemma get_fmap_pair {V} (F : Z → V) l v :
  v ∈ l → PyDict.get ((λ v, (v, F v)) <$> l) v = Some (F v).
Proof.
  induction l as [|a l IH]; [by intros ?%elem_of_nil|].
  rewrite fmap_cons. cbn [PyDict.get]. case_decide; [by subst|].
  intros [->|Hin]%elem_of_cons; [done | auto].
Qed.

(** The table [degrees] of the directed branch. *)
Lemma compute_degrees_directed_spec :
  PyDict.keys (compute_degrees_directed g) = node_ids g
  ∧ ∀ v, v ∈ node_ids g →
         PyDict.get (compute_degrees_directed g) v
         = Some (Z.of_nat (in_degree g v), Z.of_nat (out_degree g v)).
Proof.
  unfold compute_degrees_directed. cbv zeta.
  rewrite fill_fresh; [|done|by intros ? _ ?%elem_of_nil]. simpl. split.
  - unfold PyDict.keys. by rewrite <- list_fmap_compose, list_fmap_id.
  - intros v Hv. rewrite get_fmap_pair by done. f_equal.
    pose proof (incr_fold_count Edge.target (edges g) [] v) as Hin.
    pose proof (incr_fold_count Edge.source (edges g) [] v) as Hout.
    unfold count_of in Hin, Hout. simpl in Hin, Hout.
    unfold in_degree, out_degree. f_equal; lia.
Qed.

(** The three lists that the analysis builds from the degrees. *)
Lemma filter_diffs (P : Z * Z → Prop) `{∀ x, Decision (P x)}
    (Q : Z → Prop) `{∀ x, Decision (Q x)} (h : Z → Z * Z) (l : list Z) :
  (∀ v, v ∈ l → (h v).1 = v ∧ (P (h v) ↔ Q v)) →
  (filter P (h <$> l)).*1 = filter Q l.
Proof.
  induction l as [|a l IH]; intros Hl; [done|].
  destruct (Hl a) as [Ha HPQ]; [left|].
  rewrite fmap_cons, !filter_cons.
  destruct (decide (P (h a))) as [HP|HP].
  - rewrite decide_True by (by apply HPQ). rewrite fmap_cons, Ha. f_equal.
    apply IH. intros v Hv. apply Hl. by right.
  - rewrite decide_False by (by rewrite <- HPQ).
    apply IH. intros v Hv. apply Hl. by right.
Qed.

Lemma analyze_directed_lists fuel first :
  _analyze_directed fuel g first (compute_degrees_directed g)
  = let start_candidates := filter (λ v, balance g v = 1) (sorted (node_ids g)) in
    let end_candidates := filter (λ v, balance g v = -1) (sorted (node_ids g)) in
    let other_unbalanced :=
      filter (λ v, balance g v ≠ 0 ∧ balance g v ≠ 1 ∧ balance g v ≠ -1)
             (sorted (node_ids g)) in
    match start_candidates, end_candidates, other_unbalanced with
    | [], [], [] =>
        let! circuit := _find_eulerian_circuit fuel g first in
        Ok (ECircuit circuit)
    | [start], [end_], [] =>
        let! path := _find_eulerian_circuit fuel g start in
        Ok (EPath [start; end_] path)
    | _, _, _ => Ok (ENeither (start_candidates ++ end_candidates ++ other_unbalanced))
    end.
Proof.
  destruct compute_degrees_directed_spec as [Hkeys Hget].
  unfold _analyze_directed. cbv zeta. rewrite Hkeys.
  assert (∀ v, v ∈ sorted (node_ids g) →
               PyDict.get (compute_degrees_directed g) v
               = Some (Z.of_nat (in_degree g v), Z.of_nat (out_degree g v))) as Hsorted.
  { intros v Hv. apply Hget. unfold sorted in Hv. by rewrite sorted_by_perm in Hv. }
  rewrite !(filter_diffs (λ item : Z * Z, item.2 = 1) (λ v, balance g v = 1)),
          !(filter_diffs (λ item : Z * Z, item.2 = -1) (λ v, balance g v = -1)),
          !(filter_diffs (λ item : Z * Z, item.2 ≠ 0 ∧ item.2 ≠ 1 ∧ item.2 ≠ -1)
              (λ v, balance g v ≠ 0 ∧ balance g v ≠ 1 ∧ balance g v ≠ -1));
    try (intros v Hv; rewrite (Hsorted v Hv); simpl; unfold balance; done).
  done.
Qed.

Lemma filter_sorted_length (P : Z → Prop) `{∀ x, Decision (P x)} :
  length (filter P (sorted (node_ids g))) = length (filter P (node_ids g)).
Proof. unfold sorted. by rewrite sorted_by_perm. Qed.

Lemma filter_nil_iff {A} (P : A → Prop) `{∀ x, Decision (P x)} (l : list A) :
  filter P l = [] ↔ Forall (λ x, ¬ P x) l.
Proof.
  induction l as [|a l IH]; [by split|].
  rewrite filter_cons, Forall_cons. case_decide; [|rewrite IH; tauto].
  split; [done | tauto].
Qed.

Lemma all_balanced_iff :
  (∀ v, v ∈ node_ids g → balance g v = 0)
  ↔ length (vertices_with_balance g 1) = 0%nat
    ∧ length (vertices_with_balance g (-1)) = 0%nat
    ∧ length (far_from_balance g) = 0%nat.
Proof.
  unfold vertices_with_balance, far_from_balance.
  rewrite !length_zero_iff_nil. split.
  - intros Hall. split_and!; apply filter_nil_iff, Forall_forall;
      intros v Hv; rewrite (Hall v Hv); lia.
  - intros (H1 & H2 & H3) v Hv.
    rewrite filter_nil_iff, Forall_forall in H1, H2, H3.
    specialize (H1 v Hv). specialize (H2 v Hv). specialize (H3 v Hv). simpl in *. lia.
Qed.
End directed_eulerian.

(** X18: on a non-empty directed graph with distinct ids and at least one
    edge the Eulerian analysis returns a report, given enough fuel. It
    reports a circuit exactly when every vertex has as many edges leaving
    as entering; a path exactly when one vertex has one more edge leaving
    than entering, one vertex has one more entering than leaving, and every
    other vertex is balanced; and neither in every other case. *)
Theorem eulerian_directed_verdict g fuel start_node :
  NoDup (node_ids g) → directed g = true →
  nodes g ≠ [] → edges g ≠ [] → (eulerian_fuel g ≤ fuel)%nat →
  ∃ r, (Eulerian_run fuel start_node g).2 = Ok r
       ∧ ((∃ circuit, r = ECircuit circuit) ↔ ∀ v, v ∈ node_ids g → balance g v = 0)
       ∧ ((∃ ends path, r = EPath ends path)
          ↔ length (vertices_with_balance g 1) = 1%nat
            ∧ length (vertices_with_balance g (-1)) = 1%nat
            ∧ length (far_from_balance g) = 0%nat)
       ∧ ((∃ unbalanced, r = ENeither unbalanced)
          ↔ ¬ (∀ v, v ∈ node_ids g → balance g v = 0)
            ∧ ¬ (length (vertices_with_balance g 1) = 1%nat
                 ∧ length (vertices_with_balance g (-1)) = 1%nat
                 ∧ length (far_from_balance g) = 0%nat)).
Proof.
  intros Hnd Hdir Hnodes Hedges Hfuel.
  unfold Eulerian_run, reading, Eulerian_body, Eulerian_from. simpl.
  destruct (nodes g) as [|[first n] rest] eqn:En; [done|].
  destruct (edges g) as [|e es] eqn:Ees; [done|]. rewrite Hdir.
  rewrite (analyze_directed_lists g Hnd). cbv zeta.
  setoid_rewrite (all_balanced_iff g).
  unfold vertices_with_balance, far_from_balance.
  setoid_rewrite <- (filter_sorted_length g).
  destruct (filter (λ v, balance g v = 1) (sorted (node_ids g))) as [|s [|s2 a]];
    destruct (filter (λ v, balance g v = -1) (sorted (node_ids g))) as [|t [|t2 b]];
    destruct (filter (λ v, balance g v ≠ 0 ∧ balance g v ≠ 1 ∧ balance g v ≠ -1)
                     (sorted (node_ids g))) as [|x c];
    try (destruct (find_eulerian_circuit_terminates fuel g first Hfuel) as [p Hp];
         rewrite Hp);
    try (destruct (find_eulerian_circuit_terminates fuel g s Hfuel) as [p' Hp'];
         rewrite Hp');
    simpl; (eexists; split; [done|]);
    (split_and!;
       [ split; [intros (? & H) | intros H]
       | split; [intros (? & ? & H) | intros H]
       | split; [intros (? & H) | intros H] ]);
    try discriminate; simpl in *; try lia; eauto.
Qed.

Lemma eulerian_directed_verdict_witness :
  let g := sample_graph true 3 [(0, 1, 1); (1, 2, 1); (2, 0, 1)] in
  ∃ r, (Eulerian_run 20 None g).2 = Ok r
       ∧ ((∃ circuit, r = ECircuit circuit) ↔ ∀ v, v ∈ node_ids g → balance g v = 0).
Proof.
  intros g.
  destruct (eulerian_directed_verdict g 20%nat None) as (r & Hrun & Hcircuit & _).
  - vm_compute. repeat constructor; set_solver.
  - reflexivity.
  - discriminate.
  - discriminate.
  - vm_compute. lia.
  - exists r. split; [exact Hrun | exact Hcircuit].
Defined.

(** ** The order of the breadth-first traversal *)

Section bfs_levels_facts.
Variable g : Graph.
Variable start : Z.

Lemma StronglySorted_ext_in {A} (R R' : relation A) (l : list A) :
  (∀ x y, x ∈ l → y ∈ l → R x y → R' x y) →
  StronglySorted R l → StronglySorted R' l.
Proof.
  intros Hext Hs. induction Hs as [|a l Hs IH Hall]; constructor.
  - apply IH. intros x y Hx Hy. apply Hext; by right.
  - rewrite Forall_forall in Hall |- *. intros y Hy.
    apply Hext; [left | by right | auto].
Qed.

Lemma StronglySorted_lookup {A} (R : relation A) (l : list A) i j x y :
  StronglySorted R l → (i < j)%nat → l !! i = Some x → l !! j = Some y → R x y.
Proof.
  intros Hs. revert i j. induction Hs as [|a l Hs IH Hall]; intros i j Hij Hi Hj; [done|].
  destruct j as [|j]; [lia|]. destruct i as [|i].
  - injection Hi as ->. rewrite Forall_forall in Hall. apply Hall.
    by eapply list_elem_of_lookup_2.
  - apply (IH i j); [lia | done | done].
Qed.

Lemma StronglySorted_constant (f : Z → nat) (c : nat) (l : list Z) :
  (∀ v, v ∈ l → f v = c) → StronglySorted (λ u v, (f u ≤ f v)%nat) l.
Proof.
  induction l as [|a l IH]; intros Hc; constructor.
  - apply IH. intros v Hv. apply Hc. by right.
  - apply Forall_forall. intros v Hv.
    rewrite (Hc a) by left. rewrite (Hc v) by (by right). done.
Qed.

Lemma distance_unique v n m : distance g start v n → distance g start v m → n = m.
Proof. intros [H1 H2] [H3 H4]. specialize (H2 m H3). specialize (H4 n H1). lia. Qed.

Lemma initial_levels : bfs_levels g start (λ _, 0%nat) {[start]} [start] [].
Proof.
  constructor; simpl.
  - intros v. set_solver.
  - done.
  - intros v ->%list_elem_of_singleton. split; [constructor | lia].
  - repeat constructor.
  - intros q rest [= <- <-] v _. lia.
  - intros q rest [= <- <-] w m Hm. split; [lia|].
    intros Hle. assert (m = 0%nat) as -> by lia. inversion Hm. left.
  - by intros u v ?%elem_of_nil.
Qed.

(** One round of the loop keeps the vertices ordered by level. *)
Lemma bfs_levels_step lvl visited q rest order :
  bfs_levels g start lvl visited (q :: rest) order →
  ∃ lvl',
    bfs_levels g start lvl'
      (foldl bfs_visit (visited, rest) (get_neighbors g q)).1
      (foldl bfs_visit (visited, rest) (get_neighbors g q)).2
      (order ++ [q]).
Proof.
  intros [I1 I2 I3 I4 I5 I6 I7].
  destruct (bfs_visit_all (get_neighbors g q) visited rest)
    as (new & -> & Hnd & Hnew & Hall). cbn [fst snd].
  set (lvl' := λ v, if decide (v ∈ new) then S (lvl q) else lvl v).
  exists lvl'.
  assert (∀ v, v ∈ (order ++ [q]) ++ rest ++ new
               ↔ v ∈ order ++ q :: rest ∨ v ∈ new) as Hmem.
  { set_solver. }
  assert (∀ v, v ∈ order ++ q :: rest → v ∉ new) as Hold.
  { intros v Hv Hv'. apply Hnew in Hv' as [Hv' _]. apply Hv'. by apply I1. }
  assert (∀ v, v ∈ order ++ q :: rest → lvl' v = lvl v) as Hsame.
  { intros v Hv. unfold lvl'. by rewrite decide_False by (by apply Hold). }
  assert (∀ v, v ∈ new → lvl' v = S (lvl q)) as Hfresh.
  { intros v Hv. unfold lvl'. by rewrite decide_True. }
  assert (q ∈ order ++ q :: rest) as Hq by (apply elem_of_app; right; left).
  assert (∀ v, v ∈ (order ++ [q]) ++ rest ++ new → (lvl' v ≤ S (lvl q))%nat) as Hbound.
  { intros v [Hv|Hv]%Hmem; [rewrite Hsame by done; by eapply I5 | by rewrite Hfresh]. }
  assert (∀ v, v ∈ rest ++ new → (lvl q ≤ lvl' v)%nat) as Hlow.
  { intros v [Hv|Hv]%elem_of_app; [|rewrite Hfresh by done; lia].
    rewrite Hsame by (apply elem_of_app; right; by right).
    apply (StronglySorted_app_1_r _ order), StronglySorted_cons in I4 as [Hall' _].
    rewrite Forall_forall in Hall'. by apply Hall'. }
  assert (∀ u v, u ∈ order ++ [q] → v ∈ get_neighbors g u →
                 v ∈ (order ++ [q]) ++ rest ++ new) as Hclosed.
  { intros u v [Hu| ->%list_elem_of_singleton]%elem_of_app Hv.
    - apply Hmem. left. by eapply I7.
    - apply Hmem. specialize (Hall v Hv).
      apply elem_of_union in Hall as [Hv'|Hv'%elem_of_list_to_set]; [left; by apply I1 | by right]. }
  constructor.
  - intros v. rewrite Hmem, elem_of_union, elem_of_list_to_set, I1. tauto.
  - rewrite <- app_assoc. simpl. rewrite head_app in I2 |- *.
    destruct (head order); [done|]. by simpl in *.
  - intros v [Hv|Hv]%Hmem.
    + rewrite Hsame by done. by apply I3.
    + rewrite Hfresh by done. destruct (I3 q Hq) as [Hq1 Hq2]. split.
      * econstructor; [exact Hq1|]. by apply Hnew.
      * intros m Hm. destruct (decide (m ≤ lvl q)%nat) as [Hle|]; [|lia].
        exfalso. destruct (I6 q rest eq_refl v m Hm) as [_ Hin].
        by apply (Hold v (Hin Hle)).
  - replace ((order ++ [q]) ++ rest ++ new) with ((order ++ q :: rest) ++ new)
      by (by rewrite <- !app_assoc).
    apply StronglySorted_app_2.
    + intros u v Hu Hv. rewrite (Hsame u Hu), (Hfresh v Hv). by eapply I5.
    + eapply StronglySorted_ext_in; [|exact I4].
      intros u v Hu Hv. by rewrite (Hsame u Hu), (Hsame v Hv).
    + by apply (StronglySorted_constant lvl' (S (lvl q))).
  - intros q' rest' Hqueue v Hv.
    assert (lvl q ≤ lvl' q')%nat by (apply Hlow; rewrite Hqueue; left).
    specialize (Hbound v Hv). lia.
  - intros q' rest' Hqueue w m Hm.
    assert (q' ∈ rest ++ new) as Hq' by (rewrite Hqueue; left).
    assert (lvl q ≤ lvl' q')%nat as Hlo by by apply Hlow.
    assert (lvl' q' ≤ S (lvl q))%nat as Hhi.
    { apply Hbound. rewrite elem_of_app. by right. }
    assert (∀ w m, hops g start m w → (m ≤ lvl q)%nat → (lvl q < lvl' q')%nat →
                   w ∈ order ++ [q]) as Hdone.
    { intros w' m' Hm' Hle Hlt.
      destruct (I6 q rest eq_refl w' m' Hm') as [_ Hin]. specialize (Hin Hle).
      apply elem_of_app in Hin as [Hin|[->|Hin]%elem_of_cons];
        [apply elem_of_app; by left | apply elem_of_app; right; left |].
      exfalso. destruct rest as [|r rest0]; [by apply elem_of_nil in Hin|].
      simpl in Hqueue. injection Hqueue as -> _.
      assert (q' ∈ order ++ q :: q' :: rest0) as Hq'L.
      { apply elem_of_app. right. right. left. }
      assert (w' ∈ order ++ q :: q' :: rest0) as Hw'L.
      { apply elem_of_app. right. by right. }
      assert (lvl q' ≤ lvl w')%nat as Hqw.
      { apply elem_of_cons in Hin as [->|Hin]; [done|].
        apply (StronglySorted_app_1_r _ order), StronglySorted_cons in I4 as [_ I4'].
        apply StronglySorted_cons in I4' as [Hall' _].
        rewrite Forall_forall in Hall'. by apply Hall'. }
      destruct (I3 w' Hw'L) as [_ Hmin]. specialize (Hmin m' Hm').
      rewrite (Hsame q' Hq'L) in Hlt. lia. }
    split.
    + intros Hlt. destruct (decide (m < lvl q)%nat) as [Hlt'|Hge].
      * apply elem_of_app. left. by apply (I6 q rest eq_refl w m Hm).
      * apply (Hdone w m Hm); lia.
    + intros Hle. destruct (decide (m ≤ lvl q)%nat) as [Hle'|Hgt].
      * apply Hmem. left. by apply (I6 q rest eq_refl w m Hm).
      * assert (m = S (lvl q)) as -> by lia.
        inversion Hm as [|k p w' Hp Hpw]; subst.
        apply (Hclosed p w); [|done]. apply (Hdone p (lvl q) Hp); lia.
  - intros u v Hu Hv. by eapply Hclosed.
Qed.

(** Whenever the loop returns, the order it returns goes by levels. *)
Lemma bfs_loop_levels fuel :
  ∀ lvl visited queue order visited' order',
    bfs_levels g start lvl visited queue order →
    bfs_loop fuel g visited queue order = Ok (visited', order') →
    ∃ lvl', bfs_levels g start lvl' visited' [] order'.
Proof.
  induction fuel as [|fuel IH]; intros lvl visited queue order visited' order' Hinv.
  - destruct queue; [|done]. intros [= <- <-]. eauto.
  - destruct queue as [|q rest]; [intros [= <- <-]; eauto|]. simpl.
    destruct (bfs_levels_step lvl visited q rest order Hinv) as [lvl1 Hinv1].
    by apply IH with (lvl := lvl1).
Qed.
End bfs_levels_facts.

Section traversal_orders.
Variable g : Graph.


(** The two traversals from a vertex of the graph. *)
Lemma bfs_order_spec start fuel :
  has_node g start = true → (traversal_fuel g ≤ fuel)%nat →
  ∃ bfs_order,
    BFS_body fuel (Some start) g
    = Ok (TVisit start bfs_order (length bfs_order) (length (nodes g)))
    ∧ (∃ lvl visited, bfs_levels g start lvl visited [] bfs_order)
    ∧ NoDup bfs_order
    ∧ (∀ v, v ∈ bfs_order ↔ reachable g start v).
Proof.
  intros Hstart Hfuel. unfold BFS_body.
  destruct (nodes g) as [|[first n] rest] eqn:Hnodes.
  { unfold has_node in Hstart. by rewrite Hnodes in Hstart. }
  cbn [pick_start]. rewrite Hstart.
  destruct (bfs_loop_spec g start fuel {[start]} [start] [])
    as (visited & bfs_order & Hbfs & Hinv).
  { constructor; simpl.
    - apply NoDup_singleton.
    - set_solver.
    - set_solver.
    - intros v ->%list_elem_of_singleton. apply rtc_refl.
    - by intros u v ?%elem_of_nil.
    - intros v ->%list_elem_of_singleton. left. }
  { unfold traversal_fuel in Hfuel. simpl in *. lia. }
  destruct (bfs_inv_final g start visited bfs_order Hinv) as (Hnd1 & Hsize1 & Hreach1).
  destruct (bfs_loop_levels g start fuel _ _ _ _ _ _ (initial_levels g start) Hbfs)
    as [lvl Hlevels].
  exists bfs_order. rewrite Hbfs. simpl. rewrite Hsize1.
  split_and!; try done. eauto.
Qed.

End traversal_orders.

(** X19: BFS visits the vertices level by level. From a vertex of the
    graph and with enough fuel it returns an order that begins with the
    start vertex, in which every vertex has a distance from the start
    vertex (the least number of steps along neighbor lists), and in which a
    vertex never comes before a vertex that is nearer to the start. *)
Theorem bfs_level_order g start fuel :
  has_node g start = true → (traversal_fuel g ≤ fuel)%nat →
  ∃ order,
    (BFS_run fuel (Some start) g).2
    = Ok (TVisit start order (length order) (length (nodes g)))
    ∧ head order = Some start
    ∧ (∀ v, v ∈ order → ∃ n, distance g start v n)
    ∧ ∀ i j u v n m,
        order !! i = Some u → order !! j = Some v → (i ≤ j)%nat →
        distance g start u n → distance g start v m → (n ≤ m)%nat.
Proof.
  intros Hstart Hfuel.
  destruct (bfs_order_spec g start fuel Hstart Hfuel)
    as (order & Hbfs & (lvl & visited & [_ L2 L3 L4 _ _ _]) & _).
  rewrite app_nil_r in L2, L3, L4.
  exists order. split_and!; [done|done| |].
  - intros v Hv. exists (lvl v). by apply L3.
  - intros i j u v n m Hi Hj Hij Hu Hv.
    pose proof (L3 u (list_elem_of_lookup_2 _ _ _ Hi)) as Hu'.
    pose proof (L3 v (list_elem_of_lookup_2 _ _ _ Hj)) as Hv'.
    rewrite (distance_unique g start u n _ Hu Hu'), (distance_unique g start v m _ Hv Hv').
    destruct (decide (i = j)) as [->|Hne].
    + rewrite Hi in Hj. by injection Hj as ->.
    + apply (StronglySorted_lookup _ order i j u v L4); [lia | done | done].
Qed.

Lemma bfs_level_order_witness :
  let g := sample_graph false 4 [(0, 1, 1); (0, 2, 1); (1, 3, 1)] in
  ∃ order,
    (BFS_run 9 (Some 0) g).2 = Ok (TVisit 0 order (length order) (length (nodes g)))
    ∧ head order = Some 0.
Proof.
  intros g.
  destruct (bfs_level_order g 0 9%nat) as (order & Hrun & Hhead & _).
  - reflexivity.
  - vm_compute. lia.
  - exists order. split; [exact Hrun | exact Hhead].
Defined.



(** ** Saving and loading *)

Section file_facts.
Import FileHandler.

Lemma load_node_saved (n : Node.t) :
  Node.label n ≠ "" → load_node (node_data n) = Some n.
Proof.
  intros Hlabel. unfold load_node, node_data. simpl. unfold Node.new.
  rewrite decide_False by done. by destruct n.
Qed.

Lemma load_edge_saved d (e : Edge.t) : load_edge d (edge_data e) = Some e.
Proof. unfold load_edge, edge_data. simpl. by destruct e. Qed.

Lemma load_saved_nodes (ns done : list (Z * Node.t)) :
  NoDup (PyDict.keys (done ++ ns)) →
  (∀ k n, (k, n) ∈ ns → Node.id n = k ∧ Node.label n ≠ "") →
  foldl (λ acc node_data,
           nodes ← acc;
           node ← load_node node_data;
           Some (PyDict.set nodes (Node.id node) node))
        (Some done) (node_data <$> ns.*2)
  = Some (done ++ ns).
Proof.
  revert done. induction ns as [|[k n] ns IH]; intros done Hnd Hns.
  - simpl. by rewrite app_nil_r.
  - destruct (Hns k n) as [Hid Hlabel]; [left|].
    rewrite !fmap_cons. cbn [foldl snd]. rewrite (load_node_saved n Hlabel).
    cbn [mbind option_bind].
    rewrite Hid, keys_set_notin.
    + rewrite (IH (done ++ [(k, n)])); [by rewrite <- app_assoc| |].
      * by rewrite <- app_assoc.
      * intros k' n' Hin. apply Hns. by right.
    + unfold PyDict.keys in *. rewrite fmap_app in Hnd.
      apply NoDup_app in Hnd as (_ & Hdisj & _). intros Hin.
      apply (Hdisj k Hin). simpl. left.
Qed.

Lemma load_saved_edges d (es done : list Edge.t) :
  foldl (λ acc edge_data,
           edges ← acc;
           edge ← load_edge d edge_data;
           Some (edges ++ [edge]))
        (Some done) (edge_data <$> es)
  = Some (done ++ es).
Proof.
  revert done. induction es as [|e es IH]; intros done.
  - simpl. by rewrite app_nil_r.
  - rewrite fmap_cons. cbn [foldl]. rewrite (load_edge_saved d e).
    cbn [mbind option_bind]. by rewrite IH, <- app_assoc.
Qed.

Lemma graph_of_saved g :
  NoDup (node_ids g) → nodes_labelled g → graph_of_data (graph_data g) = Some g.
Proof.
  intros Hnd Hlab. unfold graph_of_data, graph_data.
  cbn [gd_directed gd_next_id gd_nodes gd_edges default from_option id].
  rewrite (load_saved_nodes (nodes g) []) by done. cbn [mbind option_bind app].
  rewrite (load_saved_edges (directed g) (edges g) []). simpl. by destruct g.
Qed.

Lemma constructed_labelled g : constructed g → nodes_labelled g.
Proof.
  intros Hc. destruct (constructed_nodes g Hc) as (Hnext & _ & _).
  revert Hnext. unfold nodes_labelled.
  induction Hc as [d|g x y l Hc IH|g s t w _ IH|g v _ IH|g s t _ IH|g _ _]; intros Hnext.
  - by intros k n ?%elem_of_nil.
  - destruct (constructed_nodes g Hc) as (Hnext' & _ & _).
    unfold add_node. cbn [fst nodes].
    intros k n [Hin|[= -> ->]]%elem_of_set; [by apply IH|].
    split; [done|]. unfold Node.new. simpl. case_decide as Hl; [|done].
    intros Hempty.
    pose proof (int_to_letter_value (next_id g) Hnext') as Hval.
    rewrite Hempty in Hval. simpl in Hval. lia.
  - unfold add_edge in *. destruct (has_node g s && has_node g t); by apply IH.
  - unfold remove_node in *. destruct (has_node g v); [|by apply IH].
    cbn [nodes next_id] in *. intros k n Hin. apply IH; [done|].
    eapply elem_of_sublist; [exact Hin|]. apply del_sublist.
  - by apply IH.
  - by intros k n ?%elem_of_nil.
Qed.
End file_facts.

(** X21: the graph that [load_graph] rebuilds from the document that
    [save_graph] writes for a graph built from [Graph()] by [add_node],
    [add_edge], [remove_node], [remove_edge] and [clear] is that graph: the
    same vertices in the same order with id, position, label and color, the
    same edges with weight, directed flag and color, the same directed flag
    and the same id counter. (Every vertex of such a graph has a label, so
    that the default label of [Node.__post_init__] never replaces one.) *)
Theorem save_load_roundtrip g :
  constructed g →
  FileHandler.graph_of_data (FileHandler.graph_data g) = Some g.
Proof.
  intros Hc. apply graph_of_saved.
  - destruct (constructed_inv g Hc) as (Hs & _ & _). by apply StronglySorted_lt_NoDup.
  - by apply constructed_labelled.
Qed.

Lemma save_load_roundtrip_witness :
  let g := remove_node (sample_graph true 3 [(0, 1, 4); (1, 2, 5); (2, 2, 1)]) 1 in
  FileHandler.graph_of_data (FileHandler.graph_data g) = Some g.
Proof.
  intros g. apply (save_load_roundtrip g).
  apply constructed_remove_node, sample_graph_constructed.
Defined.

Section load_facts.
Import FileHandler.

Lemma load_node_is_Some nd :
  is_Some (load_node nd)
  ↔ is_Some (nd_id nd) ∧ is_Some (nd_x nd) ∧ is_Some (nd_y nd) ∧ is_Some (nd_label nd).
Proof.
  unfold load_node.
  destruct (nd_id nd), (nd_x nd), (nd_y nd), (nd_label nd); simpl;
    split; try (intros [? [=]]); try (intros (? & ? & ? & ?)); eauto;
    repeat match goal with H : is_Some None |- _ => destruct H as [? [=]] end.
Qed.

Lemma load_edge_is_Some d ed :
  is_Some (load_edge d ed) ↔ is_Some (ed_source ed) ∧ is_Some (ed_target ed).
Proof.
  unfold load_edge.
  destruct (ed_source ed), (ed_target ed); simpl;
    split; try (intros [? [=]]); try (intros (? & ?)); eauto;
    repeat match goal with H : is_Some None |- _ => destruct H as [? [=]] end.
Qed.

(** A loop that stops at the first item it cannot load. *)
Lemma load_all_is_Some {A B C} (load : A → option B) (add : C → B → C) (l : list A) :
  ∀ acc,
    is_Some (foldl (λ acc a, c ← acc; b ← load a; Some (add c b)) acc l)
    ↔ is_Some acc ∧ Forall (λ a, is_Some (load a)) l.
Proof.
  induction l as [|a l IH]; intros acc; simpl.
  - split; [by split | by intros [? _]].
  - rewrite IH, Forall_cons. destruct acc as [c|]; simpl.
    + destruct (load a) as [b|]; simpl.
      * split; [intros [_ Hall]; eauto | intros (Hc & _ & Hall); eauto].
      * split; [intros [[? [=]] _] | intros (_ & [? [=]] & _)].
    + split; [intros [[? [=]] _] | intros [[? [=]] _]].
Qed.

Lemma load_edges_length d (l : list EdgeData) :
  ∀ done edges,
    foldl (λ acc edge_data,
             edges ← acc;
             edge ← load_edge d edge_data;
             Some (edges ++ [edge])) (Some done) l = Some edges →
    length edges = (length done + length l)%nat.
Proof.
  induction l as [|ed l IH]; intros done edges; simpl.
  - intros [= <-]. lia.
  - destruct (load_edge d ed) as [e|] eqn:He; simpl.
    + intros Hrun%IH. rewrite length_app in Hrun. simpl in Hrun. lia.
    + intros Hrun. exfalso.
      assert (is_Some (foldl (λ acc edge_data,
                                edges ← acc;
                                edge ← load_edge d edge_data;
                                Some (edges ++ [edge])) None l)) as Hsome by eauto.
      apply (load_all_is_Some (load_edge d) (λ es e, es ++ [e])) in Hsome
        as [[? [=]] _].
Qed.
End load_facts.

(** X22: [load_graph] gives a graph exactly when every vertex of the
    document has the keys [id], [x], [y] and [label] and every edge has
    the keys [source] and [target]; otherwise the [KeyError] is caught and
    the result is [None]. Every other key may be missing: the graph is
    undirected and its id counter is 0 unless the document says otherwise,
    and it has one edge per edge of the document. *)
Theorem load_graph_required_keys (data : FileHandler.GraphData) :
  (is_Some (FileHandler.graph_of_data data)
   ↔ Forall (λ nd, is_Some (FileHandler.nd_id nd) ∧ is_Some (FileHandler.nd_x nd)
                   ∧ is_Some (FileHandler.nd_y nd) ∧ is_Some (FileHandler.nd_label nd))
            (default [] (FileHandler.gd_nodes data))
     ∧ Forall (λ ed, is_Some (FileHandler.ed_source ed) ∧ is_Some (FileHandler.ed_target ed))
              (default [] (FileHandler.gd_edges data)))
  ∧ ∀ g, FileHandler.graph_of_data data = Some g →
         directed g = default false (FileHandler.gd_directed data)
         ∧ next_id g = default 0 (FileHandler.gd_next_id data)
         ∧ length (edges g) = length (default [] (FileHandler.gd_edges data)).
Proof.
  unfold FileHandler.graph_of_data. cbv zeta.
  pose proof (load_all_is_Some FileHandler.load_node
                (λ ns node, PyDict.set ns (Node.id node) node)
                (default [] (FileHandler.gd_nodes data)) (Some [])) as Hnodes.
  pose proof (load_all_is_Some
                (FileHandler.load_edge (default false (FileHandler.gd_directed data)))
                (λ es e, es ++ [e])
                (default [] (FileHandler.gd_edges data)) (Some [])) as Hedges.
  pose proof (load_edges_length (default false (FileHandler.gd_directed data))
                (default [] (FileHandler.gd_edges data)) []) as Hlen.
  destruct (foldl _ (Some []) (default [] (FileHandler.gd_nodes data))) as [ns|];
    destruct (foldl _ (Some []) (default [] (FileHandler.gd_edges data))) as [es|];
    simpl; split.
  - split; [intros _|eauto]. split.
    + eapply Forall_impl; [apply (proj1 Hnodes); eauto|].
      intros nd. apply load_node_is_Some.
    + eapply Forall_impl; [apply (proj1 Hedges); eauto|].
      intros ed. apply load_edge_is_Some.
  - intros g [= <-]. simpl. split_and!; [done..|]. by apply Hlen.
  - split; [intros [? [=]]|]. intros [_ Hall].
    destruct (proj2 Hedges) as [? [=]]. split; [eauto|].
    eapply Forall_impl; [exact Hall|]. intros ed. apply load_edge_is_Some.
  - done.
  - split; [intros [? [=]]|]. intros [Hall _].
    destruct (proj2 Hnodes) as [? [=]]. split; [eauto|].
    eapply Forall_impl; [exact Hall|]. intros nd. apply load_node_is_Some.
  - done.
  - split; [intros [? [=]]|]. intros [Hall _].
    destruct (proj2 Hnodes) as [? [=]]. split; [eauto|].
    eapply Forall_impl; [exact Hall|]. intros nd. apply load_node_is_Some.
  - done.
Qed.

Lemma load_graph_required_keys_witness :
  let data :=
    FileHandler.mkGraphData None None
      (Some [FileHandler.mkNodeData (Some 0) (Some 1) (Some 2) (Some "A") None])
      (Some [FileHandler.mkEdgeData (Some 0) (Some 0) None None None]) in
  is_Some (FileHandler.graph_of_data data).
Proof.
  intros data. apply (proj1 (load_graph_required_keys data)).
  split; repeat constructor; simpl; eauto.
Defined.

(** ** Generated graphs *)

Section generator_facts.
Implicit Types (g : Graph).

Lemma seqZ_snoc (m : Z) : 0 ≤ m → seqZ 0 (m + 1) = seqZ 0 m ++ [m].
Proof.
  intros Hm. rewrite seqZ_app by lia. f_equal.
Qed.

Lemma has_node_sequence g v :
  ids_in_sequence g → has_node g v = true ↔ 0 ≤ v < next_id g.
Proof.
  intros [Hpos Hids]. rewrite has_node_true, Hids, elem_of_seqZ. lia.
Qed.

Lemma add_node_sequence g x y :
  ids_in_sequence g →
  (add_node g x y "").1
  = mkGraph (nodes g ++ [(next_id g, default_node (next_id g) x y)])
            (edges g) (directed g) (next_id g + 1).
Proof.
  intros [Hpos Hids]. unfold add_node. simpl. f_equal.
  rewrite keys_set_notin; [done|].
  fold (node_ids g). rewrite Hids, elem_of_seqZ. lia.
Qed.

Lemma add_node_keeps_sequence g x y :
  ids_in_sequence g → ids_in_sequence (add_node g x y "").1.
Proof.
  intros Hseq. rewrite add_node_sequence by done.
  destruct Hseq as [Hpos Hids]. split; simpl; [lia|].
  unfold node_ids, PyDict.keys in *. simpl.
  rewrite fmap_app, Hids, seqZ_snoc by done. done.
Qed.

Lemma add_edge_sequence g u v w :
  ids_in_sequence g → 0 ≤ u < next_id g → 0 ≤ v < next_id g →
  add_edge g u v w
  = mkGraph (nodes g)
            (edges g ++ [Edge.mk u v w (directed g) Edge.default_color])
            (directed g) (next_id g).
Proof.
  intros Hseq Hu Hv. unfold add_edge.
  rewrite (proj2 (has_node_sequence g u Hseq)) by done.
  by rewrite (proj2 (has_node_sequence g v Hseq)).
Qed.

Lemma chain_nodes (m : nat) :
  foldl (λ graph i, (add_node graph (100 + i * 100) 200 "").1)
        (Graph_init false) (seqZ 0 (Z.of_nat m))
  = mkGraph ((λ i, (i, default_node i (100 + i * 100) 200))
               <$> seqZ 0 (Z.of_nat m))
            [] false (Z.of_nat m).
Proof.
  induction m as [|m IH]; [done|].
  rewrite Nat2Z.inj_succ, <- Z.add_1_r, seqZ_snoc by lia.
  rewrite foldl_app, IH. cbn [foldl].
  rewrite add_node_sequence.
  - simpl. by rewrite fmap_app.
  - split; simpl; [lia|]. unfold node_ids, PyDict.keys. simpl.
    rewrite <- list_fmap_compose. apply list_fmap_id.
Qed.

Lemma chain_edges (n : Z) (ns : list (Z * Node.t)) (m : nat) :
  PyDict.keys ns = seqZ 0 n → Z.of_nat m < n →
  foldl (λ graph i, add_edge graph i (i + 1) 1)
        (mkGraph ns [] false n) (seqZ 0 (Z.of_nat m))
  = mkGraph ns ((λ i, unit_edge i (i + 1)) <$> seqZ 0 (Z.of_nat m)) false n.
Proof.
  intros Hkeys. induction m as [|m IH]; intros Hm; [done|].
  rewrite Nat2Z.inj_succ, <- Z.add_1_r, seqZ_snoc by lia.
  rewrite foldl_app, IH by lia. cbn [foldl].
  rewrite add_edge_sequence; simpl; [|split; simpl; [lia|done]|lia..].
  by rewrite fmap_app.
Qed.
End generator_facts.

(** X23: [create_chain(n)] builds the undirected path on [n] vertices:
    the vertices are [0 .. n-1] in this order, vertex [i] at position
    [(100 + 100 i, 200)] with its alphabetic label, and the edges are
    [i -- i+1] with weight 1 for [i = 0 .. n-2], in this order; no edge
    is dropped by [add_edge]. For [n <= 0] the graph is empty. *)
Theorem create_chain_shape (n : Z) :
  GraphLibrary.create_chain n
  = mkGraph ((λ i, (i, default_node i (100 + i * 100) 200)) <$> seqZ 0 n)
            ((λ i, unit_edge i (i + 1)) <$> seqZ 0 (n - 1))
            false (Z.max 0 n).
Proof.
  unfold GraphLibrary.create_chain. cbv zeta.
  destruct (decide (n ≤ 0)) as [Hn|Hn].
  - rewrite !seqZ_nil by lia. simpl. unfold Graph_init. f_equal. lia.
  - replace (Z.max 0 n) with n by lia.
    assert (n = Z.of_nat (Z.to_nat n)) as Hnat by lia.
    assert (n - 1 = Z.of_nat (Z.to_nat (n - 1))) as Hnat' by lia.
    rewrite Hnat at 1. rewrite chain_nodes, <- Hnat.
    rewrite Hnat' at 1. rewrite chain_edges.
    + by rewrite <- Hnat'.
    + unfold PyDict.keys. rewrite <- list_fmap_compose. apply list_fmap_id.
    + lia.
Qed.

Section tree_facts.
Import GraphLibrary.
Implicit Types (g : Graph).

Lemma add_edge_unit g u v :
  ids_in_sequence g → directed g = false →
  0 ≤ u < next_id g → 0 ≤ v < next_id g →
  add_edge g u v 1
  = mkGraph (nodes g) (edges g ++ [unit_edge u v]) false (next_id g)
  ∧ ids_in_sequence (add_edge g u v 1).
Proof.
  intros Hseq Hdir Hu Hv. rewrite add_edge_sequence by done.
  rewrite Hdir. split; [done|]. exact Hseq.
Qed.

Lemma subtree_targets (a s : Z) (t1 t2 : list Z) :
  1 ≤ s →
  t1 ≡ₚ seqZ (a + 2) (s - 1) →
  t2 ≡ₚ seqZ (a + 1 + s + 1) (s - 1) →
  t1 ++ [a + 1] ++ t2 ++ [a + 1 + s] ≡ₚ seqZ (a + 1) (2 * s).
Proof.
  intros Hs -> ->.
  replace (2 * s) with (1 + ((s - 1) + (1 + (s - 1)))) by lia.
  rewrite !seqZ_app by lia.
  replace (a + 1 + 1) with (a + 2) by lia.
  replace (a + 2 + (s - 1)) with (a + 1 + s) by lia.
  change (seqZ (a + 1) 1) with [0 + (a + 1)].
  change (seqZ (a + 1 + s) 1) with [0 + (a + 1 + s)].
  rewrite !Z.add_0_l. solve_Permutation.
Qed.

Lemma add_tree_nodes_spec (max_depth : Z) (fuel : nat) :
  ∀ g node_id level pos_x width,
    ids_in_sequence g → next_id g = node_id → directed g = false →
    level ≤ max_depth + 1 →
    (Z.to_nat (max_depth + 1 - level) < fuel)%nat →
    ∃ g' new,
      add_tree_nodes fuel g node_id level pos_x width max_depth
      = Ok (g', node_id + 2 ^ (max_depth + 1 - level) - 1)
      ∧ ids_in_sequence g'
      ∧ next_id g' = node_id + 2 ^ (max_depth + 1 - level) - 1
      ∧ directed g' = false
      ∧ edges g' = edges g ++ new
      ∧ Edge.target <$> new
        ≡ₚ seqZ (node_id + 1) (2 ^ (max_depth + 1 - level) - 2)
      ∧ Forall (λ e, node_id ≤ Edge.source e < Edge.target e
                     ∧ e = unit_edge (Edge.source e) (Edge.target e)) new.
Proof.
  induction fuel as [|fuel IH]; intros g a level pos_x width Hseq Hnext Hdir Hlevel Hfuel;
    [lia|].
  assert (0 ≤ a) as Ha by (destruct Hseq; lia).
  cbn [add_tree_nodes]. case_decide as Hover.
  - assert (max_depth + 1 - level = 0) as -> by lia.
    exists g, []. rewrite app_nil_r. simpl.
    split_and!; try done; [do 2 f_equal; lia | lia].
  - cbv zeta.
    set (g1 := (add_node g pos_x (80 + level * 80) "").1).
    assert (ids_in_sequence g1) as Hseq1 by by apply add_node_keeps_sequence.
    assert (next_id g1 = a + 1 ∧ directed g1 = false ∧ edges g1 = edges g)
      as (Hnext1 & Hdir1 & Hedges1).
    { unfold g1. rewrite add_node_sequence by done. simpl. by rewrite Hnext. }
    case_decide as Hinner.
    + set (k := max_depth + 1 - (level + 1)).
      assert (1 ≤ k) as Hk by (unfold k; lia).
      assert (2 ^ (max_depth + 1 - level) = 2 * 2 ^ k) as Hpow.
      { replace (max_depth + 1 - level) with (Z.succ k) by (unfold k; lia).
        rewrite Z.pow_succ_r by lia. done. }
      assert (2 ≤ 2 ^ k) as Hsize.
      { change 2 with (2 ^ 1) at 1. apply Z.pow_le_mono_r; lia. }
      destruct (IH g1 (a + 1) (level + 1) (pos_x - width `div` 2) (width `div` 2))
        as (g2 & new1 & -> & Hseq2 & Hnext2 & Hdir2 & Hedges2 & Hperm1 & Hall1);
        [done..|lia|lia|].
      fold k in Hnext2, Hperm1 |- *. cbn [obind].
      destruct (add_edge_unit g2 a (a + 1)) as [Hadd1 Hseq3]; [done..|lia|lia|].
      rewrite Hadd1. clear Hadd1.
      set (g3 := mkGraph _ _ _ _) in *.
      destruct (IH g3 (a + 1 + 2 ^ k - 1) (level + 1)
                  (pos_x + width `div` 2) (width `div` 2))
        as (g4 & new2 & -> & Hseq4 & Hnext4 & Hdir4 & Hedges4 & Hperm2 & Hall2);
        [done| simpl; lia | done | lia | lia |].
      fold k in Hnext4, Hperm2 |- *. cbn [obind].
      destruct (add_edge_unit g4 a (a + 1 + 2 ^ k - 1)) as [Hadd2 Hseq5];
        [done..|lia|lia|].
      rewrite Hadd2.
      exists (mkGraph (nodes g4) (edges g4 ++ [unit_edge a (a + 1 + 2 ^ k - 1)])
                      false (next_id g4)),
             (new1 ++ [unit_edge a (a + 1)] ++ new2
                   ++ [unit_edge a (a + 1 + 2 ^ k - 1)]).
      split_and!.
      * do 2 f_equal. lia.
      * by rewrite <- Hadd2.
      * simpl. lia.
      * done.
      * simpl. rewrite Hedges4. simpl. rewrite Hedges2, Hedges1.
        by rewrite <- !app_assoc.
      * rewrite !fmap_app. simpl.
        replace (2 ^ (max_depth + 1 - level) - 2) with (2 * (2 ^ k - 1)) by lia.
        replace (a + 1 + 2 ^ k - 1) with (a + 1 + (2 ^ k - 1)) by lia.
        apply subtree_targets; [lia| |].
        -- rewrite Hperm1. replace (a + 1 + 1) with (a + 2) by lia.
           by replace (2 ^ k - 2) with (2 ^ k - 1 - 1) by lia.
        -- rewrite Hperm2.
           replace (a + 1 + 2 ^ k - 1 + 1) with (a + 1 + (2 ^ k - 1) + 1) by lia.
           by replace (2 ^ k - 2) with (2 ^ k - 1 - 1) by lia.
      * rewrite !Forall_app, !Forall_singleton. simpl.
        repeat split; try lia.
        -- eapply Forall_impl; [exact Hall1|]. simpl. intros e [? ?]. split; [lia|done].
        -- eapply Forall_impl; [exact Hall2|]. simpl. intros e [? ?]. split; [lia|done].
    + assert (max_depth + 1 - level = 1) as -> by lia.
      exists g1, []. rewrite app_nil_r. simpl.
      split_and!; try done; [do 2 f_equal; lia | lia].
Qed.
End tree_facts.

(** X24: [create_binary_tree(depth)] with [depth >= 0] terminates and
    builds a tree on [2^(depth+1) - 1] vertices: the ids are
    [0 .. 2^(depth+1) - 2] in this order, there is one edge fewer than
    vertices, every vertex but the root 0 is the target of exactly one
    edge (the targets are a permutation of the non-root vertices), and
    every edge is undirected, has weight 1 and goes from a vertex to one
    with a larger id; no edge is dropped by [add_edge]. *)
Theorem create_binary_tree_shape (depth : Z) (fuel : nat) :
  0 ≤ depth → (Z.to_nat (depth + 1) < fuel)%nat →
  ∃ g,
    GraphLibrary.create_binary_tree fuel depth = Ok g
    ∧ directed g = false
    ∧ node_ids g = seqZ 0 (2 ^ (depth + 1) - 1)
    ∧ next_id g = 2 ^ (depth + 1) - 1
    ∧ (length (edges g) + 1 = length (nodes g))%nat
    ∧ Edge.target <$> edges g ≡ₚ seqZ 1 (2 ^ (depth + 1) - 2)
    ∧ Forall (λ e, 0 ≤ Edge.source e < Edge.target e
                   ∧ e = unit_edge (Edge.source e) (Edge.target e)) (edges g).
Proof.
  intros Hdepth Hfuel. unfold GraphLibrary.create_binary_tree. cbv zeta.
  destruct (add_tree_nodes_spec depth fuel (Graph_init false) 0 0 300 200)
    as (g & new & Hrun & Hseq & Hnext & Hdir & Hedges & Hperm & Hall);
    [by split|done|done|lia| |].
  { replace (depth + 1 - 0) with (depth + 1) by lia. done. }
  replace (depth + 1 - 0) with (depth + 1) in * by lia.
  simpl in Hnext, Hperm, Hedges. rewrite Hrun. cbn [obind].
  assert (2 ≤ 2 ^ (depth + 1)) as Hsize.
  { change 2 with (2 ^ 1) at 1. apply Z.pow_le_mono_r; lia. }
  exists g. destruct Hseq as [Hpos Hids]. subst new.
  split_and!; try done.
  - by rewrite Hids, Hnext.
  - apply (f_equal length) in Hids. apply Permutation_length in Hperm.
    unfold node_ids, PyDict.keys in Hids.
    rewrite length_fmap, length_seqZ in Hids.
    rewrite length_fmap, length_seqZ in Hperm. lia.
Qed.

Lemma create_binary_tree_shape_witness :
  ∃ g,
    GraphLibrary.create_binary_tree 4 2 = Ok g
    ∧ directed g = false
    ∧ node_ids g = seqZ 0 (2 ^ (2 + 1) - 1)
    ∧ next_id g = 2 ^ (2 + 1) - 1
    ∧ (length (edges g) + 1 = length (nodes g))%nat
    ∧ Edge.target <$> edges g ≡ₚ seqZ 1 (2 ^ (2 + 1) - 2)
    ∧ Forall (λ e, 0 ≤ Edge.source e < Edge.target e
                   ∧ e = unit_edge (Edge.source e) (Edge.target e)) (edges g).
Proof. apply (create_binary_tree_shape 2 4); [lia | simpl; lia]. Defined.

Section grid_facts.
Import GraphLibrary.
Implicit Types (g : Graph).

Lemma place_cell_placed (cols r c : Z) st :
  0 ≤ r → 0 ≤ c < cols →
  grid_placed cols r c st → grid_placed cols r (c + 1) (place_cell r st c).
Proof.
  intros Hr Hc. destruct st as [[g nm] nid].
  intros (-> & Hseq & Hnext & Hedges & Hdir & Hcells).
  unfold place_cell, grid_placed. cbv zeta.
  split_and!; [lia|by apply add_node_keeps_sequence|simpl; lia|done..|].
  intros i j Hj Hij.
  destruct (decide (i = r ∧ j = c)) as [[-> ->]|Hne].
  - rewrite lookup_insert_eq. split; [done|].
    simpl. rewrite Hnext, get_set_eq. done.
  - rewrite lookup_insert_ne by (intros [= ? ?]; lia).
    simpl. rewrite get_set_ne by (rewrite Hnext; nia).
    apply Hcells; lia.
Qed.

Lemma row_placed (cols r : Z) (c : nat) st :
  0 ≤ r → Z.of_nat c ≤ cols →
  grid_placed cols r 0 st →
  grid_placed cols r (Z.of_nat c) (foldl (place_cell r) st (seqZ 0 (Z.of_nat c))).
Proof.
  intros Hr. induction c as [|c IH]; intros Hc Hst; [done|].
  rewrite Nat2Z.inj_succ, <- Z.add_1_r, seqZ_snoc by lia.
  rewrite foldl_app. cbn [foldl].
  apply place_cell_placed; [lia..|]. apply IH; [lia|done].
Qed.

Lemma next_row_placed (cols r : Z) st :
  grid_placed cols r cols st → grid_placed cols (r + 1) 0 st.
Proof.
  destruct st as [[g nm] nid]. unfold grid_placed.
  intros (-> & Hseq & Hnext & Hedges & Hdir & Hcells).
  split_and!; [lia|done|lia|done..|].
  intros i j Hj Hij. apply Hcells; lia.
Qed.

Lemma rows_placed (cols : Z) (r : nat) :
  0 < cols →
  grid_placed cols (Z.of_nat r) 0
    (foldl (λ state i, foldl (place_cell i) state (seqZ 0 cols))
           (Graph_init false, ∅, 0) (seqZ 0 (Z.of_nat r))).
Proof.
  intros Hcols. induction r as [|r IH].
  - simpl. split_and!; try done. intros i j ? ?. lia.
  - rewrite Nat2Z.inj_succ, <- Z.add_1_r, seqZ_snoc by lia.
    rewrite foldl_app. cbn [foldl].
    apply next_row_placed.
    pose proof (row_placed cols (Z.of_nat r) (Z.to_nat cols)) as Hrow.
    replace (Z.of_nat (Z.to_nat cols)) with cols in Hrow by lia.
    apply Hrow; [lia..|done].
Qed.

Lemma connect_cell_edges (rows cols : Z) (nm : gmap (Z * Z) Z) ns es (i j : Z) :
  (∀ i j, 0 ≤ i < rows → 0 ≤ j < cols → nm !! (i, j) = Some (i * cols + j)) →
  PyDict.keys ns = seqZ 0 (rows * cols) →
  0 ≤ i < rows → 0 ≤ j < cols →
  connect_cell rows cols nm i (Some (mkGraph ns es false (rows * cols))) j
  = Some (mkGraph ns (es ++ cell_edges rows cols i j) false (rows * cols)).
Proof.
  intros Hmap Hkeys Hi Hj. unfold connect_cell, cell_edges.
  cbn [mbind option_bind]. rewrite (Hmap i j) by done. cbn [mbind option_bind].
  assert (∀ es', ids_in_sequence (mkGraph ns es' false (rows * cols))) as Hseq.
  { intros es'. split; simpl; [apply Z.mul_nonneg_nonneg; lia|done]. }
  destruct (decide (j < cols - 1)) as [Hright|Hright];
    destruct (decide (i < rows - 1)) as [Hdown|Hdown];
    cbn [mbind option_bind];
    rewrite ?(Hmap i (j + 1)) by lia; cbn [mbind option_bind];
    rewrite ?add_edge_sequence by (try apply Hseq; simpl; nia); simpl;
    rewrite ?(Hmap (i + 1) j) by lia; cbn [mbind option_bind];
    rewrite ?add_edge_sequence by (try apply Hseq; simpl; nia); simpl;
    rewrite <- ?app_assoc, ?app_nil_r; done.
Qed.

Lemma connect_row (rows cols : Z) (nm : gmap (Z * Z) Z) ns (i : Z) (c : nat) :
  (∀ i j, 0 ≤ i < rows → 0 ≤ j < cols → nm !! (i, j) = Some (i * cols + j)) →
  PyDict.keys ns = seqZ 0 (rows * cols) →
  0 ≤ i < rows → Z.of_nat c ≤ cols →
  ∀ es,
    foldl (connect_cell rows cols nm i)
          (Some (mkGraph ns es false (rows * cols))) (seqZ 0 (Z.of_nat c))
    = Some (mkGraph ns (es ++ (seqZ 0 (Z.of_nat c) ≫= cell_edges rows cols i))
                    false (rows * cols)).
Proof.
  intros Hmap Hkeys Hi. induction c as [|c IH]; intros Hc es.
  - simpl. by rewrite app_nil_r.
  - rewrite Nat2Z.inj_succ, <- Z.add_1_r, seqZ_snoc by lia.
    rewrite foldl_app, IH by lia. cbn [foldl].
    rewrite connect_cell_edges by (done || lia).
    by rewrite bind_app, bind_singleton, <- app_assoc.
Qed.

Lemma connect_rows (rows cols : Z) (nm : gmap (Z * Z) Z) ns (r : nat) :
  (∀ i j, 0 ≤ i < rows → 0 ≤ j < cols → nm !! (i, j) = Some (i * cols + j)) →
  PyDict.keys ns = seqZ 0 (rows * cols) →
  0 ≤ cols → Z.of_nat r ≤ rows →
  foldl (λ state i, foldl (connect_cell rows cols nm i) state (seqZ 0 cols))
        (Some (mkGraph ns [] false (rows * cols))) (seqZ 0 (Z.of_nat r))
  = Some (mkGraph ns
            (seqZ 0 (Z.of_nat r) ≫= λ i, seqZ 0 cols ≫= cell_edges rows cols i)
            false (rows * cols)).
Proof.
  intros Hmap Hkeys Hcols. induction r as [|r IH]; intros Hr; [done|].
  rewrite Nat2Z.inj_succ, <- Z.add_1_r, seqZ_snoc by lia.
  rewrite foldl_app, IH by lia. cbn [foldl].
  pose proof (connect_row rows cols nm ns (Z.of_nat r) (Z.to_nat cols)) as Hrow.
  replace (Z.of_nat (Z.to_nat cols)) with cols in Hrow by lia.
  rewrite Hrow by (done || lia).
  by rewrite bind_app, bind_singleton.
Qed.

(** The number of edges in the first [c] cells of a row and in the first
    [r] rows. *)
Lemma row_edges_length (rows cols i : Z) (c : nat) :
  1 ≤ cols → Z.of_nat c ≤ cols →
  Z.of_nat (length (seqZ 0 (Z.of_nat c) ≫= cell_edges rows cols i))
  = Z.of_nat c `min` (cols - 1) + (if decide (i < rows - 1) then Z.of_nat c else 0).
Proof.
  intros Hcols. induction c as [|c IH]; intros Hc.
  - simpl. case_decide; lia.
  - rewrite Nat2Z.inj_succ, <- Z.add_1_r, seqZ_snoc by lia.
    rewrite bind_app, bind_singleton, length_app, Nat2Z.inj_add, IH by lia.
    unfold cell_edges. rewrite length_app.
    repeat case_decide; simpl; lia.
Qed.

Lemma grid_edges_length (rows cols : Z) (r : nat) :
  1 ≤ rows → 1 ≤ cols → Z.of_nat r ≤ rows →
  Z.of_nat (length (seqZ 0 (Z.of_nat r) ≫= λ i, seqZ 0 cols ≫= cell_edges rows cols i))
  = Z.of_nat r * (cols - 1) + Z.of_nat r `min` (rows - 1) * cols.
Proof.
  intros Hrows Hcols. induction r as [|r IH]; intros Hr.
  - simpl. rewrite Z.min_l by lia. lia.
  - rewrite Nat2Z.inj_succ, <- Z.add_1_r, seqZ_snoc by lia.
    rewrite bind_app, bind_singleton, length_app, Nat2Z.inj_add, IH by lia.
    pose proof (row_edges_length rows cols (Z.of_nat r) (Z.to_nat cols)) as Hrow.
    replace (Z.of_nat (Z.to_nat cols)) with cols in Hrow by lia.
    rewrite Hrow by lia. rewrite (Z.min_r cols) by lia.
    case_decide.
    + rewrite !Z.min_l by lia. lia.
    + rewrite !Z.min_r by lia. lia.
Qed.
End grid_facts.

(** X25: [create_grid(rows, cols)] never fails on a [node_map] lookup.
    The grid has the vertices [0 .. rows*cols - 1] in this order, the
    vertex of row [i] and column [j] has the id [i*cols + j] and the
    position [(150 + 80 j, 150 + 80 i)], and the edges are, cell by cell
    in row order, the edge to the right neighbor (when there is one) and
    then the edge to the neighbor below (when there is one), undirected
    with weight 1; none is dropped by [add_edge]. With at least one row
    and one column that makes [rows*(cols-1) + (rows-1)*cols] edges. *)
Theorem create_grid_shape (rows cols : Z) :
  0 ≤ rows → 0 ≤ cols →
  ∃ g,
    GraphLibrary.create_grid rows cols = Some g
    ∧ directed g = false
    ∧ next_id g = rows * cols
    ∧ node_ids g = seqZ 0 (rows * cols)
    ∧ (∀ i j, 0 ≤ i < rows → 0 ≤ j < cols →
              PyDict.get (nodes g) (i * cols + j)
              = Some (default_node (i * cols + j) (150 + j * 80) (150 + i * 80)))
    ∧ edges g = grid_edges rows cols
    ∧ (1 ≤ rows → 1 ≤ cols →
       Z.of_nat (length (edges g)) = rows * (cols - 1) + (rows - 1) * cols).
Proof.
  intros Hrows Hcols. unfold GraphLibrary.create_grid. cbv zeta.
  destruct (decide (cols = 0)) as [->|Hpos].
  - assert (∀ {A} (st : A) (l : list Z), foldl (λ st _, st) st l = st) as Hskip.
    { intros A st l. by induction l. }
    simpl. rewrite !Hskip. exists (Graph_init false). unfold grid_edges.
    rewrite Z.mul_0_r. split_and!; try done; try lia.
    induction (seqZ 0 rows) as [|? ? IH]; [done|]. by rewrite bind_cons, <- IH.
  - pose proof (rows_placed cols (Z.to_nat rows) ltac:(lia)) as Hplaced.
    replace (Z.of_nat (Z.to_nat rows)) with rows in Hplaced by lia.
    destruct (foldl _ (Graph_init false, ∅, 0) (seqZ 0 rows)) as [[g nm] nid].
    destruct Hplaced as (-> & Hseq & Hnext & Hedges & Hdir & Hcells).
    rewrite Z.add_0_r in Hnext.
    destruct g as [ns es d n]. simpl in Hnext, Hedges, Hdir. subst es d n.
    destruct Hseq as [_ Hkeys]. simpl in Hkeys.
    pose proof (connect_rows rows cols nm ns (Z.to_nat rows)) as Hrun.
    replace (Z.of_nat (Z.to_nat rows)) with rows in Hrun by lia.
    rewrite Hrun; [|intros i j ? ?; apply Hcells; lia|done|lia|lia].
    eexists. split; [done|]. simpl. split_and!; try done.
    + intros i j Hi Hj. apply Hcells; lia.
    + intros ? ?. unfold grid_edges.
      pose proof (grid_edges_length rows cols (Z.to_nat rows)) as Hlen.
      replace (Z.of_nat (Z.to_nat rows)) with rows in Hlen by lia.
      rewrite Hlen by lia. lia.
Qed.

Lemma create_grid_shape_witness :
  ∃ g,
    GraphLibrary.create_grid 2 3 = Some g
    ∧ directed g = false
    ∧ next_id g = 2 * 3
    ∧ node_ids g = seqZ 0 (2 * 3)
    ∧ (∀ i j, 0 ≤ i < 2 → 0 ≤ j < 3 →
              PyDict.get (nodes g) (i * 3 + j)
              = Some (default_node (i * 3 + j) (150 + j * 80) (150 + i * 80)))
    ∧ edges g = grid_edges 2 3
    ∧ (1 ≤ 2 → 1 ≤ 3 →
       Z.of_nat (length (edges g)) = 2 * (3 - 1) + (2 - 1) * 3).
Proof. apply (create_grid_shape 2 3); lia. Defined.

(** ** Relabelled vertices in a saved graph *)

Section relabel_facts.
Import FileHandler.
Implicit Types (g : Graph).

Lemma load_node_data (n : Node.t) :
  load_node (node_data n)
  = Some (Node.new (Node.id n) (Node.x n) (Node.y n) (Node.label n) (Node.color n)).
Proof. done. Qed.

Lemma keys_fresh_head {V} (done ns : list (Z * V)) k v :
  NoDup (PyDict.keys (done ++ (k, v) :: ns)) → k ∉ PyDict.keys done.
Proof.
  unfold PyDict.keys. rewrite fmap_app, fmap_cons.
  intros (_ & Hdisj & _)%NoDup_app Hin. apply (Hdisj k Hin). left.
Qed.

Lemma load_relabelled_nodes (ns : list (Z * Node.t)) k0 (n0 : Node.t) label :
  (∀ k n, (k, n) ∈ ns → Node.id n = k ∧ Node.label n ≠ "") →
  Node.id n0 = k0 →
  ∀ done,
    NoDup (PyDict.keys (done ++ ns)) →
    k0 ∈ PyDict.keys ns →
    foldl (λ acc node_data,
             nodes ← acc;
             node ← load_node node_data;
             Some (PyDict.set nodes (Node.id node) node))
          (Some done)
          (node_data <$> (PyDict.set ns k0 (Node.set_label n0 label)).*2)
    = Some (done ++ PyDict.set ns k0
              (Node.set_label n0
                 (if decide (label = "") then Node._int_to_letter k0 else label))).
Proof.
  intros Hns Hid0.
  assert (load_node (node_data (Node.set_label n0 label))
          = Some (Node.set_label n0
                    (if decide (label = "") then Node._int_to_letter k0 else label)))
    as Hload0.
  { rewrite load_node_data. unfold Node.new, Node.set_label. simpl.
    rewrite Hid0. by case_decide. }
  set (label' := if decide (label = "") then Node._int_to_letter k0 else label) in *.
  induction ns as [|[k n] ns IH]; intros done Hnd Hin.
  - by apply elem_of_nil in Hin.
  - pose proof (keys_fresh_head _ _ _ _ Hnd) as Hfresh.
    cbn [PyDict.set]. destruct (decide (k = k0)) as [->|Hk].
    + rewrite !fmap_cons. cbn [foldl snd]. rewrite Hload0.
      cbn [mbind option_bind]. cbn [Node.set_label Node.id]. rewrite Hid0.
      rewrite keys_set_notin by done.
      rewrite load_saved_nodes.
      * by rewrite <- app_assoc.
      * rewrite <- app_assoc. simpl.
        unfold PyDict.keys in *. by rewrite !fmap_app, !fmap_cons in *.
      * intros k' n' Hin'. apply Hns. by right.
    + destruct (Hns k n) as [Hid Hlabel]; [left|].
      rewrite !fmap_cons. cbn [foldl snd]. rewrite (load_node_saved n Hlabel).
      cbn [mbind option_bind]. rewrite Hid, keys_set_notin by done.
      rewrite IH.
      * by rewrite <- app_assoc.
      * intros k' n' Hin'. apply Hns. by right.
      * by rewrite <- app_assoc.
      * unfold PyDict.keys in Hin. rewrite fmap_cons in Hin.
        apply elem_of_cons in Hin as [?|?]; [simpl in *; congruence|done].
Qed.
End relabel_facts.

(** X26: [update_node_label] on a graph built by the constructor,
    [add_node], [add_edge], [remove_node], [remove_edge] and [clear] keeps
    the ids and their order, the edges, the directed flag and the id
    counter, and does nothing when the vertex does not exist. Saving the
    result and loading it again gives the same graph back when the new
    label is not empty; an empty label does not survive: the loaded
    vertex carries the alphabetic default label of its id instead. *)
Theorem relabel_save_load (g : Graph) (node_id : Z) (label : string) :
  constructed g →
  let g' := update_node_label g node_id label in
  node_ids g' = node_ids g
  ∧ edges g' = edges g ∧ directed g' = directed g ∧ next_id g' = next_id g
  ∧ (has_node g node_id = false → g' = g)
  ∧ (has_node g node_id = true →
     Node.label <$> PyDict.get (nodes g') node_id = Some label)
  ∧ FileHandler.graph_of_data (FileHandler.graph_data g')
    = Some (update_node_label g node_id
              (if decide (label = "") then Node._int_to_letter node_id else label)).
Proof.
  intros Hc g'. subst g'.
  assert (NoDup (node_ids g)) as Hnd.
  { destruct (constructed_inv g Hc) as (Hs & _ & _). by apply StronglySorted_lt_NoDup. }
  pose proof (constructed_labelled g Hc) as Hlab.
  unfold update_node_label, has_node, PyDict.mem.
  destruct (PyDict.get (nodes g) node_id) as [n|] eqn:Hget.
  - assert (node_id ∈ node_ids g) as Hin by (apply get_is_Some; eauto).
    destruct (Hlab node_id n (get_Some_elem _ _ _ Hget)) as [Hid _].
    cbn [nodes edges directed next_id].
    split_and!; try done.
    + unfold node_ids. cbn [nodes]. by apply keys_set_in.
    + intros _. by rewrite get_set_eq.
    + unfold FileHandler.graph_of_data, FileHandler.graph_data.
      cbn [FileHandler.gd_directed FileHandler.gd_next_id FileHandler.gd_nodes
           FileHandler.gd_edges default from_option id nodes edges directed next_id].
      rewrite (load_relabelled_nodes (nodes g) node_id n label Hlab Hid []) by done.
      cbn [mbind option_bind app].
      by rewrite (load_saved_edges (directed g) (edges g) []).
  - split_and!; try done. by apply graph_of_saved.
Qed.

Lemma relabel_save_load_witness :
  let g := sample_graph false 2 [(0, 1, 3)] in
  let g' := update_node_label g 1 "" in
  node_ids g' = node_ids g
  ∧ edges g' = edges g ∧ directed g' = directed g ∧ next_id g' = next_id g
  ∧ (has_node g 1 = false → g' = g)
  ∧ (has_node g 1 = true → Node.label <$> PyDict.get (nodes g') 1 = Some "")
  ∧ FileHandler.graph_of_data (FileHandler.graph_data g')
    = Some (update_node_label g 1
              (if decide ("" = "") then Node._int_to_letter 1 else "")).
Proof.
  intros g. apply (relabel_save_load g 1 ""). apply sample_graph_constructed.
Defined.
